(** * crx-fetch: the CRX header stripper and the ZIP central-directory extractor

    A shallow embedding of [extractCrxToFolder] and
    [parseZipCentralDirectory] of [src/index.js], with the Node.js services
    they call ([Buffer] reads, [path], [fs], [zlib]) modelled next to them,
    followed by the properties of the specification. *)

From Stdlib Require Import ZArith Lia List Bool Ascii String.
From Stdlib.Strings Require Import Byte.
From stdpp Require Import base option list gmap.
Import ListNotations.

Local Open Scope Z_scope.

(* ===================================================================== *)
(** * Bytes and buffers *)
(* ===================================================================== *)

(** A [Buffer] is a sequence of octets. *)
Abbreviation buffer := (list byte).

Definition byte_val (b : byte) : Z := Z.of_N (Byte.to_N b).

(** The octet congruent to [z] modulo 256. *)
Definition byte_of_Z (z : Z) : byte :=
  match Byte.of_N (Z.to_N (z mod 256)) with
  | Some b => b
  | None => x00
  end.

Definition bytes_of (zs : list Z) : buffer := map byte_of_Z zs.

(** [buf.length] *)
Definition blen (buf : buffer) : Z := Z.of_nat (length buf).

(** Little-endian value of a run of octets. *)
Fixpoint le_value (bs : buffer) : Z :=
  match bs with
  | [] => 0
  | b :: bs' => byte_val b + 256 * le_value bs'
  end.

(** Little-endian encoding of [z] on [n] octets (wrapping modulo 256^n). *)
Fixpoint le_bytes (n : nat) (z : Z) : buffer :=
  match n with
  | O => []
  | S n' => byte_of_Z z :: le_bytes n' (z / 256)
  end.

(** JavaScript strings, as the sequence of their code points. *)
Abbreviation jsstring := (list Z).

Definition js_of_ascii (s : string) : jsstring :=
  map (fun a => Z.of_N (Ascii.N_of_ascii a)) (String.list_ascii_of_string s).

Definition buf_of_ascii (s : string) : buffer :=
  map Ascii.byte_of_ascii (String.list_ascii_of_string s).

(* ===================================================================== *)
(** * Failures *)
(* ===================================================================== *)

(** What the [fs] calls raise: the [errno] of the system call, or Node's
    own [ERR_INVALID_ARG_VALUE] for a path that holds a null character. *)
Inductive fs_errno :=
  | EEXIST | ENOTDIR | EISDIR | ENOENT | ENAMETOOLONG
  | ERR_INVALID_ARG_VALUE.

(** What a [throw] of the program carries.  The first nine are the
    failures the program raises itself or lets [zlib] raise; [RangeError]
    is Node's [ERR_OUT_OF_RANGE] of an out-of-bounds [Buffer] read, and
    [FsError] a failed [fs] call. *)
Inductive error :=
  | InvalidMagic
  | UnsupportedVersion (version : Z)
  | MalformedHeader
  | DirectoryNotFound
  | DirectoryOutOfRange
  | DirectorySignatureMismatch (ptr : Z)
  | LocalHeaderSignatureMismatch (lhPtr : Z) (filename : jsstring)
  | UnsupportedCompressionMethod (method : Z) (filename : jsstring)
  | DecompressionFailed
  | RangeError (offset : Z)
  | FsError (code : fs_errno).

Inductive result (A : Type) :=
  | Ok (a : A)
  | Err (e : error).
Arguments Ok {A} a.
Arguments Err {A} e.

Definition bind {A B} (r : result A) (k : A -> result B) : result B :=
  match r with
  | Ok a => k a
  | Err e => Err e
  end.

Notation "'let*' x ':=' r 'in' k" := (bind r (fun x => k))
  (at level 10, x pattern, r at level 100, k at level 200).

(** The failures of the specification's taxonomy. *)
Definition in_taxonomy (e : error) : bool :=
  match e with
  | RangeError _ | FsError _ => false
  | _ => true
  end.

(* ===================================================================== *)
(** * [Buffer] methods *)
(* ===================================================================== *)

(** [buf.slice(start, end)] for [0 <= start <= end]: clamped to the buffer. *)
Definition slice (buf : buffer) (start stop : Z) : buffer :=
  take (Z.to_nat (stop - start)) (drop (Z.to_nat start) buf).

(** [buf.slice(start)] *)
Definition slice_from (buf : buffer) (start : Z) : buffer :=
  drop (Z.to_nat start) buf.

Definition in_bounds (buf : buffer) (offset size : Z) : bool :=
  (0 <=? offset) && (offset + size <=? blen buf).

(** [buf.readUInt32LE(offset)]: throws when the four octets are not all
    inside the buffer. *)
Definition readUInt32LE (buf : buffer) (offset : Z) : result Z :=
  if in_bounds buf offset 4
  then Ok (le_value (slice buf offset (offset + 4)))
  else Err (RangeError offset).

(** [buf.readUInt16LE(offset)] *)
Definition readUInt16LE (buf : buffer) (offset : Z) : result Z :=
  if in_bounds buf offset 2
  then Ok (le_value (slice buf offset (offset + 2)))
  else Err (RangeError offset).

(** ** UTF-8 decoding, [buf.toString("utf8", start, end)]

    The decoder of the Encoding standard: a malformed sequence yields
    U+FFFD and decoding resumes at the octet that broke it. *)

Inductive utf8_lead :=
  | LeadAscii (c : Z)
  | LeadMulti (cp : Z) (needed : nat) (lower upper : Z)
  | LeadBad.

Definition utf8_classify (b : Z) : utf8_lead :=
  if b <=? 0x7F then LeadAscii b
  else if (0xC2 <=? b) && (b <=? 0xDF) then LeadMulti (Z.land b 0x1F) 1 0x80 0xBF
  else if (0xE0 <=? b) && (b <=? 0xEF) then
    LeadMulti (Z.land b 0xF) 2
      (if b =? 0xE0 then 0xA0 else 0x80) (if b =? 0xED then 0x9F else 0xBF)
  else if (0xF0 <=? b) && (b <=? 0xF4) then
    LeadMulti (Z.land b 0x7) 3
      (if b =? 0xF0 then 0x90 else 0x80) (if b =? 0xF4 then 0x8F else 0xBF)
  else LeadBad.

Definition replacement_char : Z := 0xFFFD.

(** [st] is [None] between characters, and [Some (cp, needed, lower, upper)]
    inside a multi-octet sequence. *)
Fixpoint utf8_decode_from (st : option (Z * nat * Z * Z)) (bs : buffer)
  : jsstring :=
  match bs with
  | [] => match st with None => [] | Some _ => [replacement_char] end
  | b :: rest =>
      let start :=
        match utf8_classify (byte_val b) with
        | LeadAscii c => c :: utf8_decode_from None rest
        | LeadMulti cp n lo hi => utf8_decode_from (Some (cp, n, lo, hi)) rest
        | LeadBad => replacement_char :: utf8_decode_from None rest
        end in
      match st with
      | None => start
      | Some (cp, needed, lo, hi) =>
          if (lo <=? byte_val b) && (byte_val b <=? hi) then
            let cp' := Z.lor (Z.shiftl cp 6) (Z.land (byte_val b) 0x3F) in
            match needed with
            | S (S n) => utf8_decode_from (Some (cp', S n, 0x80, 0xBF)) rest
            | _ => cp' :: utf8_decode_from None rest
            end
          else replacement_char :: start
      end
  end.

Definition utf8_decode (bs : buffer) : jsstring := utf8_decode_from None bs.

(** [buf.toString("utf8", start, end)] for [0 <= start <= end] *)
Definition toString_utf8 (buf : buffer) (start stop : Z) : jsstring :=
  utf8_decode (slice buf start stop).

(** [s.endsWith("/")] *)
Definition endsWith_slash (s : jsstring) : bool :=
  match last s with
  | Some c => c =? 47
  | None => false
  end.

(* ===================================================================== *)
(** * [path] (POSIX flavour) *)
(* ===================================================================== *)

Definition slash : Z := 47.
Definition dot : jsstring := [46].
Definition dotdot : jsstring := [46; 46].

Definition jsstring_eqb (a b : jsstring) : bool := bool_decide (a = b).

(** The pieces of [s] between its separators. *)
Fixpoint split_slash (s : jsstring) : list jsstring :=
  match s with
  | [] => [[]]
  | c :: s' =>
      if c =? slash then [] :: split_slash s'
      else match split_slash s' with
           | seg :: segs => (c :: seg) :: segs
           | [] => [[c]]
           end
  end.

Fixpoint join_slash (segs : list jsstring) : jsstring :=
  match segs with
  | [] => []
  | [seg] => seg
  | seg :: segs' => seg ++ slash :: join_slash segs'
  end.

(** One step of Node's [normalizeString]: [res] holds the segments kept so
    far, last one first. *)
Definition normalize_step (allowAboveRoot : bool) (res : list jsstring)
    (seg : jsstring) : list jsstring :=
  if jsstring_eqb seg [] || jsstring_eqb seg dot then res
  else if jsstring_eqb seg dotdot then
    match res with
    | top :: res' =>
        if jsstring_eqb top dotdot
        then (if allowAboveRoot then dotdot :: res else res)
        else res'
    | [] => if allowAboveRoot then [dotdot] else []
    end
  else seg :: res.

Definition normalize_segments (allowAboveRoot : bool) (segs : list jsstring)
  : list jsstring :=
  rev (fold_left (normalize_step allowAboveRoot) segs []).

Definition is_absolute (p : jsstring) : bool :=
  match p with
  | c :: _ => c =? slash
  | [] => false
  end.

(** [path.normalize(p)] *)
Definition path_normalize (p : jsstring) : jsstring :=
  match p with
  | [] => dot
  | _ =>
      let isAbsolute := is_absolute p in
      let trailingSeparator := endsWith_slash p in
      let body :=
        join_slash (normalize_segments (negb isAbsolute) (split_slash p)) in
      match body with
      | [] =>
          if isAbsolute then [slash]
          else if trailingSeparator then dot ++ [slash] else dot
      | _ =>
          (if isAbsolute then [slash] else []) ++ body
            ++ (if trailingSeparator then [slash] else [])
      end
  end.

(** [path.join(a, b)]: the non-empty arguments joined by a separator, then
    normalised. *)
Definition path_join (a b : jsstring) : jsstring :=
  match a, b with
  | [], [] => dot
  | [], _ => path_normalize b
  | _, [] => path_normalize a
  | _, _ => path_normalize (a ++ slash :: b)
  end.

(** [path.dirname(p)]: [p] up to the separator run that precedes its last
    segment.  [dirname_rev] works on the reversed path without its first
    character and returns the reversed prefix, [None] when no separator is
    followed by a segment. *)
Fixpoint dirname_rev (matchedSlash : bool) (r : jsstring)
  : option jsstring :=
  match r with
  | [] => None
  | c :: r' =>
      if c =? slash then
        if matchedSlash then dirname_rev true r' else Some r'
      else dirname_rev false r'
  end.

Definition path_dirname (p : jsstring) : jsstring :=
  match p with
  | [] => dot
  | c0 :: tl =>
      let hasRoot := c0 =? slash in
      match dirname_rev true (rev tl) with
      | None => if hasRoot then [slash] else dot
      | Some r =>
          if hasRoot && bool_decide (r = []) then [slash; slash]
          else c0 :: rev r
      end
  end.

(* ===================================================================== *)
(** * [fs]: a tree of directories and files *)
(* ===================================================================== *)

Inductive fs_node :=
  | Dir
  | File (content : buffer).

(** A location: whether it hangs from the root or from the working
    directory, and the names leading to it.  Relative locations may start
    with [..] names, which stand for ancestors of the working directory.
    The name of the working directory is not known here: a location
    reached through [..] names may be one that is also reached without
    them, or from the root, under another key.  Two keys are sure to name
    two locations when both hang from the same place and hold no [..]
    ([grounded] below). *)
Abbreviation fs_key := (bool * list jsstring)%type.

Abbreviation fs_state := (gmap fs_key fs_node).

(** What a call or a run leaves: the file system, and how it ended. *)
Abbreviation outcome := (fs_state * result unit)%type.

(** Where a path string leads, its names taken one at a time (a tree
    without symbolic links, on a system that tells upper from lower
    case). *)
Definition fs_resolve (p : jsstring) : fs_key :=
  (is_absolute p, normalize_segments (negb (is_absolute p)) (split_slash p)).

(** The root, the working directory and its ancestors always exist. *)
Definition always_dir (k : fs_key) : bool :=
  forallb (fun seg => jsstring_eqb seg dotdot) k.2.

Definition fs_lookup (fs : fs_state) (k : fs_key) : option fs_node :=
  if always_dir k then Some Dir else fs !! k.

(** The locations on the way to [k], [k] included, nearest the start
    first. *)
Definition key_prefixes (k : fs_key) : list fs_key :=
  map (fun n => (k.1, take n k.2)) (seq 0 (S (length k.2))).

Definition is_file (o : option fs_node) : bool :=
  match o with
  | Some (File _) => true
  | _ => false
  end.

(** ** What the system refuses of a path

    Node refuses a path that holds a null character before it calls the
    system; the system (Linux) refuses a path of [PATH_MAX] octets or
    more, and a name of more than [NAME_MAX] octets.  Lengths are those of
    the UTF-8 form that the system is given. *)
Definition NAME_MAX : Z := 255.
Definition PATH_MAX : Z := 4096.

Definition utf8_size (c : Z) : Z :=
  if c <? 0x80 then 1 else if c <? 0x800 then 2
  else if c <? 0x10000 then 3 else 4.

Definition byte_length (s : jsstring) : Z :=
  fold_right (fun c n => utf8_size c + n) 0 s.

Definition has_nul (p : jsstring) : bool := existsb (Z.eqb 0) p.

(** What is refused of [p] before any of its names is looked up. *)
Definition path_refusal (p : jsstring) : option fs_errno :=
  if has_nul p then Some ERR_INVALID_ARG_VALUE
  else if PATH_MAX <=? byte_length p then Some ENAMETOOLONG
  else None.

Definition too_long (seg : jsstring) : bool := NAME_MAX <? byte_length seg.

(** ** The walk along a path

    The system resolves a path one piece at a time from the root or from
    the working directory: an empty piece or [.] stays, [..] goes to the
    parent, a name goes to the child.  [walk] lists the pieces with the
    location reached after each. *)
Fixpoint walk (absolute : bool) (res : list jsstring) (segs : list jsstring)
  : list (jsstring * fs_key) :=
  match segs with
  | [] => []
  | seg :: segs' =>
      let res' := normalize_step (negb absolute) res seg in
      (seg, (absolute, rev res')) :: walk absolute res' segs'
  end.

Definition path_walk (p : jsstring) : list (jsstring * fs_key) :=
  ([], (is_absolute p, [])) :: walk (is_absolute p) [] (split_slash p).

(** The locations gone through on the way along [p], the starting point
    first, the location of [p] last. *)
Definition path_steps (p : jsstring) : list fs_key := map snd (path_walk p).

Definition is_name (seg : jsstring) : bool :=
  negb (jsstring_eqb seg [] || jsstring_eqb seg dot || jsstring_eqb seg dotdot).

(** ** [fs.mkdirSync(p, { recursive: true })]

    Every location on the way along [p] that is missing is made a
    directory, in the order of the walk, up to the first piece that cannot
    be passed: a name too long ([ENAMETOOLONG]), or a file ([EEXIST] when
    it is the last piece of [p] and a name, [ENOTDIR] otherwise).  What
    was made before that piece stays. *)
Definition insert_dirs (ks : list fs_key) (fs : fs_state) : fs_state :=
  fold_left (fun m k' => <[k' := Dir]> m) ks fs.

Fixpoint mkdir_along (fs : fs_state) (steps : list (jsstring * fs_key))
  : outcome :=
  match steps with
  | [] => (fs, Ok tt)
  | (seg, k) :: rest =>
      if too_long seg then (fs, Err (FsError ENAMETOOLONG))
      else if is_file (fs_lookup fs k) then
        (fs, Err (FsError (if is_name seg && bool_decide (rest = [])
                           then EEXIST else ENOTDIR)))
      else mkdir_along (<[k := Dir]> fs) rest
  end.

Definition mkdir_recursive (fs : fs_state) (p : jsstring) : outcome :=
  match path_refusal p with
  | Some errno => (fs, Err (FsError errno))
  | None =>
      if bool_decide (p = []) then (fs, Err (FsError ENOENT))
      else mkdir_along fs (path_walk p)
  end.

(** The call seen from its result: the file system it leaves when it
    succeeds, what it throws otherwise. *)
Definition mkdirSync (fs : fs_state) (p : jsstring) : result fs_state :=
  match mkdir_recursive fs p with
  | (fs', Ok _) => Ok fs'
  | (_, Err e) => Err e
  end.

(** ** [fs.writeFileSync(p, data)]

    Creates or overwrites the file.  Fails on a directory, when the
    directory part of [p] is not an existing directory, and when the path
    is one the system refuses; a failed call leaves everything as it
    was.  The directory part is taken as [path.dirname] gives it: for the
    paths that the program writes to, which [path.join] has normalised,
    that is the location where the walk stands before the last name. *)
Definition writeFileSync (fs : fs_state) (p : jsstring) (data : buffer)
  : result fs_state :=
  match path_refusal p with
  | Some errno => Err (FsError errno)
  | None =>
      match fs_lookup fs (fs_resolve (path_dirname p)) with
      | Some Dir =>
          if bool_decide (p = []) then Err (FsError ENOENT)
          else if endsWith_slash p then Err (FsError EISDIR)
          else if existsb too_long (split_slash p) then
            Err (FsError ENAMETOOLONG)
          else
            match fs_lookup fs (fs_resolve p) with
            | Some Dir => Err (FsError EISDIR)
            | _ => Ok (<[fs_resolve p := File data]> fs)
            end
      | Some (File _) => Err (FsError ENOTDIR)
      | None => Err (FsError ENOENT)
      end
  end.

(* ===================================================================== *)
(** * The program *)
(* ===================================================================== *)

(** One element of [files]: what the extraction keeps of a central
    directory record. *)
Record zip_file := {
  filename : jsstring;
  method : Z;
  compSize : Z;
  unCompSize : Z;
  flags : Z;
  localHeaderOffset : Z
}.

Definition magic_Cr24 : jsstring := js_of_ascii "Cr24".

Definition eocdSig : Z := 0x06054b50.
Definition cdSig : Z := 0x02014b50.
Definition localSig : Z := 0x04034b50.

(** ** [extractCrxToFolder], up to the ZIP start *)

(** Lines 128-152: the offset at which the ZIP data starts. *)
Definition zipStartOffset (crxBuffer : buffer) : result Z :=
  let* version := readUInt32LE crxBuffer 4 in
  if version =? 2 then
    let* pkLen := readUInt32LE crxBuffer 8 in
    let* sigLen := readUInt32LE crxBuffer 12 in
    Ok (16 + pkLen + sigLen)
  else if (version =? 3) || (version =? 4) then
    let* headerSize := readUInt32LE crxBuffer 8 in
    Ok (12 + headerSize)
  else Err (UnsupportedVersion version).

(** Lines 124-159: the ZIP data, [zipBuffer]. *)
Definition stripCrxHeader (crxBuffer : buffer) : result buffer :=
  if negb (jsstring_eqb (toString_utf8 crxBuffer 0 4) magic_Cr24) then
    Err InvalidMagic
  else
    let* start := zipStartOffset crxBuffer in
    if start >=? blen crxBuffer then Err MalformedHeader
    else Ok (slice_from crxBuffer start).

(** ** [parseZipCentralDirectory], the directory *)

(** The loop of lines 185-190, [n] iterations from position [i] downwards;
    [-1] when it runs to its end. *)
Fixpoint find_eocd_loop (zipBuffer : buffer) (n : nat) (i : Z) : result Z :=
  match n with
  | O => Ok (-1)
  | S n' =>
      let* w := readUInt32LE zipBuffer i in
      if w =? eocdSig then Ok i
      else find_eocd_loop zipBuffer n' (i - 1)
  end.

(** Lines 182-190: [eocdPos]. *)
Definition find_eocd (zipBuffer : buffer) : result Z :=
  let minPos := Z.max 0 (blen zipBuffer - 65557) in
  find_eocd_loop zipBuffer
    (Z.to_nat (blen zipBuffer - 4 - minPos + 1)) (blen zipBuffer - 4).

(** Lines 205-207: [totalCD], [cdSize], [cdOffset]. *)
Definition read_eocd (zipBuffer : buffer) (eocdPos : Z) : result (Z * Z * Z) :=
  let* totalCD := readUInt16LE zipBuffer (eocdPos + 10) in
  let* cdSize := readUInt32LE zipBuffer (eocdPos + 12) in
  let* cdOffset := readUInt32LE zipBuffer (eocdPos + 16) in
  Ok (totalCD, cdSize, cdOffset).

(** Lines 219-288: one central directory record at [ptr]; the entry and
    the position after the record. *)
Definition parse_cd_record (zipBuffer : buffer) (ptr : Z)
  : result (zip_file * Z) :=
  let* sig := readUInt32LE zipBuffer ptr in
  if negb (sig =? cdSig) then Err (DirectorySignatureMismatch ptr)
  else
    let ptr := ptr + 4 in
    let* _verMade := readUInt16LE zipBuffer ptr in
    let ptr := ptr + 2 in
    let* _verNeed := readUInt16LE zipBuffer ptr in
    let ptr := ptr + 2 in
    let* flags := readUInt16LE zipBuffer ptr in
    let ptr := ptr + 2 in
    let* method := readUInt16LE zipBuffer ptr in
    let ptr := ptr + 2 in
    let* _modTime := readUInt16LE zipBuffer ptr in
    let ptr := ptr + 2 in
    let* _modDate := readUInt16LE zipBuffer ptr in
    let ptr := ptr + 2 in
    let* _crc32 := readUInt32LE zipBuffer ptr in
    let ptr := ptr + 4 in
    let* compSize := readUInt32LE zipBuffer ptr in
    let ptr := ptr + 4 in
    let* unCompSize := readUInt32LE zipBuffer ptr in
    let ptr := ptr + 4 in
    let* fLen := readUInt16LE zipBuffer ptr in
    let ptr := ptr + 2 in
    let* xLen := readUInt16LE zipBuffer ptr in
    let ptr := ptr + 2 in
    let* cLen := readUInt16LE zipBuffer ptr in
    let ptr := ptr + 2 in
    let* _diskNo := readUInt16LE zipBuffer ptr in
    let ptr := ptr + 2 in
    let* _intAttr := readUInt16LE zipBuffer ptr in
    let ptr := ptr + 2 in
    let* _extAttr := readUInt32LE zipBuffer ptr in
    let ptr := ptr + 4 in
    let* localHeaderOffset := readUInt32LE zipBuffer ptr in
    let ptr := ptr + 4 in
    let filename := toString_utf8 zipBuffer ptr (ptr + fLen) in
    let ptr := ptr + fLen in
    let ptr := ptr + xLen in
    let ptr := ptr + cLen in
    Ok ({| filename := filename; method := method; compSize := compSize;
           unCompSize := unCompSize; flags := flags;
           localHeaderOffset := localHeaderOffset |}, ptr).

(** The loop of lines 217-289, [n] records from [ptr]. *)
Fixpoint parse_cd_records (zipBuffer : buffer) (n : nat) (ptr : Z)
  : result (list zip_file) :=
  match n with
  | O => Ok []
  | S n' =>
      let* (file, ptr') := parse_cd_record zipBuffer ptr in
      let* files := parse_cd_records zipBuffer n' ptr' in
      Ok (file :: files)
  end.

(** Lines 182-289: [files]. *)
Definition parse_central_directory (zipBuffer : buffer)
  : result (list zip_file) :=
  let* eocdPos := find_eocd zipBuffer in
  if eocdPos <? 0 then Err DirectoryNotFound
  else
    let* (totalCD, cdSize, cdOffset) := read_eocd zipBuffer eocdPos in
    if cdOffset + cdSize >? blen zipBuffer then Err DirectoryOutOfRange
    else parse_cd_records zipBuffer (Z.to_nat totalCD) cdOffset.

(** ** [parseZipCentralDirectory], the files *)

(** Lines 305-343: the position of the data of the entry whose local
    header is at [localHeaderOffset]. *)
Definition local_data_start (zipBuffer : buffer) (file : zip_file)
  : result Z :=
  let lhPtr := localHeaderOffset file in
  let* sig := readUInt32LE zipBuffer lhPtr in
  if negb (sig =? localSig) then
    Err (LocalHeaderSignatureMismatch lhPtr (filename file))
  else
    let lhPtr := lhPtr + 4 in
    let* _lhVerNeed := readUInt16LE zipBuffer lhPtr in
    let lhPtr := lhPtr + 2 in
    let* _lhFlags := readUInt16LE zipBuffer lhPtr in
    let lhPtr := lhPtr + 2 in
    let* _lhMethod := readUInt16LE zipBuffer lhPtr in
    let lhPtr := lhPtr + 2 in
    let lhPtr := lhPtr + 2 in
    let lhPtr := lhPtr + 2 in
    let lhPtr := lhPtr + 4 in
    let lhPtr := lhPtr + 4 in
    let lhPtr := lhPtr + 4 in
    let* lhFNameLen := readUInt16LE zipBuffer lhPtr in
    let lhPtr := lhPtr + 2 in
    let* lhXLen := readUInt16LE zipBuffer lhPtr in
    let lhPtr := lhPtr + 2 in
    let lhPtr := lhPtr + lhFNameLen in
    let lhPtr := lhPtr + lhXLen in
    Ok lhPtr.

(** Lines 305-346: [fileData]. *)
Definition local_file_data (zipBuffer : buffer) (file : zip_file)
  : result buffer :=
  let* lhPtr := local_data_start zipBuffer file in
  Ok (slice zipBuffer lhPtr (lhPtr + compSize file)).

Section Files.

(** [zlib.inflateRawSync]: the inflated data, or [None] when it throws. *)
Variable inflateRawSync : buffer -> option buffer.

Definition fs_step (fs : fs_state) (r : result fs_state) : outcome :=
  match r with
  | Ok fs' => (fs', Ok tt)
  | Err e => (fs, Err e)
  end.

(** Lines 295-364: the body of the loop over [files]. *)
Definition extract_file (zipBuffer : buffer) (outFolder : jsstring)
    (file : zip_file) (fs : fs_state) : outcome :=
  if endsWith_slash (filename file) then
    mkdir_recursive fs (path_join outFolder (filename file))
  else
    match local_file_data zipBuffer file with
    | Err e => (fs, Err e)
    | Ok fileData =>
        let outPath := path_join outFolder (filename file) in
        match mkdir_recursive fs (path_dirname outPath) with
        | (fs1, Err e) => (fs1, Err e)
        | (fs1, Ok _) =>
            if method file =? 0 then
              fs_step fs1 (writeFileSync fs1 outPath fileData)
            else if method file =? 8 then
              match inflateRawSync fileData with
              | None => (fs1, Err DecompressionFailed)
              | Some unzipped =>
                  fs_step fs1 (writeFileSync fs1 outPath unzipped)
              end
            else
              (fs1, Err (UnsupportedCompressionMethod (method file)
                           (filename file)))
        end
    end.

(** Lines 294-365: the loop; the first failure ends it. *)
Fixpoint extract_files (zipBuffer : buffer) (outFolder : jsstring)
    (files : list zip_file) (fs : fs_state) : outcome :=
  match files with
  | [] => (fs, Ok tt)
  | file :: files' =>
      match extract_file zipBuffer outFolder file fs with
      | (fs', Ok _) => extract_files zipBuffer outFolder files' fs'
      | (fs', Err e) => (fs', Err e)
      end
  end.

Definition parseZipCentralDirectory (zipBuffer : buffer)
    (outFolder : jsstring) (fs : fs_state) : outcome :=
  match parse_central_directory zipBuffer with
  | Err e => (fs, Err e)
  | Ok files =>
      match mkdir_recursive fs outFolder with
      | (fs0, Err e) => (fs0, Err e)
      | (fs0, Ok _) => extract_files zipBuffer outFolder files fs0
      end
  end.

Definition extractCrxToFolder (crxBuffer : buffer) (outFolder : jsstring)
    (fs : fs_state) : outcome :=
  match stripCrxHeader crxBuffer with
  | Err e => (fs, Err e)
  | Ok zipBuffer => parseZipCentralDirectory zipBuffer outFolder fs
  end.

End Files.

(* ===================================================================== *)
(** * ZIP archives, as the format lays them out *)
(* ===================================================================== *)

(** An entry of an archive under construction.  [ze_payload] is the data
    as stored in the archive (already compressed for a deflate entry);
    [ze_lh_fields] are the 22 octets of the local header between its
    signature and its two length fields (version, flags, method, time,
    date, CRC and the two sizes), which a writer that streams its output
    may leave at zero; [ze_trailer] is what follows the data before the
    next local header, a data descriptor for such a writer. *)
Record zip_entry := {
  ze_name : buffer;
  ze_method : Z;
  ze_flags : Z;
  ze_payload : buffer;
  ze_unCompSize : Z;
  ze_crc32 : Z;
  ze_verMade : Z;
  ze_verNeed : Z;
  ze_modTime : Z;
  ze_modDate : Z;
  ze_intAttr : Z;
  ze_extAttr : Z;
  ze_extra : buffer;
  ze_comment : buffer;
  ze_lh_fields : buffer;
  ze_lh_name : buffer;
  ze_lh_extra : buffer;
  ze_trailer : buffer
}.

Definition le16 (z : Z) : buffer := le_bytes 2 z.
Definition le32 (z : Z) : buffer := le_bytes 4 z.

(** Local header and data of an entry, and what follows the data. *)
Definition local_record (e : zip_entry) : buffer :=
  le32 localSig ++ ze_lh_fields e
    ++ le16 (blen (ze_lh_name e)) ++ le16 (blen (ze_lh_extra e))
    ++ ze_lh_name e ++ ze_lh_extra e ++ ze_payload e ++ ze_trailer e.

(** Central directory record of an entry whose local header is at [off]. *)
Definition central_record (off : Z) (e : zip_entry) : buffer :=
  le32 cdSig ++ le16 (ze_verMade e) ++ le16 (ze_verNeed e)
    ++ le16 (ze_flags e) ++ le16 (ze_method e)
    ++ le16 (ze_modTime e) ++ le16 (ze_modDate e) ++ le32 (ze_crc32 e)
    ++ le32 (blen (ze_payload e)) ++ le32 (ze_unCompSize e)
    ++ le16 (blen (ze_name e)) ++ le16 (blen (ze_extra e))
    ++ le16 (blen (ze_comment e))
    ++ le16 0 ++ le16 (ze_intAttr e) ++ le32 (ze_extAttr e) ++ le32 off
    ++ ze_name e ++ ze_extra e ++ ze_comment e.

Fixpoint local_records (es : list zip_entry) : buffer :=
  match es with
  | [] => []
  | e :: es' => local_record e ++ local_records es'
  end.

(** The directory of entries laid out from offset [off] on. *)
Fixpoint central_records (off : Z) (es : list zip_entry) : buffer :=
  match es with
  | [] => []
  | e :: es' =>
      central_record off e ++ central_records (off + blen (local_record e)) es'
  end.

(** The end-of-central-directory record. *)
Definition eocd_record (total cdSize cdOffset : Z) (comment : buffer)
  : buffer :=
  le32 eocdSig ++ le16 0 ++ le16 0 ++ le16 total ++ le16 total
    ++ le32 cdSize ++ le32 cdOffset ++ le16 (blen comment) ++ comment.

(** The archive with entries [es] and archive comment [comment]. *)
Definition build_zip (es : list zip_entry) (comment : buffer) : buffer :=
  local_records es ++ central_records 0 es
    ++ eocd_record (Z.of_nat (length es)) (blen (central_records 0 es))
         (blen (local_records es)) comment.

(** An entry with the header fields a common writer gives it;
    [lhCompSize] and [lhUnCompSize] are the sizes written in the local
    header. *)
Definition make_entry (name : string) (method flags : Z) (payload : buffer)
    (unCompSize lhCompSize lhUnCompSize : Z) : zip_entry :=
  {| ze_name := buf_of_ascii name; ze_method := method; ze_flags := flags;
     ze_payload := payload; ze_unCompSize := unCompSize; ze_crc32 := 0;
     ze_verMade := 20; ze_verNeed := 20; ze_modTime := 0; ze_modDate := 0;
     ze_intAttr := 0; ze_extAttr := 0; ze_extra := []; ze_comment := [];
     ze_lh_fields := le16 20 ++ le16 flags ++ le16 method ++ le16 0 ++ le16 0
                       ++ le32 0 ++ le32 lhCompSize ++ le32 lhUnCompSize;
     ze_lh_name := buf_of_ascii name; ze_lh_extra := []; ze_trailer := [] |}.

(** The local header repeats the sizes of the directory. *)
Definition plain_entry (name : string) (method : Z) (payload : buffer)
    (unCompSize : Z) : zip_entry :=
  make_entry name method 0 payload unCompSize (blen payload) unCompSize.

Definition stored_entry (name : string) (content : buffer) : zip_entry :=
  plain_entry name 0 content (blen content).

(** A CRX3 container around [zip], with [header] as its signed header. *)
Definition build_crx3 (header zip : buffer) : buffer :=
  buf_of_ascii "Cr24" ++ le32 3 ++ le32 (blen header) ++ header ++ zip.

(** A CRX2 container around [zip]. *)
Definition build_crx2 (pubKey sig zip : buffer) : buffer :=
  buf_of_ascii "Cr24" ++ le32 2 ++ le32 (blen pubKey) ++ le32 (blen sig)
    ++ pubKey ++ sig ++ zip.

(** ** Raw deflate streams made of stored blocks

    The part of [inflateRawSync] needed to run the extraction on concrete
    archives: the inflation of a stream whose blocks are all of type 00
    (stored).  A block of another type, a length that does not match its
    complement, and a stream that ends early give [None]. *)
Fixpoint inflate_stored_blocks (fuel : nat) (bs : buffer) : option buffer :=
  match fuel with
  | O => None
  | S fuel' =>
      match bs with
      | hd :: l0 :: l1 :: n0 :: n1 :: rest =>
          let len := byte_val l0 + 256 * byte_val l1 in
          let nlen := byte_val n0 + 256 * byte_val n1 in
          if negb (Z.land (byte_val hd) 6 =? 0) then None
          else if negb (len + nlen =? 65535) then None
          else if blen rest <? len then None
          else
            let data := take (Z.to_nat len) rest in
            if Z.testbit (byte_val hd) 0 then Some data
            else
              match inflate_stored_blocks fuel'
                      (drop (Z.to_nat len) rest) with
              | Some more => Some (data ++ more)
              | None => None
              end
      | _ => None
      end
  end.

Definition inflate_stored (bs : buffer) : option buffer :=
  inflate_stored_blocks (length bs) bs.

(** The stored-block deflate stream of [data], for [data] shorter than
    65536 octets. *)
Definition deflate_stored (data : buffer) : buffer :=
  byte_of_Z 1 :: le16 (blen data) ++ le16 (65535 - blen data) ++ data.


(* ===================================================================== *)
(** * Vocabulary of the statements *)
(* ===================================================================== *)

(** The magic test of line 124, as a proposition. *)
Definition valid_magic (crxBuffer : buffer) : Prop :=
  toString_utf8 crxBuffer 0 4 = magic_Cr24.

(** The first position of the backward scan. *)
Definition scan_top (zipBuffer : buffer) : Z := blen zipBuffer - 4.

(** The last position of the backward scan, [minPos]. *)
Definition scan_bottom (zipBuffer : buffer) : Z :=
  Z.max 0 (blen zipBuffer - 65557).

(** The word at [p] is the directory-record signature. *)
Definition eocd_at (zipBuffer : buffer) (p : Z) : Prop :=
  readUInt32LE zipBuffer p = Ok eocdSig.

Definition is_RangeError (e : error) : Prop := exists off, e = RangeError off.

(** The failures of the loop over [files]. *)
Definition entry_failure (e : error) : Prop :=
  match e with
  | LocalHeaderSignatureMismatch _ _ | UnsupportedCompressionMethod _ _
  | DecompressionFailed | RangeError _ | FsError _ => True
  | _ => False
  end.

(** [buf] and [buf'] have the same length and the same octets outside
    positions [lo] to [hi - 1]. *)
Definition same_outside (buf buf' : buffer) (lo hi : Z) : Prop :=
  length buf = length buf'
  /\ take (Z.to_nat lo) buf = take (Z.to_nat lo) buf'
  /\ drop (Z.to_nat hi) buf = drop (Z.to_nat hi) buf'.

Definition set_unCompSize (u : Z) (file : zip_file) : zip_file :=
  {| filename := filename file; method := method file;
     compSize := compSize file; unCompSize := u; flags := flags file;
     localHeaderOffset := localHeaderOffset file |}.

(** Some piece of [name] between separators is [..]. *)
Definition has_dotdot_segment (name : jsstring) : bool :=
  existsb (fun seg => jsstring_eqb seg dotdot) (split_slash name).

(** The location of [p] is that of [root] or lies below it. *)
Definition inside (root p : jsstring) : bool :=
  bool_decide ((fs_resolve root).1 = (fs_resolve p).1)
  && bool_decide ((fs_resolve root).2 `prefix_of` (fs_resolve p).2).

(** What the file of an entry is to hold: the data as stored for method 0,
    inflated for method 8. *)
Definition decode_payload (inflate : buffer -> option buffer) (m : Z)
    (payload : buffer) : option buffer :=
  if m =? 0 then Some payload
  else if m =? 8 then inflate payload
  else None.

(** The system takes the path [p]: it holds no null character, is
    shorter than [PATH_MAX] octets, and none of its names is longer than
    [NAME_MAX] octets. *)
Definition accepted (p : jsstring) : bool :=
  negb (has_nul p) && (byte_length p <? PATH_MAX)
  && forallb (fun seg => negb (too_long seg)) (split_slash p).

(** No location on the way along [p], that of [p] included, holds a
    file. *)
Definition way_clear (fs : fs_state) (p : jsstring) : Prop :=
  Forall (fun k => is_file (fs_lookup fs k) = false) (path_steps p).

(** [k] hangs from where [out] hangs from (the root or the working
    directory) and none of its names is [..].  Two such keys name the same
    location only when they are equal. *)
Definition grounded (out : jsstring) (k : fs_key) : Prop :=
  k.1 = is_absolute out /\ Forall (fun seg => seg <> dotdot) k.2.

(** The element of [files] that the directory record of [e], with its
    local header at [off], stands for. *)
Definition descriptor (off : Z) (e : zip_entry) : zip_file :=
  {| filename := utf8_decode (ze_name e); method := ze_method e;
     compSize := blen (ze_payload e); unCompSize := ze_unCompSize e;
     flags := ze_flags e; localHeaderOffset := off |}.

Fixpoint descriptors (off : Z) (es : list zip_entry) : list zip_file :=
  match es with
  | [] => []
  | e :: es' => descriptor off e :: descriptors (off + blen (local_record e)) es'
  end.

(** The fields of [e] fit the widths the format gives them. *)
Definition entry_fits (e : zip_entry) : Prop :=
  (0 <= ze_method e < 65536)
  /\ (0 <= ze_flags e < 65536)
  /\ (0 <= ze_unCompSize e < 4294967296)
  /\ blen (ze_payload e) < 4294967296
  /\ blen (ze_name e) < 65536
  /\ blen (ze_extra e) < 65536
  /\ blen (ze_comment e) < 65536
  /\ blen (ze_lh_fields e) = 22
  /\ blen (ze_lh_name e) < 65536
  /\ blen (ze_lh_extra e) < 65536.

(** The archive fits the format without its 64-bit extensions. *)
Definition archive_fits (es : list zip_entry) (comment : buffer) : Prop :=
  Forall entry_fits es
  /\ Z.of_nat (length es) < 65536
  /\ blen (local_records es) < 4294967296
  /\ blen (central_records 0 es) < 4294967296
  /\ blen comment < 65536.

(** Where the directory record of [build_zip es comment] starts. *)
Definition eocd_offset (es : list zip_entry) : Z :=
  blen (local_records es) + blen (central_records 0 es).

Definition is_eocd_at (buf : buffer) (q : Z) : bool :=
  match readUInt32LE buf q with
  | Ok w => w =? eocdSig
  | Err _ => false
  end.

(** No word after position [pos] equals the directory-record signature. *)
Definition no_signature_after (buf : buffer) (pos : Z) : Prop :=
  Forall (fun q => is_eocd_at buf q = false)
    (map (fun i => pos + 1 + Z.of_nat i)
       (seq 0 (Z.to_nat (blen buf - 4 - pos)))).

Definition is_marker (e : zip_entry) : bool :=
  endsWith_slash (utf8_decode (ze_name e)).

(** The destination path of [e]. *)
Definition dest (out : jsstring) (e : zip_entry) : jsstring :=
  path_join out (utf8_decode (ze_name e)).

(** The directory that the extraction of [e] asks for. *)
Definition dir_path (out : jsstring) (e : zip_entry) : jsstring :=
  if is_marker e then dest out e else path_dirname (dest out e).

(** The locations that the extraction makes directories. *)
Fixpoint entry_dirs (out : jsstring) (es : list zip_entry) : list fs_key :=
  match es with
  | [] => []
  | e :: es' => path_steps (dir_path out e) ++ entry_dirs out es'
  end.

Definition dirs_needed (out : jsstring) (es : list zip_entry) : list fs_key :=
  path_steps out ++ entry_dirs out es.

(** The locations of the files of the regular entries. *)
Fixpoint file_keys (out : jsstring) (es : list zip_entry) : list fs_key :=
  match es with
  | [] => []
  | e :: es' =>
      if is_marker e then file_keys out es'
      else fs_resolve (dest out e) :: file_keys out es'
  end.

Definition is_dir (o : option fs_node) : bool :=
  match o with
  | Some Dir => true
  | _ => false
  end.

(** No file stands where the extraction of [es] needs a directory. *)
Definition dirs_free (out : jsstring) (es : list zip_entry) (fs : fs_state)
  : Prop :=
  Forall (fun k => is_file (fs_lookup fs k) = false) (dirs_needed out es).

(** The entries can be laid out under [out] in [fs]: the system takes
    every path that the extraction uses; the locations involved are
    grounded, so that different keys are different locations; the files go
    to distinct locations, none of which is a directory or is to become
    one; no file stands where a directory is needed; and no file path ends
    with a separator. *)
Definition placeable (out : jsstring) (fs : fs_state) (es : list zip_entry)
  : Prop :=
  out <> []
  /\ accepted out = true
  /\ Forall (fun e => accepted (dir_path out e) = true
                      /\ (is_marker e = false -> accepted (dest out e) = true))
       es
  /\ Forall (grounded out) (file_keys out es ++ dirs_needed out es)
  /\ NoDup (file_keys out es)
  /\ Forall (fun k => (k ∉ dirs_needed out es) /\ is_dir (fs_lookup fs k) = false)
       (file_keys out es)
  /\ dirs_free out es fs
  /\ Forall (fun e => is_marker e = false -> endsWith_slash (dest out e) = false)
       es.

(** The data of every regular entry decodes: it is stored, or it is a
    deflate stream that [inflate] accepts. *)
Definition decodable (inflate : buffer -> option buffer)
    (es : list zip_entry) : Prop :=
  Forall (fun e => is_marker e = false ->
                   is_Some (decode_payload inflate (ze_method e) (ze_payload e)))
    es.

(** What the extraction is to leave for [e]: its directory, or its file
    with the decoded data. *)
Definition extracted (inflate : buffer -> option buffer) (out : jsstring)
    (fs : fs_state) (e : zip_entry) : Prop :=
  if is_marker e then fs_lookup fs (fs_resolve (dest out e)) = Some Dir
  else exists content,
         decode_payload inflate (ze_method e) (ze_payload e) = Some content
         /\ fs_lookup fs (fs_resolve (dest out e)) = Some (File content).

(* ===================================================================== *)
(** * Sample archives *)
(* ===================================================================== *)

Definition ext : jsstring := js_of_ascii "ext".

(** An archive cut short: the directory announces 1000 octets of data for
    [a.txt], and 75 octets follow its local header. *)
Definition short_zip : buffer :=
  let e := stored_entry "a.txt" (buf_of_ascii "hi") in
  let announced := stored_entry "a.txt" (repeat x00 1000) in
  local_record e ++ central_record 0 announced
    ++ eocd_record 1 (blen (central_record 0 announced))
         (blen (local_record e)) [].

Definition short_file : zip_file :=
  {| filename := js_of_ascii "a.txt"; method := 0; compSize := 1000;
     unCompSize := 1000; flags := 0; localHeaderOffset := 0 |}.

(** An archive written in one pass: flag bit 3 is set and the local header
    leaves the sizes at zero. *)
Definition streamed_zip : buffer :=
  build_zip [make_entry "a.txt" 0 8 (buf_of_ascii "hi") 2 0 0] [].

(** The same archive with the sizes filled in the local header. *)
Definition filled_zip : buffer :=
  build_zip [make_entry "a.txt" 0 8 (buf_of_ascii "hi") 2 2 2] [].

Definition streamed_file : zip_file :=
  {| filename := js_of_ascii "a.txt"; method := 0; compSize := 2;
     unCompSize := 2; flags := 8; localHeaderOffset := 0 |}.

(** One deflate entry whose directory record announces 9 octets, while its
    data inflates to the 5 octets of [hello]. *)
Definition deflate_zip : buffer :=
  build_zip
    [plain_entry "a.txt" 8 (deflate_stored (buf_of_ascii "hello")) 9] [].

Definition deflate_file : zip_file :=
  {| filename := js_of_ascii "a.txt"; method := 8; compSize := 10;
     unCompSize := 9; flags := 0; localHeaderOffset := 0 |}.

(** A directory marker with compression method 99. *)
Definition marker99_zip : buffer := build_zip [plain_entry "d/" 99 [] 0] [].

(** Three entries, the second with compression method 99. *)
Definition method99_zip : buffer :=
  build_zip
    [stored_entry "a.txt" (buf_of_ascii "A");
     plain_entry "sub/b.bin" 99 (buf_of_ascii "B") 1;
     stored_entry "c.txt" (buf_of_ascii "C")] [].

Definition method99_before : list zip_file :=
  [{| filename := js_of_ascii "a.txt"; method := 0; compSize := 1;
      unCompSize := 1; flags := 0; localHeaderOffset := 0 |}].

Definition method99_file : zip_file :=
  {| filename := js_of_ascii "sub/b.bin"; method := 99; compSize := 1;
     unCompSize := 1; flags := 0; localHeaderOffset := 36 |}.

Definition method99_after : list zip_file :=
  [{| filename := js_of_ascii "c.txt"; method := 0; compSize := 1;
      unCompSize := 1; flags := 0; localHeaderOffset := 76 |}].

(** A stored entry [a], then an entry [a/b] with compression method 99:
    the directory that the second entry asks for is the file of the
    first. *)
Definition blocked99_zip : buffer :=
  build_zip
    [stored_entry "a" (buf_of_ascii "A");
     plain_entry "a/b" 99 (buf_of_ascii "B") 1] [].

Definition blocked99_before : list zip_file :=
  [{| filename := js_of_ascii "a"; method := 0; compSize := 1;
      unCompSize := 1; flags := 0; localHeaderOffset := 0 |}].

Definition blocked99_file : zip_file :=
  {| filename := js_of_ascii "a/b"; method := 99; compSize := 1;
     unCompSize := 1; flags := 0; localHeaderOffset := 32 |}.

(** A name with a [..] piece that stays below the destination. *)
Definition dotdot_inside_zip : buffer :=
  build_zip [stored_entry "a/../b.txt" (buf_of_ascii "x")] [].

(** A name that climbs out of the destination. *)
Definition escaping_zip : buffer :=
  build_zip [stored_entry "../evil.txt" (buf_of_ascii "x")] [].

Definition escaping_file : zip_file :=
  {| filename := js_of_ascii "../evil.txt"; method := 0; compSize := 1;
     unCompSize := 1; flags := 0; localHeaderOffset := 0 |}.

(** One stored entry, and an archive comment that holds the four octets of
    the directory-record signature. *)
Definition comment_zip_entries : list zip_entry :=
  [stored_entry "a.txt" (buf_of_ascii "x")].

Definition signature_comment : buffer := bytes_of [0x50; 0x4b; 0x05; 0x06].

Definition comment_zip : buffer :=
  build_zip comment_zip_entries signature_comment.

(** A directory marker, a stored file, and a deflated file two levels
    down. *)
Definition sample_entries : list zip_entry :=
  [plain_entry "assets/" 0 [] 0;
   stored_entry "manifest.json" (buf_of_ascii "{}");
   plain_entry "assets/js/app.js" 8 (deflate_stored (buf_of_ascii "run()")) 5].

Definition sample_zip : buffer := build_zip sample_entries [].

(** Containers around [sample_zip]: CRX2 with a 3-octet key and a 2-octet
    signature, CRX3 with a 5-octet header, and one that announces
    version 9. *)
Definition crx2_sample : buffer :=
  build_crx2 (bytes_of [1; 2; 3]) (bytes_of [4; 5]) sample_zip.

Definition crx3_sample : buffer :=
  build_crx3 (bytes_of [1; 2; 3; 4; 5]) sample_zip.

Definition crx9_sample : buffer :=
  buf_of_ascii "Cr24" ++ le32 9 ++ le32 0 ++ sample_zip.

(** A CRX3 container that ends with its header. *)
Definition crx3_header_only : buffer :=
  build_crx3 (bytes_of [1; 2; 3; 4; 5]) [].

(** A directory record alone, announcing no entry and a directory of
    [cdSize] octets at offset 0. *)
Definition bare_eocd (cdSize : Z) : buffer := eocd_record 0 cdSize 0 [].

(** The container of the specification's end-to-end example: magic [Cr24],
    version 3, header size 0, then an archive with the one stored file
    [manifest.json]. *)
Definition manifest_content : buffer :=
  bytes_of [0x7b; 0x22; 0x61; 0x22; 0x3a; 0x31; 0x7d].

Definition manifest_crx : buffer :=
  build_crx3 [] (build_zip [stored_entry "manifest.json" manifest_content] []).

(** What the decoder state promises: the character under construction
    will come out above the ASCII range. *)
Definition utf8_state_high (st : Z * nat * Z * Z) : Prop :=
  let '(cp, needed, lo, hi) := st in
  0 <= cp /\ 0x80 <= lo /\ hi <= 0xBF
  /\ match needed with
     | O | S O => 2 <= cp
     | S (S O) => 1 <= cp \/ 0xA0 <= lo
     | _ => 1 <= cp \/ 0x90 <= lo
     end.

(* ===================================================================== *)
(** * Further vocabulary: stages, fields, kinds *)
(* ===================================================================== *)

(** The failures raised before the destination is touched: those of the
    container header and of the directory. *)
Definition early_failure (e : error) : Prop :=
  match e with
  | InvalidMagic | UnsupportedVersion _ | MalformedHeader
  | DirectoryNotFound | DirectoryOutOfRange | DirectorySignatureMismatch _ =>
      True
  | _ => False
  end.

(** The failures of lines 182-289. *)
Definition directory_failure (e : error) : Prop :=
  match e with
  | DirectoryNotFound | DirectoryOutOfRange | DirectorySignatureMismatch _
  | RangeError _ => True
  | _ => False
  end.

(** The 16-bit and 32-bit little-endian fields at position [p]. *)
Definition u16_at (buf : buffer) (p : Z) : Z := le_value (slice buf p (p + 2)).
Definition u32_at (buf : buffer) (p : Z) : Z := le_value (slice buf p (p + 4)).

(** A container cut after its magic, and a CRX2 container cut after the
    key length. *)
Definition magic_only : buffer := buf_of_ascii "Cr24".
Definition crx2_cut : buffer := buf_of_ascii "Cr24" ++ le32 2 ++ le32 0.

(** [sample_zip] cut inside the name of its first directory record, and
    inside the fixed part of that record (which starts at 138). *)
Definition sample_cut_name : buffer := take 188 sample_zip.
Definition sample_cut_record : buffer := take 180 sample_zip.

(** The local header offset of the entry of rank [i]. *)
Definition entry_offset (es : list zip_entry) (i : nat) : Z :=
  blen (local_records (take i es)).

(** An entry whose local header disagrees with the directory: another
    name, an extra field, sizes left at zero, and a data descriptor after
    the data. *)
Definition odd_local_entry : zip_entry :=
  {| ze_name := buf_of_ascii "b.txt"; ze_method := 0; ze_flags := 8;
     ze_payload := buf_of_ascii "payload"; ze_unCompSize := 7; ze_crc32 := 0;
     ze_verMade := 20; ze_verNeed := 20; ze_modTime := 0; ze_modDate := 0;
     ze_intAttr := 0; ze_extAttr := 0; ze_extra := []; ze_comment := [];
     ze_lh_fields := repeat x00 22;
     ze_lh_name := buf_of_ascii "other-name";
     ze_lh_extra := bytes_of [1; 2; 3];
     ze_trailer := le32 0x08074b50 ++ le32 0 ++ le32 7 ++ le32 7 |}.

Definition odd_local_entries : list zip_entry :=
  [stored_entry "a.txt" (buf_of_ascii "A"); odd_local_entry].

(** The destination path of an element of [files]. *)
Definition file_dest (out : jsstring) (file : zip_file) : jsstring :=
  path_join out (filename file).

(** The locations that the body of the loop may write for [file]. *)
Definition file_touches (out : jsstring) (file : zip_file) : list fs_key :=
  if endsWith_slash (filename file) then
    path_steps (file_dest out file)
  else
    path_steps (path_dirname (file_dest out file))
      ++ [fs_resolve (file_dest out file)].

(** The locations that a run over [files] may write. *)
Fixpoint files_touch (out : jsstring) (files : list zip_file) : list fs_key :=
  match files with
  | [] => []
  | file :: files' => file_touches out file ++ files_touch out files'
  end.

Definition run_touches (out : jsstring) (files : list zip_file)
  : list fs_key :=
  path_steps out ++ files_touch out files.

(** What the destination of [file] holds once [file] is extracted: a
    directory for a marker, a file otherwise. *)
Definition destination_made (out : jsstring) (fs : fs_state)
    (file : zip_file) : Prop :=
  if endsWith_slash (filename file) then
    fs_lookup fs (fs_resolve (file_dest out file)) = Some Dir
  else is_file (fs_lookup fs (fs_resolve (file_dest out file))) = true.

(** [file'] does not write the file of [file]: it is a directory marker,
    or its file is at another location (both locations grounded, so that
    different keys are different locations). *)
Definition writes_elsewhere (out : jsstring) (file file' : zip_file) : Prop :=
  endsWith_slash (filename file') = true
  \/ (fs_resolve (file_dest out file') <> fs_resolve (file_dest out file)
      /\ grounded out (fs_resolve (file_dest out file'))
      /\ grounded out (fs_resolve (file_dest out file))).

(** Two stored entries; the local header of the second is damaged. *)
Definition two_files_zip : buffer :=
  build_zip [stored_entry "a.txt" (buf_of_ascii "A");
             stored_entry "b.txt" (buf_of_ascii "B")] [].

Definition damaged_zip : buffer := <[36%nat := x00]> two_files_zip.

Definition two_files_first : zip_file :=
  {| filename := js_of_ascii "a.txt"; method := 0; compSize := 1;
     unCompSize := 1; flags := 0; localHeaderOffset := 0 |}.

Definition two_files_second : zip_file :=
  {| filename := js_of_ascii "b.txt"; method := 0; compSize := 1;
     unCompSize := 1; flags := 0; localHeaderOffset := 36 |}.

(** The same name twice, with different data. *)
Definition twice_zip : buffer :=
  build_zip [stored_entry "a.txt" (buf_of_ascii "first");
             stored_entry "a.txt" (buf_of_ascii "second")] [].

Definition twice_first : zip_file :=
  {| filename := js_of_ascii "a.txt"; method := 0; compSize := 5;
     unCompSize := 5; flags := 0; localHeaderOffset := 0 |}.

Definition twice_second : zip_file :=
  {| filename := js_of_ascii "a.txt"; method := 0; compSize := 6;
     unCompSize := 6; flags := 0; localHeaderOffset := 40 |}.

(** A stored entry without data. *)
Definition empty_file_zip : buffer :=
  build_zip [stored_entry "empty.txt" []] [].

Definition empty_file : zip_file :=
  {| filename := js_of_ascii "empty.txt"; method := 0; compSize := 0;
     unCompSize := 0; flags := 0; localHeaderOffset := 0 |}.

(** A file system with a file and a directory of its own. *)
Definition busy_fs : fs_state :=
  <[fs_resolve (js_of_ascii "notes.txt") := File (buf_of_ascii "mine")]>
    (<[fs_resolve (js_of_ascii "ext/assets") := Dir]>
       (<[fs_resolve (js_of_ascii "ext") := Dir]> ∅)).

(** Every location of [t] holds what it holds in [s] or what it holds in
    [fin]. *)
Definition between (s fin t : fs_state) : Prop :=
  forall k : fs_key, t !! k = s !! k \/ t !! k = fin !! k.

(** Equality of outcomes is decidable, so an outcome can be compared with
    an expected one by evaluation. *)
#[global] Instance byte_eq_dec : EqDecision byte := Byte.byte_eq_dec.

#[global] Instance fs_errno_eq_dec : EqDecision fs_errno.
Proof. solve_decision. Defined.

#[global] Instance fs_node_eq_dec : EqDecision fs_node.
Proof.
  unfold EqDecision, Decision. decide equality.
  apply (list_eq_dec (A := byte)).
Defined.

#[global] Instance error_eq_dec : EqDecision error.
Proof.
  unfold EqDecision, Decision. decide equality;
    first [apply Z.eq_dec | apply (list_eq_dec (A := Z)) | decide equality].
Defined.

#[global] Instance result_eq_dec {A : Type} `{EqDecision A} :
  EqDecision (result A).
Proof. solve_decision. Defined.

#[global] Instance zip_file_eq_dec : EqDecision zip_file.
Proof.
  unfold EqDecision, Decision. decide equality;
    first [apply Z.eq_dec | apply (list_eq_dec (A := Z))].
Defined.

(* ===================================================================== *)
(** * The download (lines 69-114) *)
(* ===================================================================== *)

(** What becomes of one [https.get]: an [error] event on the request, or a
    response with its status code, its [Location] header where it has one,
    and the chunks of its body up to [end].  Exchanges that break after
    their headers are left out. *)
Inductive exchange :=
  | RequestError (message : jsstring)
  | Response (statusCode : Z) (location : option jsstring)
      (dataChunks : list buffer).

(** What the promise of [fetchUrl] is rejected with: the errors of lines
    77 and 102, and the error of the request (line 112). *)
Inductive fetch_error :=
  | TooManyRedirects
  | StatusFailure (statusCode : Z)
  | RequestFailure (message : jsstring).

Inductive promise :=
  | Resolved (body : buffer)
  | Rejected (e : fetch_error).

(** Lines 85-89: the status codes that are followed. *)
Definition followed (statusCode : Z) : bool :=
  (statusCode =? 301) || (statusCode =? 302) || (statusCode =? 303)
  || (statusCode =? 307) || (statusCode =? 308).

(** Line 90: a header counts when it is present and not the empty string. *)
Definition truthy (location : option jsstring) : bool :=
  match location with
  | Some (_ :: _) => true
  | _ => false
  end.

Section Network.

(** The exchange that the request for a URL turns out to be, when it is
    made at a given redirect count. *)
Variable https_get : Z -> jsstring -> exchange.

(** [url.resolve]. *)
Variable url_resolve : jsstring -> jsstring -> jsstring.

(** The URLs requested, in order, and how the promise settles.  [budget]
    counts the calls left before line 76 rejects: it is
    [maxRedirects + 1 - redirectCount]. *)
Fixpoint fetch_from (budget : nat) (targetUrl : jsstring) (redirectCount : Z)
  : list jsstring * promise :=
  match budget with
  | O => ([], Rejected TooManyRedirects)
  | S budget' =>
      match https_get redirectCount targetUrl with
      | RequestError message => ([targetUrl], Rejected (RequestFailure message))
      | Response statusCode location dataChunks =>
          if followed statusCode && truthy location then
            let newUrl := url_resolve targetUrl (default [] location) in
            let next := fetch_from budget' newUrl (redirectCount + 1) in
            (targetUrl :: next.1, next.2)
          else if negb (statusCode =? 200) then
            ([targetUrl], Rejected (StatusFailure statusCode))
          else
            ([targetUrl], Resolved (concat dataChunks))
      end
  end.

(** Lines 69-114.  [options] is handed on to every request as it came and
    is left out; the two counts are integers. *)
Definition fetchUrl (targetUrl : jsstring) (redirectCount maxRedirects : Z)
  : list jsstring * promise :=
  fetch_from (Z.to_nat (maxRedirects + 1 - redirectCount)) targetUrl
    redirectCount.

(** Where a followed redirect leads, for an exchange that is one. *)
Definition redirect_target (redirectCount : Z) (targetUrl : jsstring)
  : option jsstring :=
  match https_get redirectCount targetUrl with
  | Response statusCode location _ =>
      if followed statusCode && truthy location
      then Some (url_resolve targetUrl (default [] location))
      else None
  | RequestError _ => None
  end.

(** The URL reached from [targetUrl] after [n] followed redirects in a
    row, the first at [redirectCount]. *)
Fixpoint hops (n : nat) (targetUrl : jsstring) (redirectCount : Z)
  : option jsstring :=
  match n with
  | O => Some targetUrl
  | S n' =>
      match redirect_target redirectCount targetUrl with
      | Some newUrl => hops n' newUrl (redirectCount + 1)
      | None => None
      end
  end.

(* ===================================================================== *)
(** * The command (lines 21-64) *)
(* ===================================================================== *)

Variable inflateRawSync : buffer -> option buffer.

(** What the outer [catch] of [main] can receive: the rejection of
    [fetchUrl], or what [fs.writeFileSync] throws. *)
Inductive caught :=
  | FromFetch (e : fetch_error)
  | FromSave (e : error).

(** The lines written to the console, one constructor for each call. *)
Inductive console_line :=
  | Usage
  | ProvideValidId
  | Requesting (downloadUrl : jsstring)
  | GotCrxData (length : Z)
  | SavedDebugCrx
  | ExtractionComplete (extensionId : jsstring)
  | ExtractionFailed (e : error)
  | FailedToDownload (e : caught).

(** What a run of the command leaves behind. *)
Record run := {
  console : list console_line;
  exitCode : Z;
  disk : fs_state;
  requests : list jsstring
}.

(** [s.length]: the number of UTF-16 code units. *)
Definition js_length (s : jsstring) : Z :=
  fold_right (fun c n => (if 0x10000 <=? c then 2 else 1) + n) 0 s.

(** Lines 31-37. *)
Definition downloadUrl (extensionId : jsstring) : jsstring :=
  js_of_ascii "https://clients2.google.com/service/update2/crx"
  ++ js_of_ascii "?response=redirect"
  ++ js_of_ascii "&prod=chrome"
  ++ js_of_ascii "&prodversion=9999"
  ++ js_of_ascii "&acceptformat=crx2,crx3"
  ++ js_of_ascii "&x=id%3D" ++ extensionId ++ js_of_ascii "%26uc".

Definition debug_crx : jsstring := js_of_ascii "debug.crx".

(** Lines 22-26. *)
Definition usage_exit (fs : fs_state) : run :=
  {| console := [Usage; ProvideValidId]; exitCode := 1; disk := fs;
     requests := [] |}.

(** Lines 21-64, for the third argument of the command line where there is
    one. *)
Definition main (argv2 : option jsstring) (fs : fs_state) : run :=
  match argv2 with
  | None => usage_exit fs
  | Some extensionId =>
      if bool_decide (extensionId = []) || negb (js_length extensionId =? 32)
      then usage_exit fs
      else
        let fetched := fetchUrl (downloadUrl extensionId) 0 10 in
        let started := [Requesting (downloadUrl extensionId)] in
        match fetched.2 with
        | Rejected e =>
            {| console := started ++ [FailedToDownload (FromFetch e)];
               exitCode := 1; disk := fs; requests := fetched.1 |}
        | Resolved crxBuffer =>
            let got := started ++ [GotCrxData (blen crxBuffer)] in
            match writeFileSync fs debug_crx crxBuffer with
            | Err e =>
                {| console := got ++ [FailedToDownload (FromSave e)];
                   exitCode := 1; disk := fs; requests := fetched.1 |}
            | Ok fs1 =>
                match extractCrxToFolder inflateRawSync crxBuffer
                        extensionId fs1 with
                | (fs2, Ok _) =>
                    {| console := got ++ [SavedDebugCrx;
                                          ExtractionComplete extensionId];
                       exitCode := 0; disk := fs2; requests := fetched.1 |}
                | (fs2, Err e) =>
                    {| console := got ++ [SavedDebugCrx; ExtractionFailed e];
                       exitCode := 0; disk := fs2; requests := fetched.1 |}
                end
            end
        end
  end.

End Network.

(** A server that redirects the first request to a blob, which it then
    serves in two chunks. *)
Definition redirecting_server (crx : buffer) (redirectCount : Z)
    (targetUrl : jsstring) : exchange :=
  if redirectCount =? 0 then
    Response 302 (Some (js_of_ascii "https://example.org/blob")) []
  else
    Response 200 None [take 7 crx; drop 7 crx].

(** A server that redirects every request to the URL requested. *)
Definition looping_server (redirectCount : Z) (targetUrl : jsstring)
  : exchange :=
  Response 301 (Some targetUrl) [].

(** A server that answers a redirect status without saying where to. *)
Definition lost_server (redirectCount : Z) (targetUrl : jsstring)
  : exchange :=
  Response 302 None [].

(** A resolution that takes the reference as it comes, as [url.resolve]
    does for an absolute one. *)
Definition resolve_absolute (from to : jsstring) : jsstring := to.

Definition sample_id : jsstring :=
  js_of_ascii "abcdefghijklmnopabcdefghijklmnop".
(** A closed decidable statement is settled by evaluating its decision. *)
Ltac by_evaluation := apply (bool_decide_unpack _); vm_compute; exact I.

(** A run is shown to succeed by evaluating its result. *)
Ltac run_succeeds :=
  match goal with
  | |- ?run = (_, Ok tt) =>
      let H := fresh in
      assert (run.2 = Ok tt) as H by (vm_compute; reflexivity);
      destruct run; cbn [fst snd] in *; rewrite H; reflexivity
  end.

(* ===================================================================== *)
(** * Octets, little-endian values and reads *)
(* ===================================================================== *)

Lemma byte_val_range (b : byte) : 0 <= byte_val b < 256.
Proof.
  unfold byte_val. pose proof (Byte.to_N_bounded b). lia.
Qed.

Lemma byte_val_of_Z (z : Z) : byte_val (byte_of_Z z) = z mod 256.
Proof.
  unfold byte_val, byte_of_Z.
  pose proof (Z.mod_pos_bound z 256 ltac:(lia)) as Hm.
  destruct (Byte.of_N (Z.to_N (z mod 256))) as [b|] eqn:E.
  - apply Byte.to_of_N in E. rewrite E. lia.
  - apply Byte.of_N_None_iff in E. lia.
Qed.

Lemma blen_nonneg (buf : buffer) : 0 <= blen buf.
Proof. unfold blen. lia. Qed.

Lemma blen_app (a b : buffer) : blen (a ++ b) = blen a + blen b.
Proof. unfold blen. rewrite length_app. lia. Qed.

Lemma blen_cons (x : byte) (a : buffer) : blen (x :: a) = 1 + blen a.
Proof. unfold blen. simpl length. lia. Qed.

Lemma blen_nil : blen [] = 0.
Proof. reflexivity. Qed.

Lemma length_le_bytes (n : nat) (z : Z) : length (le_bytes n z) = n.
Proof. revert z. induction n as [|n IH]; intros z; simpl; [|rewrite IH]; done. Qed.

Lemma blen_le16 (z : Z) : blen (le16 z) = 2.
Proof. reflexivity. Qed.

Lemma blen_le32 (z : Z) : blen (le32 z) = 4.
Proof. reflexivity. Qed.

Lemma le_value_range (bs : buffer) : 0 <= le_value bs < 256 ^ blen bs.
Proof.
  induction bs as [|b bs IH].
  - rewrite blen_nil, Z.pow_0_r. simpl. lia.
  - simpl le_value. rewrite blen_cons.
    pose proof (byte_val_range b). pose proof (blen_nonneg bs).
    rewrite Z.pow_add_r by lia. lia.
Qed.

Lemma le_value_le_bytes (n : nat) (z : Z) :
  le_value (le_bytes n z) = z mod 256 ^ Z.of_nat n.
Proof.
  revert z. induction n as [|n IH]; intros z.
  - simpl. rewrite Z.mod_1_r. done.
  - cbn [le_bytes le_value]. rewrite byte_val_of_Z, IH.
    rewrite Nat2Z.inj_succ, Z.pow_succ_r by lia.
    rewrite Z.rem_mul_r by lia. done.
Qed.

Lemma le_value_le16 (z : Z) : 0 <= z < 65536 -> le_value (le16 z) = z.
Proof.
  intros H. unfold le16. rewrite le_value_le_bytes.
  change (256 ^ Z.of_nat 2) with 65536. apply Z.mod_small. done.
Qed.

Lemma le_value_le32 (z : Z) : 0 <= z < 4294967296 -> le_value (le32 z) = z.
Proof.
  intros H. unfold le32. rewrite le_value_le_bytes.
  change (256 ^ Z.of_nat 4) with 4294967296. apply Z.mod_small. done.
Qed.

(** Reading at a cursor: when the buffer from [ptr] on starts with
    [field], the slice of that length is [field] and the cursor moves to
    what follows. *)
Lemma slice_at_cursor (buf field rest : buffer) (ptr n : Z) :
  0 <= ptr -> 0 < n ->
  drop (Z.to_nat ptr) buf = field ++ rest -> blen field = n ->
  in_bounds buf ptr n = true
  /\ slice buf ptr (ptr + n) = field
  /\ drop (Z.to_nat (ptr + n)) buf = rest.
Proof.
  intros Hptr Hn Hdrop Hlen.
  assert (Hl : (length (drop (Z.to_nat ptr) buf) = length field + length rest)%nat)
    by (rewrite Hdrop; apply length_app).
  rewrite length_drop in Hl. unfold blen in *.
  split; [|split].
  - unfold in_bounds, blen. apply andb_true_iff. split; lia.
  - unfold slice. rewrite Hdrop.
    replace (Z.to_nat (ptr + n - ptr)) with (length field) by lia.
    apply take_app_length.
  - replace (Z.to_nat (ptr + n)) with (Z.to_nat ptr + length field)%nat by lia.
    rewrite <- drop_drop, Hdrop. apply drop_app_length.
Qed.

Lemma readUInt16LE_at_cursor (buf field rest : buffer) (ptr : Z) :
  0 <= ptr -> drop (Z.to_nat ptr) buf = field ++ rest -> blen field = 2 ->
  readUInt16LE buf ptr = Ok (le_value field)
  /\ drop (Z.to_nat (ptr + 2)) buf = rest.
Proof.
  intros Hptr Hdrop Hlen.
  destruct (slice_at_cursor buf field rest ptr 2) as (Hb & Hs & Hd);
    [lia | lia | done | done |].
  unfold readUInt16LE. rewrite Hb, Hs. done.
Qed.

Lemma readUInt32LE_at_cursor (buf field rest : buffer) (ptr : Z) :
  0 <= ptr -> drop (Z.to_nat ptr) buf = field ++ rest -> blen field = 4 ->
  readUInt32LE buf ptr = Ok (le_value field)
  /\ drop (Z.to_nat (ptr + 4)) buf = rest.
Proof.
  intros Hptr Hdrop Hlen.
  destruct (slice_at_cursor buf field rest ptr 4) as (Hb & Hs & Hd);
    [lia | lia | done | done |].
  unfold readUInt32LE. rewrite Hb, Hs. done.
Qed.

Lemma readUInt32LE_Ok_inv (buf : buffer) (offset v : Z) :
  readUInt32LE buf offset = Ok v ->
  0 <= offset /\ offset + 4 <= blen buf /\ 0 <= v < 4294967296.
Proof.
  unfold readUInt32LE, in_bounds. intros H.
  destruct (0 <=? offset) eqn:E1; [|discriminate].
  destruct (offset + 4 <=? blen buf) eqn:E2; [|discriminate].
  simpl in H. injection H as <-.
  split; [lia|]. split; [lia|].
  pose proof (le_value_range (slice buf offset (offset + 4))) as Hr.
  assert (blen (slice buf offset (offset + 4)) = 4) as Hl.
  { unfold slice, blen in *. rewrite length_take, length_drop. lia. }
  rewrite Hl in Hr. change (256 ^ 4) with 4294967296 in Hr. done.
Qed.

Lemma readUInt32LE_in_range (buf : buffer) (offset : Z) :
  0 <= offset -> offset + 4 <= blen buf ->
  exists v, readUInt32LE buf offset = Ok v.
Proof.
  intros H1 H2. unfold readUInt32LE, in_bounds.
  replace (0 <=? offset) with true by lia.
  replace (offset + 4 <=? blen buf) with true by lia.
  simpl. eauto.
Qed.

Lemma readUInt32LE_out_of_range (buf : buffer) (offset : Z) :
  blen buf < offset + 4 -> readUInt32LE buf offset = Err (RangeError offset).
Proof.
  intros H. unfold readUInt32LE, in_bounds.
  replace (offset + 4 <=? blen buf) with false by lia.
  rewrite andb_false_r. done.
Qed.

Lemma readUInt16LE_out_of_range (buf : buffer) (offset : Z) :
  blen buf < offset + 2 -> readUInt16LE buf offset = Err (RangeError offset).
Proof.
  intros H. unfold readUInt16LE, in_bounds.
  replace (offset + 2 <=? blen buf) with false by lia.
  rewrite andb_false_r. done.
Qed.

Lemma readUInt16LE_in_range (buf : buffer) (offset : Z) :
  0 <= offset -> offset + 2 <= blen buf ->
  exists v, readUInt16LE buf offset = Ok v.
Proof.
  intros H1 H2. unfold readUInt16LE, in_bounds.
  replace (0 <=? offset) with true by lia.
  replace (offset + 2 <=? blen buf) with true by lia.
  simpl. eauto.
Qed.

Lemma jsstring_eqb_true (a b : jsstring) : jsstring_eqb a b = true <-> a = b.
Proof. unfold jsstring_eqb. apply bool_decide_eq_true. Qed.

(* ===================================================================== *)
(** * The magic test, octet by octet *)
(* ===================================================================== *)

Lemma byte_val_inj (a b : byte) : byte_val a = byte_val b -> a = b.
Proof.
  unfold byte_val. intros H. apply N2Z.inj in H.
  pose proof (Byte.of_to_N a) as Ha. pose proof (Byte.of_to_N b) as Hb.
  congruence.
Qed.

Lemma map_byte_val_inj (l l' : buffer) :
  map byte_val l = map byte_val l' -> l = l'.
Proof.
  revert l'. induction l as [|a l IH]; intros [|b l'] H; try done.
  injection H as Hab Hl. f_equal; [by apply byte_val_inj | by apply IH].
Qed.

Lemma lor_shiftl_6 (cp x : Z) :
  0 <= cp -> Z.lor (Z.shiftl cp 6) (Z.land x 63) = cp * 64 + Z.land x 63.
Proof.
  intros Hcp. rewrite <- Z.add_nocarry_lor.
  - rewrite Z.shiftl_mul_pow2 by lia. done.
  - apply Z.bits_inj'. intros n Hn.
    rewrite !Z.land_spec, Z.bits_0.
    destruct (Z_lt_le_dec n 6) as [Hlow|Hhigh].
    + rewrite Z.shiftl_spec_low by lia. done.
    + change 63 with (Z.ones 6). rewrite Z.ones_spec_high by lia.
      by rewrite !andb_false_r.
Qed.

Lemma land_63_range (x : Z) : 0 <= Z.land x 63 < 64.
Proof.
  change 63 with (Z.ones 6). rewrite Z.land_ones by lia.
  apply Z.mod_pos_bound. lia.
Qed.

Lemma land_63_continuation (b : byte) :
  0x80 <= byte_val b <= 0xBF -> Z.land (byte_val b) 63 = byte_val b - 0x80.
Proof. destruct b; vm_compute; intros [H1 H2]; try reflexivity; by destruct H1 || by destruct H2. Qed.

Lemma utf8_classify_multi (b : byte) (cp : Z) (n : nat) (lo hi : Z) :
  utf8_classify (byte_val b) = LeadMulti cp n lo hi ->
  utf8_state_high (cp, n, lo, hi).
Proof.
  destruct b; vm_compute; intros [=]; subst;
    repeat split; try discriminate; (by left) || (by right) || idtac.
Qed.

Lemma utf8_classify_ascii (b : byte) (c : Z) :
  utf8_classify (byte_val b) = LeadAscii c -> c = byte_val b /\ c < 128.
Proof.
  unfold utf8_classify. destruct (byte_val b <=? 0x7F) eqn:E.
  - intros [= <-]. split; [done | lia].
  - repeat case_match; discriminate.
Qed.

(** Inside a multi-octet sequence, the next character that comes out is
    not an ASCII one. *)
Lemma utf8_decode_from_high (bs : buffer) (st : Z * nat * Z * Z) :
  utf8_state_high st ->
  exists c out, utf8_decode_from (Some st) bs = c :: out /\ 128 <= c.
Proof.
  revert st. induction bs as [|b bs IH]; intros [[[cp needed] lo] hi] Hst.
  - exists replacement_char, []. split; [done|]. unfold replacement_char. lia.
  - cbn [utf8_decode_from].
    destruct ((lo <=? byte_val b) && (byte_val b <=? hi)) eqn:Ein.
    + destruct Hst as (Hcp & Hlo & Hhi & Hneed).
      apply andb_true_iff in Ein. destruct Ein as [E1 E2].
      rewrite lor_shiftl_6 by done.
      rewrite land_63_continuation by lia.
      destruct needed as [|[|[|[|needed]]]].
      * eexists _, _. split; [done|]. lia.
      * eexists _, _. split; [done|]. lia.
      * apply IH. cbn. lia.
      * apply IH. cbn. lia.
      * apply IH. cbn. lia.
    + eexists _, _. split; [done|]. unfold replacement_char. lia.
Qed.

(** A buffer that decodes to ASCII characters only is made of those
    characters. *)
Lemma utf8_decode_ascii (bs : buffer) :
  Forall (fun c => c < 128) (utf8_decode bs) ->
  utf8_decode bs = map byte_val bs.
Proof.
  unfold utf8_decode. induction bs as [|b bs IH]; intros Hall; [done|].
  cbn [utf8_decode_from map] in *.
  destruct (utf8_classify (byte_val b)) as [c | cp n lo hi |] eqn:Ec.
  - apply utf8_classify_ascii in Ec. destruct Ec as [-> _].
    apply Forall_cons in Hall. destruct Hall as [_ Hall].
    f_equal. by apply IH.
  - exfalso. apply utf8_classify_multi in Ec.
    destruct (utf8_decode_from_high bs _ Ec) as (c & out & Hdec & Hc).
    rewrite Hdec in Hall. apply Forall_cons in Hall. lia.
  - exfalso. apply Forall_cons in Hall. unfold replacement_char in Hall. lia.
Qed.

(** The test of line 124 passes exactly on the buffers that start with the
    four octets of [Cr24]. *)
Lemma valid_magic_iff (crxBuffer : buffer) :
  valid_magic crxBuffer <-> take 4 crxBuffer = buf_of_ascii "Cr24".
Proof.
  unfold valid_magic, toString_utf8, slice.
  change (Z.to_nat (4 - 0)) with 4%nat. change (Z.to_nat 0) with 0%nat.
  rewrite drop_0. split.
  - intros H. apply map_byte_val_inj.
    rewrite <- utf8_decode_ascii; [by rewrite H|].
    rewrite H. repeat constructor.
  - intros ->. reflexivity.
Qed.

(* ===================================================================== *)
(** * The container header *)
(* ===================================================================== *)


Lemma stripCrxHeader_valid_magic (crxBuffer : buffer) :
  valid_magic crxBuffer ->
  stripCrxHeader crxBuffer =
    let* start := zipStartOffset crxBuffer in
    if start >=? blen crxBuffer then Err MalformedHeader
    else Ok (slice_from crxBuffer start).
Proof.
  intros H. unfold stripCrxHeader.
  apply jsstring_eqb_true in H. rewrite H. done.
Qed.

(** A buffer that does not start with [Cr24] is turned away. *)
Lemma extractCrxToFolder_invalid_magic (inflate : buffer -> option buffer)
    (crxBuffer : buffer) (outFolder : jsstring) (fs : fs_state) :
  take 4 crxBuffer <> buf_of_ascii "Cr24" ->
  extractCrxToFolder inflate crxBuffer outFolder fs = (fs, Err InvalidMagic).
Proof.
  intros Hne. unfold extractCrxToFolder, stripCrxHeader.
  destruct (jsstring_eqb _ _) eqn:E; [|done].
  apply jsstring_eqb_true in E. by apply valid_magic_iff in E.
Qed.

(** C2. With valid magic: version 2 with key length [P] and signature
    length [S] gives the ZIP start [16 + P + S]; version 3 or 4 with header
    size [H] gives [12 + H]; any other version makes the extraction fail
    with [UnsupportedVersion] carrying the version read. *)
Theorem zip_start_by_version (crxBuffer : buffer) (version : Z) :
  valid_magic crxBuffer ->
  readUInt32LE crxBuffer 4 = Ok version ->
  (version = 2 -> forall P S,
     readUInt32LE crxBuffer 8 = Ok P -> readUInt32LE crxBuffer 12 = Ok S ->
     zipStartOffset crxBuffer = Ok (16 + P + S))
  /\ (version = 3 \/ version = 4 -> forall H,
     readUInt32LE crxBuffer 8 = Ok H ->
     zipStartOffset crxBuffer = Ok (12 + H))
  /\ (version <> 2 -> version <> 3 -> version <> 4 ->
     zipStartOffset crxBuffer = Err (UnsupportedVersion version)
     /\ stripCrxHeader crxBuffer = Err (UnsupportedVersion version)
     /\ forall inflate outFolder fs,
          extractCrxToFolder inflate crxBuffer outFolder fs
          = (fs, Err (UnsupportedVersion version))).
Proof.
  intros Hmagic Hver. unfold zipStartOffset. rewrite Hver. cbn [bind].
  split; [|split].
  - intros -> P S HP HS. rewrite HP, HS. done.
  - intros [-> | ->] H HH; rewrite HH; done.
  - intros H2 H3 H4.
    assert (Hz : zipStartOffset crxBuffer = Err (UnsupportedVersion version)).
    { unfold zipStartOffset. rewrite Hver. cbn [bind].
      replace (version =? 2) with false by lia.
      replace (version =? 3) with false by lia.
      replace (version =? 4) with false by lia. done. }
    assert (Hs : stripCrxHeader crxBuffer = Err (UnsupportedVersion version)).
    { rewrite stripCrxHeader_valid_magic by done. rewrite Hz. done. }
    unfold zipStartOffset in Hz. rewrite Hver in Hz. cbn [bind] in Hz.
    split; [done|]. split; [done|].
    intros inflate outFolder fs. unfold extractCrxToFolder. rewrite Hs. done.
Qed.

(** C8. With valid magic and a supported version: a ZIP start at or past
    the end of the buffer fails with [MalformedHeader]; a ZIP start inside
    the buffer yields the octets from it to the end of the buffer, on
    which the extraction then runs. *)
Theorem strip_header_by_offset (crxBuffer : buffer) (start : Z) :
  valid_magic crxBuffer ->
  zipStartOffset crxBuffer = Ok start ->
  (start >= blen crxBuffer ->
     stripCrxHeader crxBuffer = Err MalformedHeader
     /\ forall inflate outFolder fs,
          extractCrxToFolder inflate crxBuffer outFolder fs
          = (fs, Err MalformedHeader))
  /\ (start < blen crxBuffer ->
     stripCrxHeader crxBuffer = Ok (slice crxBuffer start (blen crxBuffer))
     /\ blen (slice crxBuffer start (blen crxBuffer)) = blen crxBuffer - start
     /\ (forall i : nat,
          slice crxBuffer start (blen crxBuffer) !! i
          = crxBuffer !! (Z.to_nat start + i)%nat)
     /\ forall inflate outFolder fs,
          extractCrxToFolder inflate crxBuffer outFolder fs
          = parseZipCentralDirectory inflate
              (slice crxBuffer start (blen crxBuffer)) outFolder fs).
Proof.
  intros Hmagic Hstart.
  pose proof (stripCrxHeader_valid_magic _ Hmagic) as Hs.
  rewrite Hstart in Hs. cbn [bind] in Hs.
  assert (Hpos : 0 <= start).
  { unfold zipStartOffset in Hstart.
    destruct (readUInt32LE crxBuffer 4) as [v|] eqn:Ev; [|discriminate].
    cbn [bind] in Hstart.
    destruct (v =? 2).
    - destruct (readUInt32LE crxBuffer 8) as [p|] eqn:Ep; [|discriminate].
      destruct (readUInt32LE crxBuffer 12) as [s|] eqn:Es; [|discriminate].
      apply readUInt32LE_Ok_inv in Ep, Es. cbn [bind] in Hstart.
      injection Hstart as <-. lia.
    - destruct ((v =? 3) || (v =? 4)); [|discriminate].
      destruct (readUInt32LE crxBuffer 8) as [h|] eqn:Eh; [|discriminate].
      apply readUInt32LE_Ok_inv in Eh. cbn [bind] in Hstart.
      injection Hstart as <-. lia. }
  split.
  - intros Hge. replace (start >=? blen crxBuffer) with true in Hs by lia.
    split; [done|]. intros. unfold extractCrxToFolder. rewrite Hs. done.
  - intros Hlt. replace (start >=? blen crxBuffer) with false in Hs by lia.
    assert (Heq : slice crxBuffer start (blen crxBuffer)
                  = slice_from crxBuffer start).
    { unfold slice, slice_from. apply take_ge.
      rewrite length_drop. unfold blen. lia. }
    rewrite Heq. split; [done|]. split; [|split].
    + unfold slice_from, blen. rewrite length_drop. unfold blen in Hlt. lia.
    + intros i. unfold slice_from. apply lookup_drop.
    + intros. unfold extractCrxToFolder. rewrite Hs. done.
Qed.

(* ===================================================================== *)
(** * Locating the directory record *)
(* ===================================================================== *)


Lemma find_eocd_loop_spec (buf : buffer) (n : nat) (i : Z) :
  0 <= i - Z.of_nat n + 1 -> i + 4 <= blen buf ->
  (exists p, i - Z.of_nat n < p <= i
             /\ find_eocd_loop buf n i = Ok p
             /\ eocd_at buf p
             /\ forall q, p < q <= i -> ~ eocd_at buf q)
  \/ (find_eocd_loop buf n i = Ok (-1)
      /\ forall q, i - Z.of_nat n < q <= i -> ~ eocd_at buf q).
Proof.
  revert i. induction n as [|n IH]; intros i Hlo Hhi.
  - right. split; [done|]. intros q Hq. lia.
  - cbn [find_eocd_loop].
    destruct (readUInt32LE_in_range buf i) as [w Hw]; [lia | lia |].
    rewrite Hw. cbn [bind].
    destruct (w =? eocdSig) eqn:Ew.
    + left. exists i. apply Z.eqb_eq in Ew. subst w.
      split; [lia|]. split; [done|]. split; [done|]. intros q Hq. lia.
    + apply Z.eqb_neq in Ew.
      assert (Hi : ~ eocd_at buf i).
      { unfold eocd_at. rewrite Hw. intros [=]. done. }
      destruct (IH (i - 1)) as [(p & Hp & Hf & Hat & Hlast) | (Hf & Hnone)];
        [lia | lia | |].
      * left. exists p. split; [lia|]. split; [done|]. split; [done|].
        intros q Hq. destruct (decide (q = i)) as [->|]; [done|].
        apply Hlast. lia.
      * right. split; [done|]. intros q Hq.
        destruct (decide (q = i)) as [->|]; [done|]. apply Hnone. lia.
Qed.

Lemma find_eocd_spec (buf : buffer) :
  (exists p, scan_bottom buf <= p <= scan_top buf
             /\ find_eocd buf = Ok p
             /\ eocd_at buf p
             /\ forall q, p < q <= scan_top buf -> ~ eocd_at buf q)
  \/ (find_eocd buf = Ok (-1)
      /\ forall q, scan_bottom buf <= q <= scan_top buf -> ~ eocd_at buf q).
Proof.
  unfold find_eocd, scan_bottom, scan_top.
  set (lo := Z.max 0 (blen buf - 65557)).
  set (n := Z.to_nat (blen buf - 4 - lo + 1)).
  destruct (Z_lt_le_dec (blen buf - 4) lo) as [Hempty | Hsome].
  - right. replace n with O by lia. split; [done|]. intros q Hq. lia.
  - destruct (find_eocd_loop_spec buf n (blen buf - 4))
      as [(p & Hp & Hf & Hat & Hlast) | (Hf & Hnone)]; [lia | lia | |].
    + left. exists p. split; [lia|]. done.
    + right. split; [done|]. intros q Hq. apply Hnone. lia.
Qed.

(** C3. The search reads the words at [length - 4], [length - 5], ... down
    to [max(0, length - 65557)] and stops at the first that equals the
    signature, so the occurrence nearest the end is selected; when no
    position of that window matches, extraction fails with
    [DirectoryNotFound]. *)
Theorem eocd_search_nearest_end (zipBuffer : buffer) :
  (exists p,
      Z.max 0 (blen zipBuffer - 65557) <= p <= blen zipBuffer - 4
      /\ readUInt32LE zipBuffer p = Ok eocdSig
      /\ (forall q, p < q <= blen zipBuffer - 4 ->
            readUInt32LE zipBuffer q <> Ok eocdSig)
      /\ find_eocd zipBuffer = Ok p)
  \/ ((forall q, Z.max 0 (blen zipBuffer - 65557) <= q <= blen zipBuffer - 4 ->
         readUInt32LE zipBuffer q <> Ok eocdSig)
      /\ find_eocd zipBuffer = Ok (-1)
      /\ parse_central_directory zipBuffer = Err DirectoryNotFound
      /\ forall inflate outFolder fs,
           parseZipCentralDirectory inflate zipBuffer outFolder fs
           = (fs, Err DirectoryNotFound)).
Proof.
  destruct (find_eocd_spec zipBuffer)
    as [(p & Hp & Hf & Hat & Hlast) | (Hf & Hnone)].
  - left. exists p. unfold scan_bottom, scan_top, eocd_at in *. done.
  - right. unfold scan_bottom, scan_top, eocd_at in *.
    assert (Hpc : parse_central_directory zipBuffer = Err DirectoryNotFound).
    { unfold parse_central_directory. rewrite Hf. done. }
    split; [done|]. split; [done|]. split; [done|].
    intros. unfold parseZipCentralDirectory. rewrite Hpc. done.
Qed.

(* ===================================================================== *)
(** * Where failures come from *)
(* ===================================================================== *)

Lemma bind_Err_inv {A B} (r : result A) (k : A -> result B) (e : error) :
  bind r k = Err e -> r = Err e \/ exists a, r = Ok a /\ k a = Err e.
Proof.
  destruct r as [a|e']; cbn; intros H.
  - right. by exists a.
  - left. injection H as ->. done.
Qed.

Lemma bind_Ok_inv {A B} (r : result A) (k : A -> result B) (b : B) :
  bind r k = Ok b -> exists a, r = Ok a /\ k a = Ok b.
Proof. destruct r as [a|e']; cbn; intros H; [by exists a | discriminate]. Qed.


Lemma readUInt16LE_Err (buf : buffer) (off : Z) (e : error) :
  readUInt16LE buf off = Err e -> is_RangeError e.
Proof.
  unfold readUInt16LE. destruct (in_bounds buf off 2); [discriminate|].
  intros [= <-]. by exists off.
Qed.

Lemma readUInt32LE_Err (buf : buffer) (off : Z) (e : error) :
  readUInt32LE buf off = Err e -> is_RangeError e.
Proof.
  unfold readUInt32LE. destruct (in_bounds buf off 4); [discriminate|].
  intros [= <-]. by exists off.
Qed.

(** Peels the reads off a failing sequence of [let*]. *)
Ltac peel_reads H :=
  repeat (apply bind_Err_inv in H;
          destruct H as [H | (? & _ & H)];
          [ first [ apply readUInt16LE_Err in H | apply readUInt32LE_Err in H ];
            eauto | ]).

Lemma parse_cd_record_Err (buf : buffer) (ptr : Z) (e : error) :
  parse_cd_record buf ptr = Err e ->
  is_RangeError e \/ e = DirectorySignatureMismatch ptr.
Proof.
  unfold parse_cd_record. intros H.
  apply bind_Err_inv in H. destruct H as [H | (sig & _ & H)].
  { left. eapply readUInt32LE_Err. done. }
  destruct (negb (sig =? cdSig)); [injection H as <-; by right|].
  left. peel_reads H. discriminate.
Qed.

Lemma parse_cd_records_Err (buf : buffer) (n : nat) (ptr : Z) (e : error) :
  parse_cd_records buf n ptr = Err e ->
  is_RangeError e \/ exists p, e = DirectorySignatureMismatch p.
Proof.
  revert ptr. induction n as [|n IH]; intros ptr H; [discriminate|].
  cbn [parse_cd_records] in H.
  apply bind_Err_inv in H. destruct H as [H | ([file ptr'] & _ & H)].
  { apply parse_cd_record_Err in H. destruct H; eauto. }
  apply bind_Err_inv in H. destruct H as [H | (files & _ & H)]; [|discriminate].
  eauto.
Qed.

Lemma local_data_start_Err (buf : buffer) (file : zip_file) (e : error) :
  local_data_start buf file = Err e ->
  is_RangeError e
  \/ e = LocalHeaderSignatureMismatch (localHeaderOffset file) (filename file).
Proof.
  unfold local_data_start. intros H.
  apply bind_Err_inv in H. destruct H as [H | (sig & _ & H)].
  { left. eapply readUInt32LE_Err. done. }
  destruct (negb (sig =? localSig)); [injection H as <-; by right|].
  left. peel_reads H. discriminate.
Qed.

Lemma mkdir_along_Err (fs fs' : fs_state) (steps : list (jsstring * fs_key))
    (e : error) :
  mkdir_along fs steps = (fs', Err e) -> exists code, e = FsError code.
Proof.
  revert fs. induction steps as [|[seg k] rest IH]; intros fs; cbn.
  - discriminate.
  - destruct (too_long seg); [intros [= _ <-]; eauto|].
    destruct (is_file (fs_lookup fs k)); [intros [= _ <-]; eauto|].
    apply IH.
Qed.

Lemma mkdir_recursive_Err (fs fs' : fs_state) (p : jsstring) (e : error) :
  mkdir_recursive fs p = (fs', Err e) -> exists code, e = FsError code.
Proof.
  unfold mkdir_recursive. destruct (path_refusal p); [intros [= _ <-]; eauto|].
  destruct (bool_decide (p = [])); [intros [= _ <-]; eauto|].
  apply mkdir_along_Err.
Qed.

(** [mkdirSync] and [mkdir_recursive] tell the same outcome. *)
Lemma mkdirSync_Ok_run (fs fs' : fs_state) (p : jsstring) :
  mkdirSync fs p = Ok fs' <-> mkdir_recursive fs p = (fs', Ok tt).
Proof.
  unfold mkdirSync. destruct (mkdir_recursive fs p) as [fs1 [[]|e]]; split;
    intros [=]; by subst.
Qed.

Lemma mkdirSync_Err_run (fs : fs_state) (p : jsstring) (e : error) :
  mkdirSync fs p = Err e <->
  mkdir_recursive fs p = ((mkdir_recursive fs p).1, Err e).
Proof.
  unfold mkdirSync. destruct (mkdir_recursive fs p) as [fs1 [[]|e1]]; split;
    cbn; intros [=]; by subst.
Qed.

Lemma mkdirSync_Err (fs : fs_state) (p : jsstring) (e : error) :
  mkdirSync fs p = Err e -> exists code, e = FsError code.
Proof.
  intros H%mkdirSync_Err_run. by eapply mkdir_recursive_Err.
Qed.

Lemma writeFileSync_Err (fs : fs_state) (p : jsstring) (data : buffer)
    (e : error) :
  writeFileSync fs p data = Err e -> exists code, e = FsError code.
Proof.
  unfold writeFileSync. repeat case_match; intros [=]; subst; eauto.
Qed.


Lemma extract_file_Err (inflate : buffer -> option buffer) (buf : buffer) (out : jsstring)
    (file : zip_file) (fs fs' : fs_state) (e : error) :
  extract_file inflate buf out file fs = (fs', Err e) -> entry_failure e.
Proof.
  unfold extract_file, local_file_data, fs_step. intros H.
  repeat case_match; simplify_eq; try done;
    repeat match goal with
    | H : mkdir_recursive _ _ = (_, Err _) |- _ =>
        apply mkdir_recursive_Err in H; destruct H as [? ->]
    | H : writeFileSync _ _ _ = Err _ |- _ =>
        apply writeFileSync_Err in H; destruct H as [? ->]
    | H : bind _ _ = Err _ |- _ =>
        apply bind_Err_inv in H; destruct H as [H | (? & _ & H)];
        [apply local_data_start_Err in H; destruct H as [[? ->] | ->] |]
    end; try done.
Qed.

Lemma extract_files_Err (inflate : buffer -> option buffer) (buf : buffer) (out : jsstring)
    (files : list zip_file) (fs fs' : fs_state) (e : error) :
  extract_files inflate buf out files fs = (fs', Err e) -> entry_failure e.
Proof.
  revert fs. induction files as [|file files IH]; intros fs H; [discriminate|].
  cbn [extract_files] in H.
  destruct (extract_file inflate buf out file fs) as [fs1 [[]|e1]] eqn:E.
  - eauto.
  - injection H as <- <-. eapply extract_file_Err. done.
Qed.

(** The run and the loop body, with [mkdirSync] seen from its result. *)
Lemma parseZipCentralDirectory_unfold (inflate : buffer -> option buffer)
    (zipBuffer : buffer) (outFolder : jsstring) (fs : fs_state) :
  parseZipCentralDirectory inflate zipBuffer outFolder fs
  = match parse_central_directory zipBuffer with
    | Err e => (fs, Err e)
    | Ok files =>
        match mkdirSync fs outFolder with
        | Err e => ((mkdir_recursive fs outFolder).1, Err e)
        | Ok fs0 => extract_files inflate zipBuffer outFolder files fs0
        end
    end.
Proof.
  unfold parseZipCentralDirectory, mkdirSync.
  destruct (parse_central_directory zipBuffer); [|done].
  by destruct (mkdir_recursive fs outFolder) as [fs0 [[]|e]].
Qed.

Lemma extract_file_unfold (inflate : buffer -> option buffer)
    (zipBuffer : buffer) (outFolder : jsstring) (file : zip_file)
    (fs : fs_state) :
  extract_file inflate zipBuffer outFolder file fs
  = if endsWith_slash (filename file) then
      mkdir_recursive fs (path_join outFolder (filename file))
    else
      match local_file_data zipBuffer file with
      | Err e => (fs, Err e)
      | Ok fileData =>
          let outPath := path_join outFolder (filename file) in
          match mkdirSync fs (path_dirname outPath) with
          | Err e => ((mkdir_recursive fs (path_dirname outPath)).1, Err e)
          | Ok fs1 =>
              if method file =? 0 then
                fs_step fs1 (writeFileSync fs1 outPath fileData)
              else if method file =? 8 then
                match inflate fileData with
                | None => (fs1, Err DecompressionFailed)
                | Some unzipped =>
                    fs_step fs1 (writeFileSync fs1 outPath unzipped)
                end
              else
                (fs1, Err (UnsupportedCompressionMethod (method file)
                             (filename file)))
          end
      end.
Proof.
  unfold extract_file, mkdirSync.
  destruct (endsWith_slash (filename file)); [done|].
  destruct (local_file_data zipBuffer file); [|done]. cbv zeta.
  by destruct (mkdir_recursive fs _) as [fs1 [[]|e]].
Qed.

(* ===================================================================== *)
(** * The directory record *)
(* ===================================================================== *)

Lemma parse_central_directory_found (buf : buffer) (pos total size off : Z) :
  find_eocd buf = Ok pos -> 0 <= pos ->
  read_eocd buf pos = Ok (total, size, off) ->
  parse_central_directory buf =
    if off + size >? blen buf then Err DirectoryOutOfRange
    else parse_cd_records buf (Z.to_nat total) off.
Proof.
  intros Hf Hpos Hr. unfold parse_central_directory.
  rewrite Hf. cbn [bind]. replace (pos <? 0) with false by lia.
  rewrite Hr. done.
Qed.

(** C6. Once the directory record is read, extraction goes on to the
    entries exactly when [cdOffset + cdSize <= length]: a sum equal to the
    length passes, a sum one above it fails with [DirectoryOutOfRange], and
    no later step fails with that error. *)
Theorem directory_range_check (inflate : buffer -> option buffer)
    (zipBuffer : buffer) (outFolder : jsstring) (fs : fs_state)
    (eocdPos totalCD cdSize cdOffset : Z) :
  find_eocd zipBuffer = Ok eocdPos -> 0 <= eocdPos ->
  read_eocd zipBuffer eocdPos = Ok (totalCD, cdSize, cdOffset) ->
  (cdOffset + cdSize <= blen zipBuffer ->
     parse_central_directory zipBuffer
     = parse_cd_records zipBuffer (Z.to_nat totalCD) cdOffset)
  /\ (cdOffset + cdSize > blen zipBuffer ->
     parseZipCentralDirectory inflate zipBuffer outFolder fs
     = (fs, Err DirectoryOutOfRange))
  /\ ((parseZipCentralDirectory inflate zipBuffer outFolder fs).2
      = Err DirectoryOutOfRange
      <-> cdOffset + cdSize > blen zipBuffer).
Proof.
  intros Hf Hpos Hr.
  pose proof (parse_central_directory_found _ _ _ _ _ Hf Hpos Hr) as Hpc.
  assert (Hfail : cdOffset + cdSize > blen zipBuffer ->
            parseZipCentralDirectory inflate zipBuffer outFolder fs
            = (fs, Err DirectoryOutOfRange)).
  { intros Hgt. unfold parseZipCentralDirectory. rewrite Hpc.
    replace (cdOffset + cdSize >? blen zipBuffer) with true by lia. done. }
  split; [|split; [done|split]].
  - intros Hle. rewrite Hpc.
    replace (cdOffset + cdSize >? blen zipBuffer) with false by lia. done.
  - intros Hres.
    destruct (Z_le_gt_dec (cdOffset + cdSize) (blen zipBuffer)) as [Hle|]; [|done].
    exfalso. rewrite parseZipCentralDirectory_unfold, Hpc in Hres.
    replace (cdOffset + cdSize >? blen zipBuffer) with false in Hres by lia.
    destruct (parse_cd_records zipBuffer (Z.to_nat totalCD) cdOffset)
      as [files|e] eqn:Ecd.
    + destruct (mkdirSync fs outFolder) as [fs0|e] eqn:Emk.
      * destruct (extract_files inflate zipBuffer outFolder files fs0)
          as [fs' r] eqn:Eex.
        cbn in Hres. subst r. apply extract_files_Err in Eex. done.
      * cbn in Hres. injection Hres as ->.
        apply mkdirSync_Err in Emk. destruct Emk as [? [=]].
    + cbn in Hres. injection Hres as ->.
      apply parse_cd_records_Err in Ecd.
      destruct Ecd as [[? [=]] | [? [=]]].
  - intros Hgt. rewrite Hfail by done. done.
Qed.

(** C10. The position found by the search is used as it is: when fewer
    than 20 octets follow it, one of the three reads of the record falls
    off the end of the buffer and the extraction ends in [RangeError],
    which is none of the failures of the taxonomy. *)
Theorem eocd_near_end_range_error (inflate : buffer -> option buffer)
    (zipBuffer : buffer) (outFolder : jsstring) (fs : fs_state)
    (eocdPos : Z) :
  find_eocd zipBuffer = Ok eocdPos -> 0 <= eocdPos ->
  blen zipBuffer - 20 < eocdPos ->
  exists off,
    blen zipBuffer < off + 4
    /\ eocdPos + 10 <= off <= eocdPos + 16
    /\ parseZipCentralDirectory inflate zipBuffer outFolder fs
       = (fs, Err (RangeError off))
    /\ in_taxonomy (RangeError off) = false
    /\ RangeError off <> DirectoryNotFound.
Proof.
  intros Hf Hpos Hnear.
  assert (Hpc : exists off, blen zipBuffer < off + 4
                  /\ eocdPos + 10 <= off <= eocdPos + 16
                  /\ parse_central_directory zipBuffer = Err (RangeError off)).
  { unfold parse_central_directory. rewrite Hf. cbn [bind].
    replace (eocdPos <? 0) with false by lia. unfold read_eocd.
    destruct (Z_lt_le_dec (blen zipBuffer) (eocdPos + 12)) as [H1|H1].
    { exists (eocdPos + 10). rewrite readUInt16LE_out_of_range by lia.
      split; [lia|]. split; [lia|]. done. }
    destruct (readUInt16LE_in_range zipBuffer (eocdPos + 10)) as [t Ht];
      [lia | lia |].
    rewrite Ht. cbn [bind].
    destruct (Z_lt_le_dec (blen zipBuffer) (eocdPos + 16)) as [H2|H2].
    { exists (eocdPos + 12). rewrite readUInt32LE_out_of_range by lia.
      split; [lia|]. split; [lia|]. done. }
    destruct (readUInt32LE_in_range zipBuffer (eocdPos + 12)) as [s Hs];
      [lia | lia |].
    rewrite Hs. cbn [bind].
    exists (eocdPos + 16). rewrite readUInt32LE_out_of_range by lia.
    split; [lia|]. split; [lia|]. done. }
  destruct Hpc as (off & Hoff & Hwhere & Hpc). exists off.
  split; [done|]. split; [done|]. split; [|done].
  unfold parseZipCentralDirectory. rewrite Hpc. done.
Qed.
(* ===================================================================== *)
(** * The file system calls *)
(* ===================================================================== *)

Lemma insert_dirs_lookup (ks : list fs_key) (fs : fs_state) (k : fs_key) :
  insert_dirs ks fs !! k = if bool_decide (k ∈ ks) then Some Dir else fs !! k.
Proof.
  unfold insert_dirs. revert fs. induction ks as [|a ks IH]; intros fs.
  - cbn. rewrite bool_decide_eq_false_2; [done|]. apply not_elem_of_nil.
  - cbn [fold_left]. rewrite IH.
    destruct (decide (k ∈ ks)) as [Hin|Hin].
    + rewrite !bool_decide_eq_true_2; [done | by right | done].
    + rewrite (bool_decide_eq_false_2 (k ∈ ks)) by done.
      destruct (decide (k = a)) as [->|Hne].
      * rewrite lookup_insert_eq, bool_decide_eq_true_2; [done | by left].
      * rewrite lookup_insert_ne by done.
        rewrite bool_decide_eq_false_2; [done|].
        intros [?|?]%elem_of_cons; done.
Qed.

Lemma key_prefixes_self (k : fs_key) : k ∈ key_prefixes k.
Proof.
  unfold key_prefixes. apply list_elem_of_fmap.
  exists (length k.2). split.
  - rewrite firstn_all. by destruct k.
  - apply elem_of_seq. lia.
Qed.

Lemma path_normalize_nonempty (p : jsstring) : path_normalize p <> [].
Proof.
  unfold path_normalize. destruct p as [|c p]; [done|].
  destruct (join_slash _) as [|b body] eqn:E.
  - repeat case_match; done.
  - destruct (is_absolute (c :: p)); done.
Qed.

Lemma path_join_nonempty (a b : jsstring) : path_join a b <> [].
Proof.
  unfold path_join. destruct a, b; try apply path_normalize_nonempty. done.
Qed.

Lemma path_dirname_nonempty (p : jsstring) : path_dirname p <> [].
Proof.
  unfold path_dirname. destruct p as [|c p]; [done|].
  repeat case_match; done.
Qed.

Lemma fs_lookup_insert_ne (fs : fs_state) (k k' : fs_key) (v : fs_node) :
  k' <> k -> fs_lookup (<[k := v]> fs) k' = fs_lookup fs k'.
Proof.
  intros Hne. unfold fs_lookup. destruct (always_dir k'); [done|].
  by rewrite lookup_insert_ne.
Qed.

Lemma is_file_insert_Dir (fs : fs_state) (k k' : fs_key) :
  is_file (fs_lookup fs k') = false ->
  is_file (fs_lookup (<[k := Dir]> fs) k') = false.
Proof.
  destruct (decide (k' = k)) as [->|Hne].
  - intros _. unfold fs_lookup. destruct (always_dir k); [done|].
    by rewrite lookup_insert_eq.
  - by rewrite fs_lookup_insert_ne.
Qed.

Lemma is_file_insert_Dir_inv (fs : fs_state) (k k' : fs_key) :
  is_file (fs_lookup fs k) = false ->
  is_file (fs_lookup (<[k := Dir]> fs) k') = false ->
  is_file (fs_lookup fs k') = false.
Proof.
  intros Hk. destruct (decide (k' = k)) as [->|Hne]; [done|].
  by rewrite fs_lookup_insert_ne.
Qed.

Lemma insert_dirs_cons (k : fs_key) (ks : list fs_key) (fs : fs_state) :
  insert_dirs (k :: ks) fs = insert_dirs ks (<[k := Dir]> fs).
Proof. done. Qed.

(** ** The walk *)

Lemma walk_fst (absolute : bool) (res segs : list jsstring) :
  map fst (walk absolute res segs) = segs.
Proof.
  revert res. induction segs as [|seg segs IH]; intros res; cbn; [done|].
  by rewrite IH.
Qed.

Lemma walk_end (absolute : bool) (res segs : list jsstring) :
  (absolute, rev (fold_left (normalize_step (negb absolute)) segs res))
  ∈ (absolute, rev res) :: map snd (walk absolute res segs).
Proof.
  revert res. induction segs as [|seg segs IH]; intros res; cbn.
  - left.
  - right. apply IH.
Qed.

(** The walk along [p] ends at the location of [p]. *)
Lemma path_steps_self (p : jsstring) : fs_resolve p ∈ path_steps p.
Proof.
  unfold fs_resolve, path_steps, path_walk, normalize_segments. cbn [map snd].
  apply (walk_end (is_absolute p) [] (split_slash p)).
Qed.

Lemma accepted_refusal (p : jsstring) :
  accepted p = true -> path_refusal p = None.
Proof.
  unfold accepted, path_refusal.
  intros [[Hnul Hlen]%andb_true_iff _]%andb_true_iff.
  apply negb_true_iff in Hnul. rewrite Hnul.
  replace (PATH_MAX <=? byte_length p) with false by lia. done.
Qed.

Lemma accepted_names (p : jsstring) :
  accepted p = true -> existsb too_long (split_slash p) = false.
Proof.
  unfold accepted. intros [_ Hall]%andb_true_iff.
  destruct (existsb too_long (split_slash p)) eqn:E; [|done].
  apply existsb_exists in E. destruct E as (seg & Hin & Hlong).
  rewrite forallb_forall in Hall. specialize (Hall seg Hin).
  by rewrite Hlong in Hall.
Qed.

Lemma path_walk_names (p : jsstring) :
  existsb too_long (split_slash p) = false <->
  Forall (fun step => too_long step.1 = false) (path_walk p).
Proof.
  unfold path_walk. rewrite Forall_cons. cbn [fst].
  assert (too_long [] = false) as -> by done.
  rewrite <- (walk_fst (is_absolute p) [] (split_slash p)) at 1.
  rewrite <- Forall_fmap with (f := fst) (P := fun seg => too_long seg = false).
  split.
  - intros E. split; [done|]. rewrite Forall_forall. intros seg Hin.
    destruct (too_long seg) eqn:Hlong; [|done].
    assert (existsb too_long (map fst (walk (is_absolute p) [] (split_slash p)))
            = true) as E'; [|congruence].
    apply existsb_exists. exists seg. split; [|done]. by apply list_elem_of_In.
  - intros [_ Hall]. rewrite Forall_forall in Hall.
    destruct (existsb too_long _) eqn:E; [|done].
    apply existsb_exists in E. destruct E as (seg & Hin & Hlong).
    apply list_elem_of_In in Hin. by rewrite (Hall seg Hin) in Hlong.
Qed.

(** ** [mkdirSync] *)

(** What [mkdir_along] leaves, however it ends: the locations it went
    through before stopping are directories, none of them held a file, and
    the others are as they were. *)
Lemma mkdir_along_spec (fs fs' : fs_state)
    (steps : list (jsstring * fs_key)) (r : result unit) :
  mkdir_along fs steps = (fs', r) ->
  exists made : list fs_key,
    made `prefix_of` map snd steps
    /\ fs' = insert_dirs made fs
    /\ Forall (fun k => is_file (fs_lookup fs k) = false) made
    /\ (r = Ok tt ->
        made = map snd steps
        /\ Forall (fun step => too_long step.1 = false) steps).
Proof.
  revert fs. induction steps as [|[seg k] rest IH]; intros fs;
    cbn [mkdir_along].
  - intros [= <- <-]. exists []. by repeat split.
  - destruct (too_long seg) eqn:Hlong.
    { intros [= <- <-]. exists [].
      split; [apply prefix_nil|]. by repeat split. }
    destruct (is_file (fs_lookup fs k)) eqn:Hfile.
    { intros [= <- <-]. exists [].
      split; [apply prefix_nil|]. by repeat split. }
    intros H. apply IH in H. destruct H as (made & Hpre & -> & Hclear & Hok).
    exists (k :: made). split; [by apply prefix_cons|]. split; [done|]. split.
    + constructor; [done|]. eapply Forall_impl; [exact Hclear|].
      intros k' Hk'. by eapply is_file_insert_Dir_inv.
    + intros ->. destruct (Hok eq_refl) as [-> Hshort]. split; [done|].
      by constructor.
Qed.

Lemma mkdir_along_succeeds (fs : fs_state) (steps : list (jsstring * fs_key)) :
  Forall (fun step => too_long step.1 = false
                      /\ is_file (fs_lookup fs step.2) = false) steps ->
  mkdir_along fs steps = (insert_dirs (map snd steps) fs, Ok tt).
Proof.
  revert fs. induction steps as [|[seg k] rest IH]; intros fs H;
    cbn [mkdir_along map snd]; [done|].
  apply Forall_cons in H. destruct H as [[Hshort Hfree] H].
  cbn [fst snd] in Hshort, Hfree. rewrite Hshort, Hfree, insert_dirs_cons.
  apply IH. eapply Forall_impl; [exact H|].
  intros [seg' k'] [? ?]. split; [done|]. by apply is_file_insert_Dir.
Qed.

(** What a call leaves, however it ends. *)
Lemma mkdir_recursive_spec (fs fs' : fs_state) (p : jsstring)
    (r : result unit) :
  mkdir_recursive fs p = (fs', r) ->
  exists made : list fs_key,
    made `prefix_of` path_steps p
    /\ fs' = insert_dirs made fs
    /\ Forall (fun k => is_file (fs_lookup fs k) = false) made
    /\ (r = Ok tt ->
        made = path_steps p /\ p <> [] /\ accepted p = true).
Proof.
  unfold mkdir_recursive.
  destruct (path_refusal p) as [errno|] eqn:Hrefusal.
  { intros [= <- <-]. exists []. split; [apply prefix_nil|]. by repeat split. }
  case_bool_decide as Hp.
  { intros [= <- <-]. exists []. split; [apply prefix_nil|]. by repeat split. }
  intros H. apply mkdir_along_spec in H.
  destruct H as (made & Hpre & -> & Hclear & Hok).
  exists made. split; [done|]. split; [done|]. split; [done|].
  intros ->. destruct (Hok eq_refl) as [-> Hshort]. split; [done|].
  split; [done|]. apply path_walk_names in Hshort.
  unfold path_refusal in Hrefusal. unfold accepted.
  destruct (has_nul p); [done|].
  destruct (PATH_MAX <=? byte_length p) eqn:Hlen; [done|].
  replace (byte_length p <? PATH_MAX) with true by lia. cbn.
  apply forallb_forall. intros seg Hin.
  destruct (too_long seg) eqn:Hlong; [|done].
  assert (existsb too_long (split_slash p) = true) as E; [|congruence].
  apply existsb_exists. by exists seg.
Qed.

Lemma mkdirSync_Ok_inv (fs fs' : fs_state) (p : jsstring) :
  mkdirSync fs p = Ok fs' ->
  fs' = insert_dirs (path_steps p) fs /\ way_clear fs p.
Proof.
  intros H%mkdirSync_Ok_run. apply mkdir_recursive_spec in H.
  destruct H as (made & _ & -> & Hclear & Hok).
  destruct (Hok eq_refl) as (-> & _ & _). done.
Qed.

Lemma mkdirSync_Ok_nonempty (fs fs' : fs_state) (p : jsstring) :
  mkdirSync fs p = Ok fs' -> p <> [].
Proof.
  intros H%mkdirSync_Ok_run. apply mkdir_recursive_spec in H.
  destruct H as (made & _ & _ & _ & Hok). by destruct (Hok eq_refl) as (_ & ? & _).
Qed.

Lemma mkdirSync_Ok_accepted (fs fs' : fs_state) (p : jsstring) :
  mkdirSync fs p = Ok fs' -> accepted p = true.
Proof.
  intros H%mkdirSync_Ok_run. apply mkdir_recursive_spec in H.
  destruct H as (made & _ & _ & _ & Hok). by destruct (Hok eq_refl) as (_ & _ & ?).
Qed.

(** A successful [mkdirSync] makes every location on the way a directory
    and leaves the others as they were. *)
Lemma mkdirSync_Ok (fs fs' : fs_state) (p : jsstring) :
  mkdirSync fs p = Ok fs' ->
  forall k, fs_lookup fs' k =
            if bool_decide (k ∈ path_steps p) then Some Dir
            else fs_lookup fs k.
Proof.
  intros H k. destruct (mkdirSync_Ok_inv _ _ _ H) as [-> _].
  unfold fs_lookup. rewrite insert_dirs_lookup.
  destruct (always_dir k); case_bool_decide; done.
Qed.

(** [mkdirSync] succeeds when the system takes the path and no location
    on the way is a file. *)
Lemma mkdirSync_succeeds (fs : fs_state) (p : jsstring) :
  p <> [] -> accepted p = true ->
  (forall k, k ∈ path_steps p -> is_file (fs_lookup fs k) = false) ->
  exists fs', mkdirSync fs p = Ok fs'.
Proof.
  intros Hp Hacc Hfree. exists (insert_dirs (path_steps p) fs).
  apply mkdirSync_Ok_run. unfold mkdir_recursive.
  rewrite (accepted_refusal _ Hacc), bool_decide_eq_false_2 by done.
  apply mkdir_along_succeeds.
  pose proof (proj1 (path_walk_names p) (accepted_names _ Hacc)) as Hshort.
  rewrite Forall_forall in Hshort. rewrite Forall_forall.
  intros [seg k] Hin. split; [by apply (Hshort (seg, k))|].
  apply Hfree. unfold path_steps. apply list_elem_of_fmap. by exists (seg, k).
Qed.

(** [mkdirSync] writes no file. *)
Lemma mkdirSync_files (fs fs' : fs_state) (p : jsstring) (k : fs_key)
    (data : buffer) :
  mkdirSync fs p = Ok fs' ->
  fs_lookup fs' k = Some (File data) -> fs_lookup fs k = Some (File data).
Proof.
  intros H. rewrite (mkdirSync_Ok _ _ _ H). case_bool_decide; done.
Qed.

(** What a call that fails has made is on the way along its path, and was
    no file. *)
Lemma mkdir_recursive_lookup (fs fs' : fs_state) (p : jsstring)
    (r : result unit) (k : fs_key) :
  mkdir_recursive fs p = (fs', r) ->
  fs_lookup fs' k = fs_lookup fs k
  \/ (k ∈ path_steps p /\ is_file (fs_lookup fs k) = false
      /\ fs_lookup fs' k = Some Dir).
Proof.
  intros H. apply mkdir_recursive_spec in H.
  destruct H as (made & Hpre & -> & Hclear & _).
  unfold fs_lookup. rewrite insert_dirs_lookup.
  destruct (always_dir k) eqn:Halways; [by left|].
  case_bool_decide as Hin; [|by left]. right.
  split; [|split; [|done]].
  - destruct Hpre as [rest ->]. apply elem_of_app. by left.
  - rewrite Forall_forall in Hclear. specialize (Hclear k Hin).
    unfold fs_lookup in Hclear. by rewrite Halways in Hclear.
Qed.

Lemma mkdir_recursive_frame (fs fs' : fs_state) (p : jsstring)
    (r : result unit) (k : fs_key) :
  mkdir_recursive fs p = (fs', r) -> k ∉ path_steps p -> fs' !! k = fs !! k.
Proof.
  intros H Hout. apply mkdir_recursive_spec in H.
  destruct H as (made & Hpre & -> & _). rewrite insert_dirs_lookup.
  rewrite bool_decide_eq_false_2; [done|]. intros Hin. apply Hout.
  destruct Hpre as [rest ->]. apply elem_of_app. by left.
Qed.

(** A successful [writeFileSync] puts the data at the path and leaves the
    other locations as they were. *)
Lemma writeFileSync_Ok_inv (fs fs' : fs_state) (p : jsstring) (data : buffer) :
  writeFileSync fs p data = Ok fs' ->
  fs' = <[fs_resolve p := File data]> fs
  /\ is_dir (fs_lookup fs (fs_resolve p)) = false
  /\ fs_lookup fs (fs_resolve (path_dirname p)) = Some Dir.
Proof.
  unfold writeFileSync. intros H.
  destruct (path_refusal p); [discriminate|].
  destruct (fs_lookup fs (fs_resolve (path_dirname p))) as [[|?]|];
    try discriminate.
  destruct (bool_decide (p = [])); [discriminate|].
  destruct (endsWith_slash p); [discriminate|].
  destruct (existsb too_long (split_slash p)); [discriminate|].
  destruct (fs_lookup fs (fs_resolve p)) as [[|?]|] eqn:E; try discriminate;
    by injection H as <-.
Qed.

Lemma writeFileSync_Ok (fs fs' : fs_state) (p : jsstring) (data : buffer) :
  writeFileSync fs p data = Ok fs' ->
  forall k, fs_lookup fs' k =
            if bool_decide (k = fs_resolve p) then Some (File data)
            else fs_lookup fs k.
Proof.
  intros H k. pose proof (writeFileSync_Ok_inv _ _ _ _ H) as (-> & Hdir & _).
  case_bool_decide as Hk.
  - subst k. unfold fs_lookup in *.
    destruct (always_dir (fs_resolve p)); [done|]. by rewrite lookup_insert_eq.
  - by rewrite fs_lookup_insert_ne.
Qed.

Lemma writeFileSync_Ok_path (fs fs' : fs_state) (p : jsstring) (data : buffer) :
  writeFileSync fs p data = Ok fs' ->
  p <> [] /\ endsWith_slash p = false /\ accepted p = true.
Proof.
  unfold writeFileSync, path_refusal, accepted. intros H.
  destruct (has_nul p); [discriminate|].
  destruct (PATH_MAX <=? byte_length p) eqn:Hlen; [discriminate|].
  destruct (fs_lookup fs (fs_resolve (path_dirname p))) as [[|?]|];
    try discriminate.
  case_bool_decide; [discriminate|].
  destruct (endsWith_slash p); [discriminate|].
  destruct (existsb too_long (split_slash p)) eqn:E; [discriminate|].
  split; [done|]. split; [done|].
  replace (byte_length p <? PATH_MAX) with true by lia. cbn.
  apply forallb_forall. intros seg Hin.
  destruct (too_long seg) eqn:Hlong; [|done].
  assert (existsb too_long (split_slash p) = true) as E'; [|congruence].
  apply existsb_exists. by exists seg.
Qed.

Lemma writeFileSync_succeeds (fs : fs_state) (p : jsstring) (data : buffer) :
  p <> [] -> accepted p = true -> endsWith_slash p = false ->
  fs_lookup fs (fs_resolve (path_dirname p)) = Some Dir ->
  fs_lookup fs (fs_resolve p) <> Some Dir ->
  exists fs', writeFileSync fs p data = Ok fs'.
Proof.
  intros Hp Hacc Hslash Hdir Hfree. unfold writeFileSync.
  rewrite (accepted_refusal _ Hacc), Hdir, bool_decide_eq_false_2, Hslash,
    (accepted_names _ Hacc) by done.
  destruct (fs_lookup fs (fs_resolve p)) as [[|?]|]; eauto. done.
Qed.

(* ===================================================================== *)
(** * The data of an entry *)
(* ===================================================================== *)

Lemma blen_slice (buf : buffer) (a b : Z) :
  0 <= a -> a <= b ->
  blen (slice buf a b) = Z.max 0 (Z.min (b - a) (blen buf - a)).
Proof.
  intros Ha Hb. unfold slice, blen. rewrite length_take, length_drop. lia.
Qed.

Lemma slice_same_below (buf buf' : buffer) (lo a b : Z) :
  take (Z.to_nat lo) buf = take (Z.to_nat lo) buf' ->
  0 <= a -> b <= lo -> slice buf a b = slice buf' a b.
Proof.
  intros Htake Ha Hb. unfold slice. apply list_eq. intros i.
  rewrite !lookup_take. case_decide; [|done].
  rewrite !lookup_drop.
  rewrite <- (lookup_take_lt buf (Z.to_nat lo)) by lia.
  rewrite <- (lookup_take_lt buf' (Z.to_nat lo)) by lia.
  by rewrite Htake.
Qed.

Lemma slice_same_above (buf buf' : buffer) (hi a b : Z) :
  drop (Z.to_nat hi) buf = drop (Z.to_nat hi) buf' ->
  hi <= a -> slice buf a b = slice buf' a b.
Proof.
  intros Hdrop Ha. unfold slice.
  destruct (Z_lt_le_dec hi 0) as [Hneg|Hpos].
  { assert (Z.to_nat hi = 0%nat) as E by lia.
    rewrite E, !drop_0 in Hdrop. by subst. }
  replace (Z.to_nat a) with (Z.to_nat hi + Z.to_nat (a - hi))%nat by lia.
  rewrite <- !drop_drop. by rewrite Hdrop.
Qed.

Lemma same_outside_blen (buf buf' : buffer) (lo hi : Z) :
  same_outside buf buf' lo hi -> blen buf = blen buf'.
Proof. intros (Hlen & _). unfold blen. by rewrite Hlen. Qed.

Lemma readUInt32LE_same_outside (buf buf' : buffer) (lo hi off : Z) :
  same_outside buf buf' lo hi -> off + 4 <= lo \/ hi <= off ->
  readUInt32LE buf off = readUInt32LE buf' off.
Proof.
  intros Hs Hoff. pose proof (same_outside_blen _ _ _ _ Hs) as Hlen.
  destruct Hs as (_ & Htake & Hdrop).
  unfold readUInt32LE, in_bounds. rewrite <- Hlen.
  destruct (0 <=? off) eqn:E0; [|done]. cbn [andb].
  destruct (off + 4 <=? blen buf); [|done]. f_equal. f_equal.
  destruct Hoff; [apply (slice_same_below _ _ lo) | apply (slice_same_above _ _ hi)];
    first [done | lia].
Qed.

Lemma readUInt16LE_same_outside (buf buf' : buffer) (lo hi off : Z) :
  same_outside buf buf' lo hi -> off + 2 <= lo \/ hi <= off ->
  readUInt16LE buf off = readUInt16LE buf' off.
Proof.
  intros Hs Hoff. pose proof (same_outside_blen _ _ _ _ Hs) as Hlen.
  destruct Hs as (_ & Htake & Hdrop).
  unfold readUInt16LE, in_bounds. rewrite <- Hlen.
  destruct (0 <=? off) eqn:E0; [|done]. cbn [andb].
  destruct (off + 2 <=? blen buf); [|done]. f_equal. f_equal.
  destruct Hoff; [apply (slice_same_below _ _ lo) | apply (slice_same_above _ _ hi)];
    first [done | lia].
Qed.

(** Where the data starts: after the 30 fixed octets of the local header
    and the name and extra field whose lengths that header gives. *)
Lemma local_data_start_Ok (buf : buffer) (file : zip_file) (start : Z) :
  local_data_start buf file = Ok start ->
  0 <= localHeaderOffset file
  /\ readUInt32LE buf (localHeaderOffset file) = Ok localSig
  /\ exists lhFNameLen lhXLen,
       readUInt16LE buf (localHeaderOffset file + 26) = Ok lhFNameLen
       /\ readUInt16LE buf (localHeaderOffset file + 28) = Ok lhXLen
       /\ start = localHeaderOffset file + 30 + lhFNameLen + lhXLen.
Proof.
  unfold local_data_start. set (off := localHeaderOffset file). intros H.
  apply bind_Ok_inv in H. destruct H as (sig & Hsig & H).
  pose proof (readUInt32LE_Ok_inv _ _ _ Hsig) as (Hoff & _).
  destruct (sig =? localSig) eqn:Esig; [|discriminate]. cbn [negb] in H.
  apply Z.eqb_eq in Esig. subst sig.
  do 3 (apply bind_Ok_inv in H; destruct H as (? & _ & H)).
  apply bind_Ok_inv in H. destruct H as (fLen & Hn & H).
  apply bind_Ok_inv in H. destruct H as (xLen & Hx & H).
  injection H as <-.
  replace (off + 4 + 2 + 2 + 2 + 2 + 2 + 4 + 4 + 4) with (off + 26) in * by lia.
  replace (off + 26 + 2) with (off + 28) in * by lia.
  split; [done|]. split; [done|]. exists fLen, xLen.
  split; [done|]. split; [done|]. lia.
Qed.

Lemma local_data_start_same_outside (buf buf' : buffer) (file : zip_file) :
  same_outside buf buf' (localHeaderOffset file + 18)
    (localHeaderOffset file + 26) ->
  local_data_start buf' file = local_data_start buf file.
Proof.
  intros Hs. unfold local_data_start. set (off := localHeaderOffset file) in *.
  rewrite <- (readUInt32LE_same_outside buf buf' _ _ off Hs) by lia.
  rewrite <- (readUInt16LE_same_outside buf buf' _ _ (off + 4) Hs) by lia.
  rewrite <- (readUInt16LE_same_outside buf buf' _ _ (off + 4 + 2) Hs) by lia.
  rewrite <- (readUInt16LE_same_outside buf buf' _ _ (off + 4 + 2 + 2) Hs) by lia.
  rewrite <- (readUInt16LE_same_outside buf buf' _ _
                (off + 4 + 2 + 2 + 2 + 2 + 2 + 4 + 4 + 4) Hs) by lia.
  rewrite <- (readUInt16LE_same_outside buf buf' _ _
                (off + 4 + 2 + 2 + 2 + 2 + 2 + 4 + 4 + 4 + 2) Hs) by lia.
  done.
Qed.

(** C4, as the code has it.  The data handed to decoding starts after the
    local header's 30 fixed octets and the name and extra field whose
    lengths the local header gives, and runs for [compSize] octets of the
    central directory or to the end of the buffer, whichever comes first:
    exactly [compSize] octets when they are all there.  The size fields of
    the local header play no part. *)
Theorem payload_sized_by_central_directory (zipBuffer : buffer)
    (file : zip_file) (start : Z) :
  local_data_start zipBuffer file = Ok start ->
  0 <= compSize file ->
  (exists lhFNameLen lhXLen,
      readUInt16LE zipBuffer (localHeaderOffset file + 26) = Ok lhFNameLen
      /\ readUInt16LE zipBuffer (localHeaderOffset file + 28) = Ok lhXLen
      /\ start = localHeaderOffset file + 30 + lhFNameLen + lhXLen)
  /\ local_file_data zipBuffer file
     = Ok (slice zipBuffer start (start + compSize file))
  /\ blen (slice zipBuffer start (start + compSize file))
     = Z.max 0 (Z.min (compSize file) (blen zipBuffer - start))
  /\ (start + compSize file <= blen zipBuffer ->
      blen (slice zipBuffer start (start + compSize file)) = compSize file)
  /\ (forall zipBuffer',
        same_outside zipBuffer zipBuffer' (localHeaderOffset file + 18)
          (localHeaderOffset file + 26) ->
        local_file_data zipBuffer' file = local_file_data zipBuffer file).
Proof.
  intros Hstart Hsize.
  pose proof (local_data_start_Ok _ _ _ Hstart) as (Hoff & _ & n & x & Hn & Hx & Heq).
  assert (0 <= n /\ 0 <= x) as [Hn0 Hx0].
  { unfold readUInt16LE in Hn, Hx.
    destruct (in_bounds _ _ _); [|discriminate].
    destruct (in_bounds _ _ _); [|discriminate].
    injection Hn as <-. injection Hx as <-.
    split; apply le_value_range. }
  assert (Hlen : blen (slice zipBuffer start (start + compSize file))
                 = Z.max 0 (Z.min (compSize file) (blen zipBuffer - start))).
  { rewrite blen_slice by lia. f_equal. f_equal. lia. }
  split; [by exists n, x|]. split; [|split; [done|split]].
  - unfold local_file_data. rewrite Hstart. done.
  - intros Hfit. rewrite Hlen. lia.
  - intros buf' Hs. unfold local_file_data.
    rewrite (local_data_start_same_outside _ _ _ Hs), Hstart. cbn [bind].
    f_equal. symmetry. apply (slice_same_above _ _ (localHeaderOffset file + 26)).
    + by destruct Hs as (_ & _ & Hd).
    + lia.
Qed.

(** Counterexample to C4 as the specification words it (a payload of
    exactly [compSize] octets): in [short_zip] the directory announces 1000
    octets for the regular entry [a.txt], the data handed on has the 75
    octets left in the buffer, and they are written without complaint. *)
Lemma payload_shorter_than_compSize :
  parse_central_directory short_zip = Ok [short_file]
  /\ endsWith_slash (filename short_file) = false
  /\ compSize short_file = 1000
  /\ exists data,
       local_file_data short_zip short_file = Ok data
       /\ blen data = 75
       /\ (parseZipCentralDirectory inflate_stored short_zip ext ∅).2 = Ok tt
       /\ (parseZipCentralDirectory inflate_stored short_zip ext ∅).1
            !! fs_resolve (path_join ext (filename short_file))
          = Some (File data).
Proof.
  split; [vm_compute; reflexivity|]. split; [vm_compute; reflexivity|].
  split; [reflexivity|].
  exists (slice short_zip 35 1035).
  repeat split; vm_compute; reflexivity.
Qed.

Lemma payload_sized_by_central_directory_witness :
  parse_central_directory filled_zip = Ok [streamed_file]
  /\ parse_central_directory streamed_zip = Ok [streamed_file]
  /\ blen (slice filled_zip 35 (35 + compSize streamed_file)) = 2
  /\ local_file_data streamed_zip streamed_file
     = local_file_data filled_zip streamed_file.
Proof.
  split; [vm_compute; reflexivity|]. split; [vm_compute; reflexivity|].
  destruct (payload_sized_by_central_directory filled_zip streamed_file 35)
    as (_ & _ & _ & Hfit & Hsame).
  - vm_compute. reflexivity.
  - simpl. lia.
  - split.
    + apply Hfit. vm_compute. discriminate.
    + apply Hsame. repeat split; vm_compute; reflexivity.
Defined.

(* ===================================================================== *)
(** * One entry *)
(* ===================================================================== *)

Lemma extract_file_marker (inflate : buffer -> option buffer) (buf : buffer)
    (out : jsstring) (file : zip_file) (fs : fs_state) :
  endsWith_slash (filename file) = true ->
  extract_file inflate buf out file fs
  = mkdir_recursive fs (path_join out (filename file)).
Proof. intros H. unfold extract_file. rewrite H. done. Qed.

Lemma extract_file_marker_Ok (inflate : buffer -> option buffer)
    (buf : buffer) (out : jsstring) (file : zip_file) (fs fs' : fs_state) :
  endsWith_slash (filename file) = true ->
  mkdirSync fs (path_join out (filename file)) = Ok fs' ->
  extract_file inflate buf out file fs = (fs', Ok tt).
Proof.
  intros H Hmk. rewrite extract_file_marker by done.
  by apply mkdirSync_Ok_run.
Qed.

Lemma extract_file_regular (inflate : buffer -> option buffer) (buf : buffer)
    (out : jsstring) (file : zip_file) (fs fs1 : fs_state) (payload : buffer) :
  endsWith_slash (filename file) = false ->
  local_file_data buf file = Ok payload ->
  mkdirSync fs (path_dirname (path_join out (filename file))) = Ok fs1 ->
  extract_file inflate buf out file fs
  = if (method file =? 0) || (method file =? 8) then
      match decode_payload inflate (method file) payload with
      | Some data =>
          fs_step fs1
            (writeFileSync fs1 (path_join out (filename file)) data)
      | None => (fs1, Err DecompressionFailed)
      end
    else (fs1, Err (UnsupportedCompressionMethod (method file)
                      (filename file))).
Proof.
  intros Hname Hdata Hmk. rewrite extract_file_unfold.
  unfold decode_payload. rewrite Hname, Hdata. cbv zeta. rewrite Hmk.
  destruct (method file =? 0); [done|].
  destruct (method file =? 8); [|done]. cbn [orb].
  destruct (inflate payload); done.
Qed.




(* ===================================================================== *)
(** * The loop over the entries *)
(* ===================================================================== *)

Lemma extract_files_app (inflate : buffer -> option buffer) (buf : buffer)
    (out : jsstring) (before rest : list zip_file) (fs : fs_state) :
  extract_files inflate buf out (before ++ rest) fs
  = match extract_files inflate buf out before fs with
    | (fs1, Ok _) => extract_files inflate buf out rest fs1
    | (fs1, Err e) => (fs1, Err e)
    end.
Proof.
  revert fs. induction before as [|file before IH]; intros fs; [done|].
  cbn [app extract_files].
  destruct (extract_file inflate buf out file fs) as [fs1 [[]|e]]; [|done].
  apply IH.
Qed.

(** What a call of [mkdirSync] leaves holds the files that were there, and
    no other, however the call ends. *)
Lemma mkdir_recursive_files (fs fs' : fs_state) (p : jsstring)
    (r : result unit) (k : fs_key) (data : buffer) :
  mkdir_recursive fs p = (fs', r) ->
  fs_lookup fs' k = Some (File data) <-> fs_lookup fs k = Some (File data).
Proof.
  intros H.
  destruct (mkdir_recursive_lookup _ _ _ _ k H) as [-> | (_ & Hfree & ->)];
    [done|].
  split; [done|]. intros Hfile. by rewrite Hfile in Hfree.
Qed.

(** C7, as the code has it.  When the loop reaches a regular entry whose
    method is neither 0 nor 8 and whose local header is readable, the
    extraction ends at that entry.  The directory of the entry is asked
    for first (line 350 comes before the test of the method): when that
    call fails, the run ends with its failure, and otherwise with
    [UnsupportedCompressionMethod] carrying the method and the name of the
    entry.  Either way what that call has made stays, no file has been
    written for the entry or for the entries after it, and the files of
    the entries before it stay. *)
Theorem unsupported_method_aborts (inflate : buffer -> option buffer)
    (zipBuffer : buffer) (outFolder : jsstring)
    (before after : list zip_file) (file : zip_file)
    (fs fs0 fs1 : fs_state) (payload : buffer) :
  parse_central_directory zipBuffer = Ok (before ++ file :: after) ->
  mkdirSync fs outFolder = Ok fs0 ->
  extract_files inflate zipBuffer outFolder before fs0 = (fs1, Ok tt) ->
  endsWith_slash (filename file) = false ->
  method file <> 0 -> method file <> 8 ->
  local_file_data zipBuffer file = Ok payload ->
  let made :=
    mkdir_recursive fs1 (path_dirname (path_join outFolder (filename file))) in
  parseZipCentralDirectory inflate zipBuffer outFolder fs
  = (made.1,
     match made.2 with
     | Ok _ =>
         Err (UnsupportedCompressionMethod (method file) (filename file))
     | Err e => Err e
     end)
  /\ (forall k data,
        fs_lookup made.1 k = Some (File data)
        <-> fs_lookup fs1 k = Some (File data)).
Proof.
  intros Hcd Hmk0 Hbefore Hname Hm0 Hm8 Hdata made. split.
  - rewrite parseZipCentralDirectory_unfold, Hcd, Hmk0.
    rewrite extract_files_app, Hbefore. cbn [extract_files].
    unfold extract_file. rewrite Hname, Hdata. cbv zeta. fold made.
    destruct made as [fs2 [[]|e]]; [|done]. cbn [fst snd].
    replace (method file =? 0) with false by lia.
    replace (method file =? 8) with false by lia. done.
  - intros k data.
    apply (mkdir_recursive_files fs1 made.1
             (path_dirname (path_join outFolder (filename file))) made.2).
    subst made. by destruct (mkdir_recursive fs1 _).
Qed.

(** Counterexample to C7 as the specification words it (a failure for any
    entry of unknown method): the one entry of [marker99_zip] has method
    99, and the extraction succeeds, creating the directory. *)
Lemma marker_with_method_99_extracts :
  parse_central_directory marker99_zip
  = Ok [{| filename := js_of_ascii "d/"; method := 99; compSize := 0;
           unCompSize := 0; flags := 0; localHeaderOffset := 0 |}]
  /\ (parseZipCentralDirectory inflate_stored marker99_zip ext ∅).2 = Ok tt
  /\ fs_lookup (parseZipCentralDirectory inflate_stored marker99_zip ext ∅).1
       (fs_resolve (js_of_ascii "ext/d")) = Some Dir.
Proof. repeat split; vm_compute; reflexivity. Qed.

Lemma unsupported_method_aborts_witness :
  (parseZipCentralDirectory inflate_stored method99_zip ext ∅).2
  = Err (UnsupportedCompressionMethod 99 (js_of_ascii "sub/b.bin"))
  /\ (parseZipCentralDirectory inflate_stored blocked99_zip ext ∅).2
     = Err (FsError EEXIST).
Proof.
  split.
  - destruct (unsupported_method_aborts inflate_stored method99_zip ext
                method99_before method99_after method99_file ∅
                (insert_dirs (key_prefixes (fs_resolve ext)) ∅)
                (<[fs_resolve (js_of_ascii "ext/a.txt")
                   := File (buf_of_ascii "A")]>
                   (insert_dirs (key_prefixes (fs_resolve ext)) ∅))
                (buf_of_ascii "B")) as [Hrun _].
    + by_evaluation.
    + by_evaluation.
    + by_evaluation.
    + reflexivity.
    + vm_compute. discriminate.
    + vm_compute. discriminate.
    + vm_compute. reflexivity.
    + rewrite Hrun. vm_compute. reflexivity.
  - destruct (unsupported_method_aborts inflate_stored blocked99_zip ext
                blocked99_before [] blocked99_file ∅
                (insert_dirs (key_prefixes (fs_resolve ext)) ∅)
                (<[fs_resolve (js_of_ascii "ext/a")
                   := File (buf_of_ascii "A")]>
                   (insert_dirs (key_prefixes (fs_resolve ext)) ∅))
                (buf_of_ascii "B")) as [Hrun _].
    + by_evaluation.
    + by_evaluation.
    + by_evaluation.
    + reflexivity.
    + vm_compute. discriminate.
    + vm_compute. discriminate.
    + vm_compute. reflexivity.
    + rewrite Hrun. vm_compute. reflexivity.
Defined.

(* ===================================================================== *)
(** * Destination paths *)
(* ===================================================================== *)

Lemma mkdirSync_creates (fs : fs_state) (p : jsstring) :
  p <> [] -> accepted p = true -> way_clear fs p ->
  exists fs', mkdirSync fs p = Ok fs'
              /\ fs_lookup fs' (fs_resolve p) = Some Dir.
Proof.
  intros Hp Hacc Hclear.
  destruct (mkdirSync_succeeds fs p Hp Hacc) as [fs' Hmk].
  { by apply Forall_forall. }
  exists fs'. split; [done|]. rewrite (mkdirSync_Ok _ _ _ Hmk).
  rewrite bool_decide_eq_true_2; [done|]. apply path_steps_self.
Qed.

(** A regular entry with a supported method, readable data and a free way
    is written at the joined path. *)
Lemma extract_file_writes (inflate : buffer -> option buffer) (buf : buffer)
    (out : jsstring) (file : zip_file) (fs : fs_state)
    (payload data : buffer) :
  let p := path_join out (filename file) in
  endsWith_slash (filename file) = false ->
  local_file_data buf file = Ok payload ->
  decode_payload inflate (method file) payload = Some data ->
  accepted (path_dirname p) = true -> accepted p = true ->
  way_clear fs (path_dirname p) ->
  endsWith_slash p = false ->
  fs_lookup fs (fs_resolve p) <> Some Dir ->
  fs_resolve p ∉ path_steps (path_dirname p) ->
  exists fs1 fs2,
    mkdirSync fs (path_dirname p) = Ok fs1
    /\ writeFileSync fs1 p data = Ok fs2
    /\ extract_file inflate buf out file fs = (fs2, Ok tt).
Proof.
  intros p Hname Hdata Hdec Hacc_dir Hacc Hclear Hslash Hfree Hnotdir.
  destruct (mkdirSync_creates fs (path_dirname p)) as (fs1 & Hmk & Hdir);
    [apply path_dirname_nonempty | done | done |].
  destruct (writeFileSync_succeeds fs1 p data) as [fs2 Hw];
    [apply path_join_nonempty | done | done | done | |].
  { rewrite (mkdirSync_Ok _ _ _ Hmk). by rewrite bool_decide_eq_false_2. }
  exists fs1, fs2. split; [done|]. split; [done|].
  rewrite (extract_file_regular inflate _ _ _ _ _ _ Hname Hdata Hmk).
  fold p. rewrite Hdec.
  unfold decode_payload in Hdec.
  destruct (method file =? 0); [|destruct (method file =? 8); [|discriminate]];
    cbn [orb]; by rewrite Hw.
Qed.

(** C9, as the code has it.  The destination of every entry is
    [path.join(outFolder, filename)], whether or not that path lies below
    [outFolder]: nothing in the name is looked at.  When the system takes
    the path and no file stands on the way, the directory of a marker is
    made there; when moreover the data is readable and decodes, and the
    path is no directory, the file of a regular entry is written there. *)
Theorem escaping_entry_created (inflate : buffer -> option buffer)
    (zipBuffer : buffer) (outFolder : jsstring) (file : zip_file)
    (fs : fs_state) :
  let p := path_join outFolder (filename file) in
  (endsWith_slash (filename file) = true ->
   accepted p = true ->
   way_clear fs p ->
   exists fs',
     extract_file inflate zipBuffer outFolder file fs = (fs', Ok tt)
     /\ fs_lookup fs' (fs_resolve p) = Some Dir)
  /\ (endsWith_slash (filename file) = false ->
      forall payload data,
        local_file_data zipBuffer file = Ok payload ->
        decode_payload inflate (method file) payload = Some data ->
        accepted (path_dirname p) = true ->
        accepted p = true ->
        way_clear fs (path_dirname p) ->
        endsWith_slash p = false ->
        fs_lookup fs (fs_resolve p) <> Some Dir ->
        fs_resolve p ∉ path_steps (path_dirname p) ->
        exists fs',
          extract_file inflate zipBuffer outFolder file fs = (fs', Ok tt)
          /\ fs_lookup fs' (fs_resolve p) = Some (File data)).
Proof.
  intros p. split.
  - intros Hname Hacc Hclear.
    destruct (mkdirSync_creates fs p) as (fs' & Hmk & Hdir);
      [apply path_join_nonempty | done | done |].
    exists fs'. split; [|done]. by apply extract_file_marker_Ok.
  - intros Hname payload data Hdata Hdec Hacc_dir Hacc Hclear Hslash Hfree
      Hnotdir.
    destruct (extract_file_writes inflate zipBuffer outFolder file fs
                payload data) as (fs1 & fs2 & Hmk & Hw & Hx); try done.
    exists fs2. split; [done|]. fold p in Hw.
    rewrite (writeFileSync_Ok _ _ _ _ Hw). by rewrite bool_decide_eq_true_2.
Qed.

(** Counterexample to C9 as the specification words it (a name with a
    [..] piece lands outside): in [dotdot_inside_zip] the name
    [a/../b.txt] has a [..] piece, and its file is written at [ext/b.txt],
    below the destination. *)
Lemma dotdot_name_stays_inside :
  has_dotdot_segment (js_of_ascii "a/../b.txt") = true
  /\ path_join ext (js_of_ascii "a/../b.txt") = js_of_ascii "ext/b.txt"
  /\ inside ext (path_join ext (js_of_ascii "a/../b.txt")) = true
  /\ parse_central_directory dotdot_inside_zip
     = Ok [{| filename := js_of_ascii "a/../b.txt"; method := 0;
              compSize := 1; unCompSize := 1; flags := 0;
              localHeaderOffset := 0 |}]
  /\ (parseZipCentralDirectory inflate_stored dotdot_inside_zip ext ∅).2
     = Ok tt
  /\ (parseZipCentralDirectory inflate_stored dotdot_inside_zip ext ∅).1
       !! fs_resolve (js_of_ascii "ext/b.txt")
     = Some (File (buf_of_ascii "x")).
Proof. repeat split; vm_compute; reflexivity. Qed.

Lemma escaping_entry_created_witness :
  path_join ext (filename escaping_file) = js_of_ascii "evil.txt"
  /\ inside ext (js_of_ascii "evil.txt") = false
  /\ exists fs',
       extract_file inflate_stored escaping_zip ext escaping_file
         (insert_dirs (key_prefixes (fs_resolve ext)) ∅) = (fs', Ok tt)
       /\ fs_lookup fs' (fs_resolve (js_of_ascii "evil.txt"))
          = Some (File (buf_of_ascii "x")).
Proof.
  split; [vm_compute; reflexivity|]. split; [vm_compute; reflexivity|].
  destruct (escaping_entry_created inflate_stored escaping_zip ext
              escaping_file (insert_dirs (key_prefixes (fs_resolve ext)) ∅))
    as (_ & Hfile).
  apply (Hfile eq_refl (buf_of_ascii "x") (buf_of_ascii "x")).
  - vm_compute. reflexivity.
  - vm_compute. reflexivity.
  - vm_compute. reflexivity.
  - vm_compute. reflexivity.
  - by_evaluation.
  - vm_compute. reflexivity.
  - vm_compute. discriminate.
  - by_evaluation.
Defined.
(* ===================================================================== *)
(** * Reading back what the format lays out *)
(* ===================================================================== *)

(** Moving the cursor past a field. *)
Lemma cursor_advance (buf field rest : buffer) (ptr : Z) :
  0 <= ptr -> drop (Z.to_nat ptr) buf = field ++ rest ->
  slice buf ptr (ptr + blen field) = field
  /\ drop (Z.to_nat (ptr + blen field)) buf = rest.
Proof.
  intros Hptr Hdrop. unfold blen. split.
  - unfold slice. rewrite Hdrop.
    replace (Z.to_nat (ptr + Z.of_nat (length field) - ptr))
      with (length field) by lia.
    apply take_app_length.
  - replace (Z.to_nat (ptr + Z.of_nat (length field)))
      with (Z.to_nat ptr + length field)%nat by lia.
    rewrite <- drop_drop, Hdrop. apply drop_app_length.
Qed.

Lemma cursor_skip (buf field rest : buffer) (ptr n : Z) :
  0 <= ptr -> drop (Z.to_nat ptr) buf = field ++ rest -> blen field = n ->
  drop (Z.to_nat (ptr + n)) buf = rest.
Proof.
  intros Hptr Hdrop <-. by apply (cursor_advance buf field rest ptr).
Qed.

Lemma cursor_blen (buf rest : buffer) (ptr : Z) :
  0 <= ptr -> drop (Z.to_nat ptr) buf = rest -> rest <> [] ->
  blen buf = ptr + blen rest.
Proof.
  intros Hptr Hdrop Hne.
  assert (length (drop (Z.to_nat ptr) buf) = length rest) as Hl by (by rewrite Hdrop).
  rewrite length_drop in Hl. unfold blen.
  destruct rest; [done|]. cbn [length] in *. lia.
Qed.

(** Steps over the read at the head of the goal, given the cursor
    hypothesis [Hd] for its position. *)
Ltac read_field Hd :=
  lazymatch goal with
  | |- bind (readUInt16LE ?b ?p) _ = _ =>
      let Hr := fresh "Hr" in
      let Hn := fresh "Hd" in
      destruct (readUInt16LE_at_cursor b _ _ p ltac:(lia) Hd (blen_le16 _))
        as [Hr Hn];
      rewrite Hr; cbn [bind]; clear Hr Hd; rename Hn into Hd
  | |- bind (readUInt32LE ?b ?p) _ = _ =>
      let Hr := fresh "Hr" in
      let Hn := fresh "Hd" in
      destruct (readUInt32LE_at_cursor b _ _ p ltac:(lia) Hd (blen_le32 _))
        as [Hr Hn];
      rewrite Hr; cbn [bind]; clear Hr Hd; rename Hn into Hd
  end.

Lemma blen_central_record (off : Z) (e : zip_entry) :
  blen (central_record off e)
  = 46 + blen (ze_name e) + blen (ze_extra e) + blen (ze_comment e).
Proof.
  unfold central_record. rewrite !blen_app, !blen_le16, !blen_le32. lia.
Qed.

Lemma blen_local_record (e : zip_entry) :
  blen (local_record e)
  = 8 + blen (ze_lh_fields e) + blen (ze_lh_name e) + blen (ze_lh_extra e)
    + blen (ze_payload e) + blen (ze_trailer e).
Proof.
  unfold local_record. rewrite !blen_app, !blen_le16, !blen_le32. lia.
Qed.

(** A directory record laid out at the cursor is read back as its
    descriptor, and the cursor moves past it. *)
Lemma parse_cd_record_at (buf post : buffer) (ptr off : Z) (e : zip_entry) :
  0 <= ptr -> entry_fits e -> 0 <= off < 4294967296 ->
  drop (Z.to_nat ptr) buf = central_record off e ++ post ->
  parse_cd_record buf ptr
  = Ok (descriptor off e, ptr + blen (central_record off e))
  /\ drop (Z.to_nat (ptr + blen (central_record off e))) buf = post.
Proof.
  intros Hptr Hfits Hoff Hd.
  destruct Hfits as (Hm & Hf & Hu & Hp & Hn & Hx & Hc & _).
  pose proof (blen_nonneg (ze_payload e)).
  pose proof (blen_nonneg (ze_name e)).
  pose proof (blen_nonneg (ze_extra e)).
  pose proof (blen_nonneg (ze_comment e)).
  split; [|by apply (cursor_advance buf _ post ptr)].
  rewrite blen_central_record.
  unfold central_record in Hd. rewrite <- !app_assoc in Hd.
  unfold parse_cd_record. cbv zeta.
  read_field Hd.
  rewrite le_value_le32 by (unfold cdSig; lia).
  rewrite Z.eqb_refl. cbn [negb].
  do 6 read_field Hd. do 3 read_field Hd. do 5 read_field Hd.
  do 2 read_field Hd.
  rewrite !le_value_le16, !le_value_le32 by lia.
  unfold toString_utf8.
  match type of Hd with drop (Z.to_nat ?p) _ = _ => set (p0 := p) in * end.
  destruct (cursor_advance buf _ _ p0 ltac:(lia) Hd) as [Hname _].
  rewrite Hname. unfold descriptor. f_equal. f_equal. lia.
Qed.

Lemma blen_local_records_nonneg (es : list zip_entry) :
  0 <= blen (local_records es).
Proof. apply blen_nonneg. Qed.

Lemma parse_cd_records_at (es : list zip_entry) (buf post : buffer)
    (ptr off : Z) :
  0 <= ptr -> Forall entry_fits es ->
  0 <= off -> off + blen (local_records es) < 4294967296 ->
  drop (Z.to_nat ptr) buf = central_records off es ++ post ->
  parse_cd_records buf (length es) ptr = Ok (descriptors off es).
Proof.
  revert ptr off. induction es as [|e es IH]; intros ptr off Hptr Hfits Hoff Hmax Hd.
  - done.
  - apply Forall_cons in Hfits. destruct Hfits as [He Hes].
    cbn [local_records] in Hmax. rewrite blen_app in Hmax.
    pose proof (blen_nonneg (local_record e)).
    pose proof (blen_nonneg (local_records es)).
    cbn [central_records] in Hd. rewrite <- app_assoc in Hd.
    destruct (parse_cd_record_at buf _ ptr off e Hptr He ltac:(lia) Hd)
      as [Hrec Hd'].
    cbn [length parse_cd_records descriptors]. rewrite Hrec. cbn [bind].
    pose proof (blen_nonneg (central_record off e)).
    rewrite (IH _ (off + blen (local_record e))); [done | lia | done | lia | lia | done].
Qed.

(** A local header laid out at [off] leads to the data after it. *)
Lemma local_data_start_at (buf post : buffer) (off : Z) (e : zip_entry) :
  0 <= off -> entry_fits e ->
  drop (Z.to_nat off) buf = local_record e ++ post ->
  local_data_start buf (descriptor off e)
  = Ok (off + 30 + blen (ze_lh_name e) + blen (ze_lh_extra e))
  /\ slice buf (off + 30 + blen (ze_lh_name e) + blen (ze_lh_extra e))
       (off + 30 + blen (ze_lh_name e) + blen (ze_lh_extra e)
        + blen (ze_payload e))
     = ze_payload e.
Proof.
  intros Hoff Hfits Hd.
  destruct Hfits as (_ & _ & _ & _ & _ & _ & _ & Hlh & Hln & Hlx).
  pose proof (blen_nonneg (ze_lh_name e)).
  pose proof (blen_nonneg (ze_lh_extra e)).
  pose proof (blen_nonneg (ze_payload e)).
  pose proof (blen_nonneg (ze_trailer e)).
  assert (Hlen : blen buf = off + blen (local_record e ++ post)).
  { apply cursor_blen; [done | done |]. unfold local_record, le32. done. }
  rewrite blen_app, blen_local_record in Hlen.
  pose proof (blen_nonneg post).
  unfold local_record in Hd. rewrite <- !app_assoc in Hd.
  pose proof (cursor_skip buf _ _ off 4 Hoff Hd (blen_le32 _)) as Hd1.
  pose proof (cursor_skip buf _ _ (off + 4) 22 ltac:(lia) Hd1 Hlh) as Hd2.
  pose proof (cursor_skip buf _ _ (off + 4 + 22) 2 ltac:(lia) Hd2 (blen_le16 _))
    as Hd3.
  pose proof (cursor_skip buf _ _ (off + 4 + 22 + 2) 2 ltac:(lia) Hd3
                (blen_le16 _)) as Hd4.
  set (n := blen (ze_lh_name e)) in *. set (x := blen (ze_lh_extra e)) in *.
  pose proof (cursor_skip buf _ _ (off + 4 + 22 + 2 + 2) n ltac:(lia) Hd4
                eq_refl) as Hd5.
  pose proof (cursor_skip buf _ _ (off + 4 + 22 + 2 + 2 + n) x ltac:(lia) Hd5
                eq_refl) as Hd6.
  destruct (cursor_advance buf _ _ (off + 4 + 22 + 2 + 2 + n + x)
              ltac:(lia) Hd6) as [Hdata _].
  split.
  - unfold local_data_start.
    cbn [localHeaderOffset filename descriptor]. cbv zeta.
    read_field Hd.
    rewrite le_value_le32 by (unfold localSig; lia).
    rewrite Z.eqb_refl. cbn [negb].
    destruct (readUInt16LE_in_range buf (off + 4)) as [v1 ->]; [lia | lia |].
    destruct (readUInt16LE_in_range buf (off + 4 + 2)) as [v2 ->]; [lia | lia |].
    destruct (readUInt16LE_in_range buf (off + 4 + 2 + 2)) as [v3 ->]; [lia | lia |].
    cbn [bind].
    replace (off + 4 + 22) with (off + 4 + 2 + 2 + 2 + 2 + 2 + 4 + 4 + 4)
      in Hd2 by lia.
    read_field Hd2. read_field Hd2.
    rewrite !le_value_le16 by lia. f_equal. lia.
  - etrans; [|exact Hdata]. f_equal; lia.
Qed.

(** A local header and its data laid out at [off] give back the data. *)
Lemma local_file_data_at (buf post : buffer) (off : Z) (e : zip_entry) :
  0 <= off -> entry_fits e ->
  drop (Z.to_nat off) buf = local_record e ++ post ->
  local_file_data buf (descriptor off e) = Ok (ze_payload e).
Proof.
  intros Hoff Hfits Hd.
  destruct (local_data_start_at buf post off e Hoff Hfits Hd) as [Hs Hdata].
  unfold local_file_data. rewrite Hs. cbn [bind compSize descriptor].
  by rewrite Hdata.
Qed.

Lemma blen_eocd_record (total cdSize cdOffset : Z) (comment : buffer) :
  blen (eocd_record total cdSize cdOffset comment) = 22 + blen comment.
Proof.
  unfold eocd_record. rewrite !blen_app, !blen_le16, !blen_le32. lia.
Qed.

Lemma blen_build_zip (es : list zip_entry) (comment : buffer) :
  blen (build_zip es comment) = eocd_offset es + 22 + blen comment.
Proof.
  unfold build_zip, eocd_offset. rewrite !blen_app, blen_eocd_record. lia.
Qed.

Lemma eocd_offset_nonneg (es : list zip_entry) : 0 <= eocd_offset es.
Proof.
  unfold eocd_offset.
  pose proof (blen_nonneg (local_records es)).
  pose proof (blen_nonneg (central_records 0 es)). lia.
Qed.

Lemma drop_build_zip_eocd (es : list zip_entry) (comment : buffer) :
  drop (Z.to_nat (eocd_offset es)) (build_zip es comment)
  = eocd_record (Z.of_nat (length es)) (blen (central_records 0 es))
      (blen (local_records es)) comment.
Proof.
  unfold build_zip, eocd_offset. rewrite app_assoc.
  apply drop_app_length'. unfold blen. rewrite length_app. lia.
Qed.

Lemma drop_build_zip_cd (es : list zip_entry) (comment : buffer) :
  drop (Z.to_nat (blen (local_records es))) (build_zip es comment)
  = central_records 0 es
      ++ eocd_record (Z.of_nat (length es)) (blen (central_records 0 es))
           (blen (local_records es)) comment.
Proof.
  unfold build_zip. apply drop_app_length'. unfold blen. lia.
Qed.

Lemma is_eocd_at_false (buf : buffer) (q : Z) :
  is_eocd_at buf q = false -> ~ eocd_at buf q.
Proof.
  unfold is_eocd_at, eocd_at. intros H Hat. rewrite Hat in H.
  rewrite Z.eqb_refl in H. done.
Qed.

Lemma no_signature_after_spec (buf : buffer) (pos q : Z) :
  no_signature_after buf pos -> pos < q <= blen buf - 4 ->
  ~ eocd_at buf q.
Proof.
  unfold no_signature_after. intros Hall Hq.
  apply is_eocd_at_false. rewrite Forall_forall in Hall. apply Hall.
  apply list_elem_of_fmap. exists (Z.to_nat (q - pos - 1)). split; [lia|].
  apply elem_of_seq. lia.
Qed.

(** The search finds the directory record of a laid-out archive when no
    later word looks like its signature. *)
Lemma find_eocd_build_zip (es : list zip_entry) (comment : buffer) :
  blen comment < 65536 ->
  no_signature_after (build_zip es comment) (eocd_offset es) ->
  find_eocd (build_zip es comment) = Ok (eocd_offset es).
Proof.
  intros Hcomment Hnone.
  set (buf := build_zip es comment) in *.
  pose proof (eocd_offset_nonneg es) as Hpos.
  pose proof (blen_build_zip es comment) as Hlen. fold buf in Hlen.
  pose proof (blen_nonneg comment).
  assert (Hat : eocd_at buf (eocd_offset es)).
  { pose proof (drop_build_zip_eocd es comment) as Hd. fold buf in Hd.
    unfold eocd_record in Hd. unfold eocd_at.
    destruct (readUInt32LE_at_cursor buf _ _ _ Hpos Hd (blen_le32 _)) as [-> _].
    rewrite le_value_le32 by (unfold eocdSig; lia). done. }
  destruct (find_eocd_spec buf) as [(p & Hp & Hf & Hatp & Hlast) | (_ & Hnot)].
  - unfold scan_bottom, scan_top in *.
    destruct (Z.lt_trichotomy p (eocd_offset es)) as [Hlt | [-> | Hgt]].
    + exfalso. apply (Hlast (eocd_offset es)); [lia | done].
    + done.
    + exfalso.
      apply (no_signature_after_spec buf (eocd_offset es) p Hnone); [lia | done].
  - exfalso. apply (Hnot (eocd_offset es)); [|done].
    unfold scan_bottom, scan_top. lia.
Qed.

Lemma read_eocd_build_zip (es : list zip_entry) (comment : buffer) :
  archive_fits es comment ->
  read_eocd (build_zip es comment) (eocd_offset es)
  = Ok (Z.of_nat (length es), blen (central_records 0 es),
        blen (local_records es)).
Proof.
  intros (_ & Hn & Hl & Hc & _).
  pose proof (eocd_offset_nonneg es) as Hpos.
  pose proof (blen_nonneg (local_records es)).
  pose proof (blen_nonneg (central_records 0 es)).
  pose proof (drop_build_zip_eocd es comment) as Hd.
  set (buf := build_zip es comment) in *. set (p := eocd_offset es) in *.
  unfold eocd_record in Hd.
  pose proof (cursor_skip buf _ _ p 4 Hpos Hd (blen_le32 _)) as Hd1.
  pose proof (cursor_skip buf _ _ (p + 4) 2 ltac:(lia) Hd1 (blen_le16 _)) as Hd2.
  pose proof (cursor_skip buf _ _ (p + 4 + 2) 2 ltac:(lia) Hd2 (blen_le16 _))
    as Hd3.
  pose proof (cursor_skip buf _ _ (p + 4 + 2 + 2) 2 ltac:(lia) Hd3
                (blen_le16 _)) as Hd4.
  replace (p + 4 + 2 + 2 + 2) with (p + 10) in Hd4 by lia.
  clear Hd Hd1 Hd2 Hd3.
  unfold read_eocd.
  read_field Hd4.
  replace (p + 10 + 2) with (p + 12) in Hd4 by lia.
  read_field Hd4.
  replace (p + 12 + 4) with (p + 16) in Hd4 by lia.
  read_field Hd4.
  rewrite le_value_le16, !le_value_le32 by lia. done.
Qed.

(** The directory of a laid-out archive is read back entry for entry. *)
Lemma parse_central_directory_build_zip (es : list zip_entry)
    (comment : buffer) :
  archive_fits es comment ->
  no_signature_after (build_zip es comment) (eocd_offset es) ->
  parse_central_directory (build_zip es comment) = Ok (descriptors 0 es).
Proof.
  intros Hfits Hnone.
  pose proof Hfits as (Hes & Hn & Hl & Hc & Hcomment).
  pose proof (eocd_offset_nonneg es) as Hpos.
  pose proof (blen_nonneg (local_records es)).
  pose proof (blen_nonneg comment).
  rewrite (parse_central_directory_found _ (eocd_offset es)
             (Z.of_nat (length es)) (blen (central_records 0 es))
             (blen (local_records es)));
    [ | by apply find_eocd_build_zip | done | by apply read_eocd_build_zip ].
  rewrite blen_build_zip. unfold eocd_offset.
  replace (_ >? _) with false by lia.
  rewrite Nat2Z.id.
  apply (parse_cd_records_at es _
           (eocd_record (Z.of_nat (length es)) (blen (central_records 0 es))
              (blen (local_records es)) comment));
    [lia | done | lia | lia |].
  apply drop_build_zip_cd.
Qed.
(* ===================================================================== *)
(** * Extracting a laid-out archive *)
(* ===================================================================== *)

Lemma local_records_app (a b : list zip_entry) :
  local_records (a ++ b) = local_records a ++ local_records b.
Proof.
  induction a as [|e a IH]; [done|].
  cbn [app local_records]. by rewrite IH, app_assoc.
Qed.

Lemma descriptors_length (off : Z) (es : list zip_entry) :
  length (descriptors off es) = length es.
Proof.
  revert off. induction es as [|e es IH]; intros off; [done|].
  cbn [descriptors length]. by rewrite IH.
Qed.

Lemma file_keys_app (out : jsstring) (a b : list zip_entry) :
  file_keys out (a ++ b) = file_keys out a ++ file_keys out b.
Proof.
  induction a as [|e a IH]; [done|].
  cbn [app file_keys]. destruct (is_marker e); [done|]. by rewrite IH.
Qed.

Lemma file_keys_elem (out : jsstring) (es : list zip_entry) (e : zip_entry) :
  e ∈ es -> is_marker e = false -> fs_resolve (dest out e) ∈ file_keys out es.
Proof.
  intros Hin Hreg. induction es as [|e' es IH]; [by apply elem_of_nil in Hin|].
  apply elem_of_cons in Hin. cbn [file_keys]. destruct Hin as [<- | Hin].
  - rewrite Hreg. by left.
  - destruct (is_marker e'); [by apply IH|]. right. by apply IH.
Qed.

Lemma dirs_needed_elem (out : jsstring) (es : list zip_entry) (e : zip_entry)
    (k : fs_key) :
  e ∈ es -> k ∈ path_steps (dir_path out e) ->
  k ∈ dirs_needed out es.
Proof.
  intros Hin Hk. unfold dirs_needed. apply elem_of_app. right.
  induction es as [|e' es IH]; [by apply elem_of_nil in Hin|].
  apply elem_of_cons in Hin. cbn [entry_dirs]. apply elem_of_app.
  destruct Hin as [<- | Hin]; [by left | right; by apply IH].
Qed.

Lemma is_file_Dir (o : option fs_node) : o = Some Dir -> is_file o = false.
Proof. by intros ->. Qed.

Section Laid_out.

Variable inflate : buffer -> option buffer.
Variable out : jsstring.
Variable all : list zip_entry.
Variable buf tail : buffer.

Hypothesis Hbuf : buf = local_records all ++ tail.
Hypothesis Hfits : Forall entry_fits all.
Hypothesis Hdecodable : decodable inflate all.
Hypothesis Hdistinct : NoDup (file_keys out all).
Hypothesis Hapart :
  forall k, k ∈ file_keys out all -> k ∉ dirs_needed out all.
Hypothesis Hslash :
  Forall (fun e => is_marker e = false -> endsWith_slash (dest out e) = false)
    all.
Hypothesis Haccepted :
  Forall (fun e => accepted (dir_path out e) = true
                   /\ (is_marker e = false -> accepted (dest out e) = true))
    all.

Lemma mkdirSync_keeps_dirs_free (fs fs1 : fs_state) (p : jsstring) :
  mkdirSync fs p = Ok fs1 -> dirs_free out all fs -> dirs_free out all fs1.
Proof.
  intros Hmk Hfree. unfold dirs_free in *. rewrite Forall_forall in *.
  intros k Hk. rewrite (mkdirSync_Ok _ _ _ Hmk).
  case_bool_decide; [done|]. by apply Hfree.
Qed.

Lemma mkdirSync_off_the_way (fs fs1 : fs_state) (e : zip_entry) (k : fs_key) :
  e ∈ all -> mkdirSync fs (dir_path out e) = Ok fs1 ->
  k ∉ dirs_needed out all -> fs_lookup fs1 k = fs_lookup fs k.
Proof.
  intros He Hmk Hk. rewrite (mkdirSync_Ok _ _ _ Hmk).
  rewrite bool_decide_eq_false_2; [done|].
  intros Hin. apply Hk. by apply (dirs_needed_elem out all e).
Qed.

Lemma mkdirSync_keeps_extracted (fs fs1 : fs_state) (e d : zip_entry) :
  e ∈ all -> d ∈ all -> mkdirSync fs (dir_path out e) = Ok fs1 ->
  extracted inflate out fs d -> extracted inflate out fs1 d.
Proof.
  intros He Hd Hmk. unfold extracted.
  destruct (is_marker d) eqn:Hmarker.
  - intros Hdir. rewrite (mkdirSync_Ok _ _ _ Hmk). by case_bool_decide.
  - intros (content & Hdec & Hfile). exists content. split; [done|].
    rewrite (mkdirSync_off_the_way fs fs1 e) by
      (try done; apply Hapart; by apply file_keys_elem).
    done.
Qed.

Lemma writeFileSync_keeps_extracted (fs fs1 : fs_state) (p : jsstring)
    (data : buffer) (d : zip_entry) :
  writeFileSync fs p data = Ok fs1 ->
  fs_resolve (dest out d) <> fs_resolve p ->
  extracted inflate out fs d -> extracted inflate out fs1 d.
Proof.
  intros Hw Hne. unfold extracted.
  rewrite (writeFileSync_Ok _ _ _ _ Hw).
  rewrite bool_decide_eq_false_2 by done. done.
Qed.

Lemma marker_key_needed (d : zip_entry) :
  d ∈ all -> is_marker d = true ->
  fs_resolve (dest out d) ∈ dirs_needed out all.
Proof.
  intros Hd Hmarker. apply (dirs_needed_elem out all d); [done|].
  unfold dir_path. rewrite Hmarker. apply path_steps_self.
Qed.

(** The loop, from any point of the archive on. *)
Lemma extract_files_laid_out (rest done : list zip_entry) (fs : fs_state) :
  all = done ++ rest ->
  dirs_free out all fs ->
  Forall (fun k => is_dir (fs_lookup fs k) = false) (file_keys out rest) ->
  Forall (extracted inflate out fs) done ->
  exists fs',
    extract_files inflate buf out
      (descriptors (blen (local_records done)) rest) fs = (fs', Ok tt)
    /\ Forall (extracted inflate out fs') all.
Proof.
  revert done fs. induction rest as [|e rest IH]; intros done fs Hall Hfree Hkeys Hdone.
  - exists fs. split; [done|]. rewrite Hall, app_nil_r. done.
  - assert (He : e ∈ all).
    { rewrite Hall. apply elem_of_app. right. by left. }
    assert (Hdone_in : forall d, d ∈ done -> d ∈ all).
    { intros d Hd. rewrite Hall. apply elem_of_app. by left. }
    assert (Hfe : entry_fits e) by (rewrite Forall_forall in Hfits; by apply Hfits).
    assert (Hacc : accepted (dir_path out e) = true
                   /\ (is_marker e = false -> accepted (dest out e) = true))
      by (rewrite Forall_forall in Haccepted; by apply Haccepted).
    destruct Hacc as [Hacc_dir Hacc].
    assert (Hnext : all = (done ++ [e]) ++ rest) by (by rewrite <- app_assoc).
    assert (Hoff : blen (local_records (done ++ [e]))
                   = blen (local_records done) + blen (local_record e)).
    { rewrite local_records_app, blen_app. cbn [local_records].
      by rewrite app_nil_r. }
    cbn [descriptors extract_files]. rewrite <- Hoff.
    destruct (is_marker e) eqn:Hmarker.
    + (* a directory marker *)
      assert (Hpath : dir_path out e = dest out e)
        by (unfold dir_path; by rewrite Hmarker).
      destruct (mkdirSync_creates fs (dest out e)) as (fs1 & Hmk & Hdir).
      { apply path_join_nonempty. }
      { by rewrite <- Hpath. }
      { unfold way_clear. rewrite Forall_forall. intros k Hk.
        unfold dirs_free in Hfree. rewrite Forall_forall in Hfree.
        apply Hfree. apply (dirs_needed_elem out all e); [done|].
        by rewrite Hpath. }
      rewrite (extract_file_marker_Ok inflate buf out _ fs fs1); [|done|done].
      rewrite <- Hpath in Hmk.
      apply (IH (done ++ [e]) fs1 Hnext).
      * by apply (mkdirSync_keeps_dirs_free fs fs1 (dir_path out e)).
      * cbn [file_keys] in Hkeys. rewrite Hmarker in Hkeys.
        rewrite Forall_forall in *. intros k Hk.
        rewrite (mkdirSync_off_the_way fs fs1 e); [by apply Hkeys | done | done |].
        apply Hapart. rewrite Hall, file_keys_app. apply elem_of_app. right.
        cbn [file_keys]. by rewrite Hmarker.
      * apply Forall_app. split.
        -- rewrite Forall_forall in *. intros d Hd.
           apply (mkdirSync_keeps_extracted fs fs1 e d); auto.
        -- apply Forall_singleton. unfold extracted. by rewrite Hmarker.
    + (* a regular entry *)
      assert (Hpath : dir_path out e = path_dirname (dest out e))
        by (unfold dir_path; by rewrite Hmarker).
      assert (HK : fs_resolve (dest out e) ∈ file_keys out all)
        by (by apply file_keys_elem).
      assert (Hsplit : file_keys out all
                       = file_keys out done
                           ++ fs_resolve (dest out e) :: file_keys out rest).
      { rewrite Hall, file_keys_app. cbn [file_keys]. by rewrite Hmarker. }
      pose proof Hdistinct as Hnd. rewrite Hsplit in Hnd.
      apply NoDup_app in Hnd. destruct Hnd as (_ & Hnd_done & Hnd_rest).
      apply NoDup_cons in Hnd_rest. destruct Hnd_rest as [Hnd_rest _].
      assert (Hnotdone : fs_resolve (dest out e) ∉ file_keys out done).
      { intros Hin. apply (Hnd_done _ Hin). by left. }
      cbn [file_keys] in Hkeys. rewrite Hmarker in Hkeys.
      apply Forall_cons in Hkeys. destruct Hkeys as [Hkey Hkeys].
      assert (Hdata : local_file_data buf
                        (descriptor (blen (local_records done)) e)
                      = Ok (ze_payload e)).
      { apply (local_file_data_at buf (local_records rest ++ tail));
          [apply blen_nonneg | done |].
        rewrite Hbuf, Hall, local_records_app. cbn [local_records].
        rewrite <- !app_assoc. apply drop_app_length'. unfold blen. lia. }
      assert (Hdec : is_Some (decode_payload inflate (ze_method e) (ze_payload e))).
      { unfold decodable in Hdecodable. rewrite Forall_forall in Hdecodable.
        by apply Hdecodable. }
      destruct Hdec as [data Hdec].
      destruct (extract_file_writes inflate buf out
                  (descriptor (blen (local_records done)) e) fs
                  (ze_payload e) data) as (fs1 & fs2 & Hmk & Hw & Hx).
      { done. }
      { done. }
      { done. }
      { cbn [filename descriptor]. fold (dest out e). by rewrite <- Hpath. }
      { cbn [filename descriptor]. fold (dest out e). by apply Hacc. }
      { cbn [filename descriptor]. fold (dest out e). rewrite <- Hpath.
        unfold way_clear. rewrite Forall_forall. intros k Hk.
        unfold dirs_free in Hfree. rewrite Forall_forall in Hfree.
        apply Hfree. by apply (dirs_needed_elem out all e). }
      { cbn [filename descriptor]. fold (dest out e).
        rewrite Forall_forall in Hslash. by apply Hslash. }
      { cbn [filename descriptor]. fold (dest out e).
        destruct (fs_lookup fs (fs_resolve (dest out e))) as [[|?]|]; done. }
      { cbn [filename descriptor]. fold (dest out e). rewrite <- Hpath.
        intros Hin. apply (Hapart _ HK).
        by apply (dirs_needed_elem out all e). }
      cbn [filename descriptor] in Hmk, Hw. fold (dest out e) in Hmk, Hw.
      rewrite <- Hpath in Hmk.
      rewrite Hx.
      apply (IH (done ++ [e]) fs2 Hnext).
      * unfold dirs_free. rewrite Forall_forall. intros k Hk.
        rewrite (writeFileSync_Ok _ _ _ _ Hw).
        rewrite bool_decide_eq_false_2.
        -- pose proof (mkdirSync_keeps_dirs_free fs fs1 _ Hmk Hfree) as Hfree1.
           unfold dirs_free in Hfree1. rewrite Forall_forall in Hfree1. auto.
        -- intros ->. by apply (Hapart _ HK).
      * rewrite Forall_forall in *. intros k Hk.
        rewrite (writeFileSync_Ok _ _ _ _ Hw).
        rewrite bool_decide_eq_false_2 by (intros ->; done).
        rewrite (mkdirSync_off_the_way fs fs1 e); [by apply Hkeys | done | done |].
        apply Hapart. rewrite Hsplit. apply elem_of_app. right. by right.
      * apply Forall_app. split.
        -- rewrite Forall_forall in *. intros d Hd.
           apply (writeFileSync_keeps_extracted fs1 fs2 (dest out e) data d Hw).
           ++ destruct (is_marker d) eqn:Hmd.
              ** intros Heq. apply (Hapart _ HK). rewrite <- Heq.
                 apply marker_key_needed; auto.
              ** intros Heq. apply Hnotdone. rewrite <- Heq.
                 by apply file_keys_elem.
           ++ apply (mkdirSync_keeps_extracted fs fs1 e d); auto.
        -- apply Forall_singleton. unfold extracted. rewrite Hmarker.
           exists data. split; [done|].
           rewrite (writeFileSync_Ok _ _ _ _ Hw).
           by rewrite bool_decide_eq_true_2.
Qed.

End Laid_out.



(* ===================================================================== *)
(** * The statements at work *)
(* ===================================================================== *)

Lemma zip_start_by_version_witness :
  zipStartOffset crx2_sample = Ok (16 + 3 + 2)
  /\ zipStartOffset crx3_sample = Ok (12 + 5)
  /\ extractCrxToFolder inflate_stored crx9_sample ext ∅
     = (∅, Err (UnsupportedVersion 9)).
Proof.
  split; [|split].
  - destruct (zip_start_by_version crx2_sample 2) as (H2 & _ & _).
    + vm_compute. reflexivity.
    + vm_compute. reflexivity.
    + apply (H2 eq_refl 3 2); vm_compute; reflexivity.
  - destruct (zip_start_by_version crx3_sample 3) as (_ & H3 & _).
    + vm_compute. reflexivity.
    + vm_compute. reflexivity.
    + apply (H3 (or_introl eq_refl) 5). vm_compute. reflexivity.
  - destruct (zip_start_by_version crx9_sample 9) as (_ & _ & H9).
    + vm_compute. reflexivity.
    + vm_compute. reflexivity.
    + destruct H9 as (_ & _ & Hx); [discriminate | discriminate | discriminate |].
      apply Hx.
Defined.

Lemma strip_header_by_offset_witness :
  stripCrxHeader crx3_header_only = Err MalformedHeader
  /\ stripCrxHeader crx3_sample = Ok (slice crx3_sample 17 (blen crx3_sample)).
Proof.
  split.
  - destruct (strip_header_by_offset crx3_header_only 17) as (Hge & _).
    + vm_compute. reflexivity.
    + vm_compute. reflexivity.
    + apply Hge. vm_compute. discriminate.
  - destruct (strip_header_by_offset crx3_sample 17) as (_ & Hlt).
    + vm_compute. reflexivity.
    + vm_compute. reflexivity.
    + apply Hlt. vm_compute. reflexivity.
Defined.

Lemma directory_range_check_witness :
  parse_central_directory (bare_eocd 22) = Ok []
  /\ parseZipCentralDirectory inflate_stored (bare_eocd 23) ext ∅
     = (∅, Err DirectoryOutOfRange).
Proof.
  split.
  - destruct (directory_range_check inflate_stored (bare_eocd 22) ext ∅
                0 0 22 0) as (Hle & _).
    + vm_compute. reflexivity.
    + lia.
    + vm_compute. reflexivity.
    + rewrite Hle; [reflexivity|]. vm_compute. discriminate.
  - destruct (directory_range_check inflate_stored (bare_eocd 23) ext ∅
                0 0 23 0) as (_ & Hgt & _).
    + vm_compute. reflexivity.
    + lia.
    + vm_compute. reflexivity.
    + apply Hgt. vm_compute. reflexivity.
Defined.

Lemma eocd_near_end_range_error_witness :
  exists off,
    blen comment_zip < off + 4
    /\ parseZipCentralDirectory inflate_stored comment_zip ext ∅
       = (∅, Err (RangeError off)).
Proof.
  destruct (eocd_near_end_range_error inflate_stored comment_zip ext ∅ 109)
    as (off & Hoff & _ & Hrun & _).
  - vm_compute. reflexivity.
  - lia.
  - vm_compute. reflexivity.
  - exists off. split; [exact Hoff | exact Hrun].
Defined.

(* ===================================================================== *)
(** * Containers and sample streams *)
(* ===================================================================== *)

(** X7. A CRX3 container is stripped to the archive it wraps: the
    octets after the header, whose length the container announces. *)
Lemma stripCrxHeader_build_crx3 (header zip : buffer) :
  blen header < 4294967296 -> zip <> [] ->
  stripCrxHeader (build_crx3 header zip) = Ok zip.
Proof.
  intros Hh Hzip. pose proof (blen_nonneg header).
  assert (0 < blen zip) as Hz.
  { destruct zip; [done|]. rewrite blen_cons. pose proof (blen_nonneg zip). lia. }
  set (buf := build_crx3 header zip).
  assert (Hd4 : drop (Z.to_nat 4) buf
                = le32 3 ++ le32 (blen header) ++ header ++ zip) by done.
  destruct (readUInt32LE_at_cursor buf _ _ 4 ltac:(lia) Hd4 (blen_le32 _))
    as [Hver Hd8].
  destruct (readUInt32LE_at_cursor buf _ _ (4 + 4) ltac:(lia) Hd8 (blen_le32 _))
    as [Hsize Hd12].
  destruct (cursor_advance buf _ _ (4 + 4 + 4) ltac:(lia) Hd12) as [_ Hdz].
  rewrite le_value_le32 in Hver by lia. rewrite le_value_le32 in Hsize by lia.
  assert (Hlen : blen buf = 12 + blen header + blen zip).
  { unfold buf, build_crx3. rewrite !blen_app, !blen_le32.
    change (blen (buf_of_ascii "Cr24")) with 4. lia. }
  rewrite stripCrxHeader_valid_magic by done.
  unfold zipStartOffset. rewrite Hver. cbn [bind Z.eqb Pos.eqb orb].
  change (4 + 4) with 8 in Hsize. rewrite Hsize. cbn [bind].
  replace (12 + blen header >=? blen buf) with false by lia.
  unfold slice_from. rewrite <- Hdz. do 3 f_equal; lia.
Qed.

(** X8. A CRX2 container is stripped to the archive it wraps: the
    octets after the key and the signature, whose lengths the container
    announces. *)
Lemma stripCrxHeader_build_crx2 (pubKey sig zip : buffer) :
  blen pubKey < 4294967296 -> blen sig < 4294967296 -> zip <> [] ->
  stripCrxHeader (build_crx2 pubKey sig zip) = Ok zip.
Proof.
  intros Hp Hs Hzip.
  pose proof (blen_nonneg pubKey). pose proof (blen_nonneg sig).
  assert (0 < blen zip) as Hz.
  { destruct zip; [done|]. rewrite blen_cons. pose proof (blen_nonneg zip). lia. }
  set (buf := build_crx2 pubKey sig zip).
  assert (Hd4 : drop (Z.to_nat 4) buf
                = le32 2 ++ le32 (blen pubKey) ++ le32 (blen sig)
                    ++ pubKey ++ sig ++ zip) by done.
  destruct (readUInt32LE_at_cursor buf _ _ 4 ltac:(lia) Hd4 (blen_le32 _))
    as [Hver Hd8].
  destruct (readUInt32LE_at_cursor buf _ _ (4 + 4) ltac:(lia) Hd8 (blen_le32 _))
    as [Hpk Hd12].
  destruct (readUInt32LE_at_cursor buf _ _ (4 + 4 + 4) ltac:(lia) Hd12
              (blen_le32 _)) as [Hsig Hd16].
  destruct (cursor_advance buf _ _ (4 + 4 + 4 + 4) ltac:(lia) Hd16) as [_ Hdk].
  destruct (cursor_advance buf _ _ (4 + 4 + 4 + 4 + blen pubKey)
              ltac:(lia) Hdk) as [_ Hdz].
  rewrite le_value_le32 in Hver, Hpk, Hsig by lia.
  assert (Hlen : blen buf = 16 + blen pubKey + blen sig + blen zip).
  { unfold buf, build_crx2. rewrite !blen_app, !blen_le32.
    change (blen (buf_of_ascii "Cr24")) with 4. lia. }
  rewrite stripCrxHeader_valid_magic by done.
  unfold zipStartOffset. rewrite Hver. cbn [bind Z.eqb Pos.eqb].
  change (4 + 4) with 8 in Hpk. change (4 + 4 + 4) with 12 in Hsig.
  rewrite Hpk, Hsig. cbn [bind].
  replace (16 + blen pubKey + blen sig >=? blen buf) with false by lia.
  unfold slice_from. rewrite <- Hdz. do 3 f_equal; lia.
Qed.

(** The sample inflater undoes the sample deflater. *)
Lemma inflate_deflate_stored (data : buffer) :
  blen data < 65536 -> inflate_stored (deflate_stored data) = Some data.
Proof.
  intros Hlen. pose proof (blen_nonneg data).
  unfold inflate_stored, deflate_stored.
  cbn [length le16 le_bytes app inflate_stored_blocks].
  rewrite !byte_val_of_Z.
  assert (blen data mod 256 + 256 * (blen data / 256 mod 256) = blen data) as ->.
  { rewrite <- Z.rem_mul_r by lia. apply Z.mod_small. lia. }
  assert ((65535 - blen data) mod 256
          + 256 * ((65535 - blen data) / 256 mod 256) = 65535 - blen data) as ->.
  { rewrite <- Z.rem_mul_r by lia. apply Z.mod_small. lia. }
  change (Z.land (1 mod 256) 6 =? 0) with true. cbn [negb].
  replace (blen data + (65535 - blen data) =? 65535) with true by lia.
  cbn [negb]. replace (blen data <? blen data) with false by lia.
  change (Z.testbit (1 mod 256) 0) with true. cbn match.
  f_equal. apply take_ge. unfold blen. lia.
Qed.

(** The end-to-end example of the specification: the extraction creates
    the destination with [manifest.json] in it, and nothing else. *)
Example manifest_end_to_end :
  extractCrxToFolder inflate_stored manifest_crx ext ∅
  = (<[fs_resolve (js_of_ascii "ext/manifest.json") := File manifest_content]>
       (insert_dirs (key_prefixes (fs_resolve ext)) ∅),
     Ok tt)
  /\ key_prefixes (fs_resolve ext) = [(false, []); (false, [ext])].
Proof. split; vm_compute; reflexivity. Qed.

(* ===================================================================== *)
(** * The stages of a run and what they leave *)
(* ===================================================================== *)

Lemma zipStartOffset_Err (buf : buffer) (e : error) :
  zipStartOffset buf = Err e ->
  is_RangeError e \/ exists v, e = UnsupportedVersion v.
Proof.
  unfold zipStartOffset. intros H.
  apply bind_Err_inv in H. destruct H as [H | (v & _ & H)].
  { left. eapply readUInt32LE_Err. done. }
  destruct (v =? 2).
  { left. peel_reads H. discriminate. }
  destruct ((v =? 3) || (v =? 4)).
  { left. peel_reads H. discriminate. }
  right. exists v. by injection H as <-.
Qed.

Lemma stripCrxHeader_Err (buf : buffer) (e : error) :
  stripCrxHeader buf = Err e ->
  e = InvalidMagic \/ e = MalformedHeader \/ is_RangeError e
  \/ exists v, e = UnsupportedVersion v.
Proof.
  unfold stripCrxHeader. destruct (negb _); [intros [= <-]; by left|].
  intros H. apply bind_Err_inv in H. destruct H as [H | (start & _ & H)].
  - apply zipStartOffset_Err in H. destruct H; auto.
  - destruct (start >=? blen buf); [|discriminate].
    injection H as <-. auto.
Qed.

Lemma parse_central_directory_Err (buf : buffer) (e : error) :
  parse_central_directory buf = Err e -> directory_failure e.
Proof.
  unfold parse_central_directory, find_eocd. intros H.
  apply bind_Err_inv in H. destruct H as [H | (pos & _ & H)].
  { (* the scan never fails *)
    destruct (find_eocd_spec buf) as [(p & _ & Hf & _) | (Hf & _)];
      unfold find_eocd in Hf; rewrite Hf in H; discriminate. }
  destruct (pos <? 0); [by injection H as <-|].
  apply bind_Err_inv in H. destruct H as [H | ([[total size] off] & _ & H)].
  { unfold read_eocd in H. peel_reads H; try discriminate;
      destruct H as [o ->]; done. }
  destruct (off + size >? blen buf); [by injection H as <-|].
  apply parse_cd_records_Err in H. destruct H as [[? ->] | [? ->]]; done.
Qed.

(** How a failed run of the extractor ended: in the directory, leaving the
    file system as it was; at the creation of the destination; or in the
    loop over the entries. *)
Lemma parseZipCentralDirectory_Err (inflate : buffer -> option buffer)
    (buf : buffer) (out : jsstring) (fs fs' : fs_state) (e : error) :
  parseZipCentralDirectory inflate buf out fs = (fs', Err e) ->
  (fs' = fs /\ directory_failure e)
  \/ (exists code, e = FsError code)
  \/ entry_failure e.
Proof.
  rewrite parseZipCentralDirectory_unfold. intros H.
  destruct (parse_central_directory buf) as [files|e0] eqn:Ecd.
  - destruct (mkdirSync fs out) as [fs0|e1] eqn:Emk.
    + right. right. by eapply extract_files_Err.
    + injection H as <- <-. right. left. by eapply mkdirSync_Err.
  - injection H as <- <-. left. split; [done|].
    by eapply parse_central_directory_Err.
Qed.

(** X1. The extraction ends in [InvalidMagic] exactly when the buffer does
    not start with the four octets of [Cr24] (a buffer shorter than four
    octets included), and then nothing is written. *)
Theorem invalid_magic_exactly (inflate : buffer -> option buffer)
    (crxBuffer : buffer) (outFolder : jsstring) (fs : fs_state) :
  ((extractCrxToFolder inflate crxBuffer outFolder fs).2 = Err InvalidMagic
   <-> take 4 crxBuffer <> buf_of_ascii "Cr24")
  /\ (take 4 crxBuffer <> buf_of_ascii "Cr24" ->
      extractCrxToFolder inflate crxBuffer outFolder fs
      = (fs, Err InvalidMagic)).
Proof.
  split; [split|].
  - intros Hres Hmagic. apply valid_magic_iff in Hmagic.
    unfold extractCrxToFolder in Hres.
    rewrite stripCrxHeader_valid_magic in Hres by done.
    destruct (zipStartOffset crxBuffer) as [start|e] eqn:Ez; cbn [bind] in Hres.
    + destruct (start >=? blen crxBuffer); [discriminate|].
      destruct (parseZipCentralDirectory inflate (slice_from crxBuffer start)
                  outFolder fs) as [fs' r] eqn:Ep.
      cbn in Hres. subst r.
      apply parseZipCentralDirectory_Err in Ep.
      destruct Ep as [[_ []] | [[? [=]] | []]].
    + cbn in Hres. injection Hres as ->.
      apply zipStartOffset_Err in Ez. destruct Ez as [[? [=]] | [? [=]]].
  - intros Hne. by rewrite extractCrxToFolder_invalid_magic.
  - apply extractCrxToFolder_invalid_magic.
Qed.

(** X2. A container that starts with [Cr24] and stops inside its header
    fields does not fail with [MalformedHeader]: the read that falls off
    the end raises [RangeError] at its offset (4 for the version, 8 for
    the first length, 12 for the signature length of version 2). *)
Theorem truncated_header_range_error (inflate : buffer -> option buffer)
    (crxBuffer : buffer) (outFolder : jsstring) (fs : fs_state) :
  take 4 crxBuffer = buf_of_ascii "Cr24" ->
  (blen crxBuffer < 8 ->
     extractCrxToFolder inflate crxBuffer outFolder fs
     = (fs, Err (RangeError 4)))
  /\ (forall version,
        readUInt32LE crxBuffer 4 = Ok version ->
        version = 2 \/ version = 3 \/ version = 4 ->
        blen crxBuffer < 12 ->
        extractCrxToFolder inflate crxBuffer outFolder fs
        = (fs, Err (RangeError 8)))
  /\ (readUInt32LE crxBuffer 4 = Ok 2 ->
      12 <= blen crxBuffer < 16 ->
      extractCrxToFolder inflate crxBuffer outFolder fs
      = (fs, Err (RangeError 12))).
Proof.
  intros Hmagic. apply valid_magic_iff in Hmagic.
  assert (Hx : forall e, zipStartOffset crxBuffer = Err e ->
                 extractCrxToFolder inflate crxBuffer outFolder fs = (fs, Err e)).
  { intros e He. unfold extractCrxToFolder.
    rewrite stripCrxHeader_valid_magic by done. by rewrite He. }
  split; [|split].
  - intros Hlen. apply Hx. unfold zipStartOffset.
    by rewrite readUInt32LE_out_of_range by lia.
  - intros version Hver Hsupported Hlen. apply Hx. unfold zipStartOffset.
    rewrite Hver. cbn [bind].
    destruct Hsupported as [-> | [-> | ->]]; cbn;
      by rewrite readUInt32LE_out_of_range by lia.
  - intros Hver Hlen. apply Hx. unfold zipStartOffset.
    rewrite Hver. cbn [bind Z.eqb Pos.eqb].
    destruct (readUInt32LE_in_range crxBuffer 8) as [pk ->]; [lia | lia |].
    cbn [bind]. by rewrite readUInt32LE_out_of_range by lia.
Qed.

Lemma truncated_header_range_error_witness :
  extractCrxToFolder inflate_stored magic_only ext ∅ = (∅, Err (RangeError 4))
  /\ extractCrxToFolder inflate_stored crx2_cut ext ∅
     = (∅, Err (RangeError 12)).
Proof.
  split.
  - destruct (truncated_header_range_error inflate_stored magic_only ext ∅)
      as (Hshort & _).
    + reflexivity.
    + apply Hshort. vm_compute. reflexivity.
  - destruct (truncated_header_range_error inflate_stored crx2_cut ext ∅)
      as (_ & _ & Hcut).
    + reflexivity.
    + apply Hcut; [vm_compute; reflexivity|]. vm_compute.
      split; [discriminate | reflexivity].
Defined.

Lemma extractCrxToFolder_early (inflate : buffer -> option buffer)
    (crxBuffer : buffer) (outFolder : jsstring) (fs fs' : fs_state)
    (e : error) :
  extractCrxToFolder inflate crxBuffer outFolder fs = (fs', Err e) ->
  early_failure e -> fs' = fs.
Proof.
  unfold extractCrxToFolder. intros Hrun Hearly.
  destruct (stripCrxHeader crxBuffer) as [zip|e0]; [|by injection Hrun as <- _].
  apply parseZipCentralDirectory_Err in Hrun.
  destruct Hrun as [[-> _] | [[code ->] | Hentry]]; [done | done |].
  destruct e; done.
Qed.

(** X3. A run that ends in a failure of the header or of the directory
    ([InvalidMagic], [UnsupportedVersion], [MalformedHeader],
    [DirectoryNotFound], [DirectoryOutOfRange],
    [DirectorySignatureMismatch]) has written nothing: not even the
    destination folder exists because of it. *)
Theorem early_failure_leaves_fs_untouched (inflate : buffer -> option buffer)
    (crxBuffer : buffer) (outFolder : jsstring) (fs fs' : fs_state)
    (e : error) :
  extractCrxToFolder inflate crxBuffer outFolder fs = (fs', Err e) ->
  early_failure e -> fs' = fs.
Proof. apply extractCrxToFolder_early. Qed.

Lemma early_failure_leaves_fs_untouched_witness :
  (extractCrxToFolder inflate_stored (build_crx3 [] (bare_eocd 23)) ext
     (<[fs_resolve (js_of_ascii "kept") := File []]> ∅)).1
  = <[fs_resolve (js_of_ascii "kept") := File []]> ∅.
Proof.
  apply (early_failure_leaves_fs_untouched inflate_stored
           (build_crx3 [] (bare_eocd 23)) ext _ _ DirectoryOutOfRange).
  - vm_compute. reflexivity.
  - exact I.
Defined.

(* ===================================================================== *)
(** * The fields of a directory record *)
(* ===================================================================== *)

Lemma readUInt16LE_Ok_at (buf : buffer) (p : Z) :
  0 <= p -> p + 2 <= blen buf -> readUInt16LE buf p = Ok (u16_at buf p).
Proof.
  intros H1 H2. unfold readUInt16LE, in_bounds, u16_at.
  replace (0 <=? p) with true by lia.
  replace (p + 2 <=? blen buf) with true by lia. done.
Qed.

Lemma readUInt32LE_Ok_at (buf : buffer) (p : Z) :
  0 <= p -> p + 4 <= blen buf -> readUInt32LE buf p = Ok (u32_at buf p).
Proof.
  intros H1 H2. unfold readUInt32LE, in_bounds, u32_at.
  replace (0 <=? p) with true by lia.
  replace (p + 4 <=? blen buf) with true by lia. done.
Qed.

Lemma readUInt16LE_Err_at (buf : buffer) (p : Z) (e : error) :
  readUInt16LE buf p = Err e -> e = RangeError p.
Proof.
  unfold readUInt16LE. destruct (in_bounds buf p 2); [discriminate|].
  by intros [= <-].
Qed.

Lemma readUInt32LE_Err_at (buf : buffer) (p : Z) (e : error) :
  readUInt32LE buf p = Err e -> e = RangeError p.
Proof.
  unfold readUInt32LE. destruct (in_bounds buf p 4); [discriminate|].
  by intros [= <-].
Qed.

(** X4. A directory record is read from its 46 fixed octets alone, at the
    offsets of the layout table in the source: flags at 8, method at 10,
    sizes at 20 and 24, the three lengths at 28, 30 and 32, the local
    header offset at 42.  The name is what the buffer still holds of the
    announced length, the extra field and the comment are skipped unread,
    and the next record is expected right after them.  When fewer than 46
    octets remain, the record fails with [RangeError], not with
    [DirectorySignatureMismatch]. *)
Theorem cd_record_fixed_part (zipBuffer : buffer) (ptr : Z) :
  0 <= ptr -> readUInt32LE zipBuffer ptr = Ok cdSig ->
  (ptr + 46 <= blen zipBuffer ->
     parse_cd_record zipBuffer ptr
     = Ok ({| filename :=
                utf8_decode
                  (slice zipBuffer (ptr + 46)
                     (ptr + 46 + u16_at zipBuffer (ptr + 28)));
              method := u16_at zipBuffer (ptr + 10);
              compSize := u32_at zipBuffer (ptr + 20);
              unCompSize := u32_at zipBuffer (ptr + 24);
              flags := u16_at zipBuffer (ptr + 8);
              localHeaderOffset := u32_at zipBuffer (ptr + 42) |},
           ptr + 46 + u16_at zipBuffer (ptr + 28)
             + u16_at zipBuffer (ptr + 30) + u16_at zipBuffer (ptr + 32)))
  /\ (blen zipBuffer < ptr + 46 ->
      exists off, ptr + 4 <= off <= ptr + 42
                  /\ blen zipBuffer < off + 4
                  /\ parse_cd_record zipBuffer ptr = Err (RangeError off)).
Proof.
  intros Hptr Hsig. split.
  - intros Hlen. unfold parse_cd_record. cbv zeta.
    rewrite Hsig. cbn [bind]. rewrite Z.eqb_refl. cbn [negb].
    rewrite (readUInt16LE_Ok_at zipBuffer (ptr + 4)) by lia.
    rewrite (readUInt16LE_Ok_at zipBuffer (ptr + 4 + 2)) by lia.
    rewrite (readUInt16LE_Ok_at zipBuffer (ptr + 4 + 2 + 2)) by lia.
    rewrite (readUInt16LE_Ok_at zipBuffer (ptr + 4 + 2 + 2 + 2)) by lia.
    rewrite (readUInt16LE_Ok_at zipBuffer (ptr + 4 + 2 + 2 + 2 + 2)) by lia.
    rewrite (readUInt16LE_Ok_at zipBuffer (ptr + 4 + 2 + 2 + 2 + 2 + 2)) by lia.
    rewrite (readUInt32LE_Ok_at zipBuffer (ptr + 4 + 2 + 2 + 2 + 2 + 2 + 2))
      by lia.
    rewrite (readUInt32LE_Ok_at zipBuffer (ptr + 4 + 2 + 2 + 2 + 2 + 2 + 2 + 4))
      by lia.
    rewrite (readUInt32LE_Ok_at zipBuffer
               (ptr + 4 + 2 + 2 + 2 + 2 + 2 + 2 + 4 + 4)) by lia.
    rewrite (readUInt16LE_Ok_at zipBuffer
               (ptr + 4 + 2 + 2 + 2 + 2 + 2 + 2 + 4 + 4 + 4)) by lia.
    rewrite (readUInt16LE_Ok_at zipBuffer
               (ptr + 4 + 2 + 2 + 2 + 2 + 2 + 2 + 4 + 4 + 4 + 2)) by lia.
    rewrite (readUInt16LE_Ok_at zipBuffer
               (ptr + 4 + 2 + 2 + 2 + 2 + 2 + 2 + 4 + 4 + 4 + 2 + 2)) by lia.
    rewrite (readUInt16LE_Ok_at zipBuffer
               (ptr + 4 + 2 + 2 + 2 + 2 + 2 + 2 + 4 + 4 + 4 + 2 + 2 + 2))
      by lia.
    rewrite (readUInt16LE_Ok_at zipBuffer
               (ptr + 4 + 2 + 2 + 2 + 2 + 2 + 2 + 4 + 4 + 4 + 2 + 2 + 2 + 2))
      by lia.
    rewrite (readUInt32LE_Ok_at zipBuffer
               (ptr + 4 + 2 + 2 + 2 + 2 + 2 + 2 + 4 + 4 + 4 + 2 + 2 + 2 + 2 + 2))
      by lia.
    rewrite (readUInt32LE_Ok_at zipBuffer
               (ptr + 4 + 2 + 2 + 2 + 2 + 2 + 2 + 4 + 4 + 4 + 2 + 2 + 2 + 2 + 2
                + 4)) by lia.
    cbn [bind]. unfold toString_utf8.
    replace (ptr + 4 + 2 + 2) with (ptr + 8) by lia.
    replace (ptr + 8 + 2) with (ptr + 10) by lia.
    replace (ptr + 10 + 2 + 2 + 2 + 4) with (ptr + 20) by lia.
    replace (ptr + 20 + 4) with (ptr + 24) by lia.
    replace (ptr + 24 + 4) with (ptr + 28) by lia.
    replace (ptr + 28 + 2) with (ptr + 30) by lia.
    replace (ptr + 30 + 2) with (ptr + 32) by lia.
    replace (ptr + 32 + 2 + 2 + 2 + 4) with (ptr + 42) by lia.
    replace (ptr + 42 + 4) with (ptr + 46) by lia.
    done.
  - intros Hlen.
    destruct (parse_cd_record zipBuffer ptr) as [[file ptr']|e] eqn:Hrec.
    + exfalso. unfold parse_cd_record in Hrec. cbv zeta in Hrec.
      rewrite Hsig in Hrec. cbn [bind] in Hrec.
      rewrite Z.eqb_refl in Hrec. cbn [negb] in Hrec.
      do 15 (apply bind_Ok_inv in Hrec; destruct Hrec as (? & _ & Hrec)).
      apply bind_Ok_inv in Hrec. destruct Hrec as (off & Hoff & _).
      apply readUInt32LE_Ok_inv in Hoff. lia.
    + unfold parse_cd_record in Hrec. cbv zeta in Hrec.
      rewrite Hsig in Hrec. cbn [bind] in Hrec.
      rewrite Z.eqb_refl in Hrec. cbn [negb] in Hrec.
      repeat (apply bind_Err_inv in Hrec;
              destruct Hrec as [Hrec | (? & _ & Hrec)];
              [ first [ pose proof (readUInt16LE_Err_at _ _ _ Hrec) as ->;
                        unfold readUInt16LE, in_bounds in Hrec
                      | pose proof (readUInt32LE_Err_at _ _ _ Hrec) as ->;
                        unfold readUInt32LE, in_bounds in Hrec ];
                eexists; split; [|split; [|reflexivity]];
                [ lia
                | destruct (_ <=? _) eqn:E1 in Hrec;
                  [ destruct (_ <=? _) eqn:E2 in Hrec; [discriminate | lia]
                  | lia ] ]
              | ]).
      discriminate.
Qed.

Lemma cd_record_fixed_part_witness :
  parse_cd_record sample_cut_name 138
  = Ok ({| filename := js_of_ascii "asse"; method := 0; compSize := 0;
           unCompSize := 0; flags := 0; localHeaderOffset := 0 |}, 191)
  /\ exists off, parse_cd_record sample_cut_record 138 = Err (RangeError off).
Proof.
  split.
  - destruct (cd_record_fixed_part sample_cut_name 138) as (Hfixed & _).
    + lia.
    + vm_compute. reflexivity.
    + etrans; [apply Hfixed; vm_compute; discriminate|].
      vm_compute. reflexivity.
  - destruct (cd_record_fixed_part sample_cut_record 138) as (_ & Hshort).
    + lia.
    + vm_compute. reflexivity.
    + destruct Hshort as (off & _ & _ & Hrec); [vm_compute; reflexivity|].
      by exists off.
Defined.

(* ===================================================================== *)
(** * Round trips of the two codecs *)
(* ===================================================================== *)

Lemma descriptors_filename (off : Z) (es : list zip_entry) :
  map filename (descriptors off es)
  = map (fun e => utf8_decode (ze_name e)) es.
Proof.
  revert off. induction es as [|e es IH]; intros off; [done|].
  cbn [descriptors map]. by rewrite IH.
Qed.

Lemma descriptors_method (off : Z) (es : list zip_entry) :
  map method (descriptors off es) = map ze_method es.
Proof.
  revert off. induction es as [|e es IH]; intros off; [done|].
  cbn [descriptors map]. by rewrite IH.
Qed.

Lemma descriptors_lookup (es : list zip_entry) (off : Z) (i : nat)
    (e : zip_entry) :
  es !! i = Some e ->
  descriptors off es !! i
  = Some (descriptor (off + blen (local_records (take i es))) e).
Proof.
  revert off i. induction es as [|e' es IH]; intros off i Hi; [done|].
  destruct i as [|i].
  - injection Hi as ->. cbn. rewrite blen_nil. do 2 f_equal. lia.
  - cbn [descriptors lookup list_lookup] in *.
    rewrite (IH _ _ Hi). cbn [take local_records]. rewrite blen_app.
    do 2 f_equal. lia.
Qed.

(** X5. The directory codec round trip: the directory of an archive laid
    out as the format prescribes, whose fields fit their widths, and in
    which no four octets that start after the first octet of the end
    record read as its signature (the fields of the record and the
    comment taken together: a signature may straddle the two), is read
    back entry for entry, in order, with the names decoded, whatever the
    other header fields hold. *)
Theorem directory_round_trip (es : list zip_entry) (comment : buffer) :
  archive_fits es comment ->
  no_signature_after (build_zip es comment) (eocd_offset es) ->
  parse_central_directory (build_zip es comment) = Ok (descriptors 0 es)
  /\ length (descriptors 0 es) = length es
  /\ map filename (descriptors 0 es)
     = map (fun e => utf8_decode (ze_name e)) es
  /\ map method (descriptors 0 es) = map ze_method es.
Proof.
  intros Hfits Hnone. split; [by apply parse_central_directory_build_zip|].
  split; [apply descriptors_length|]. split; [apply descriptors_filename|].
  apply descriptors_method.
Qed.

Lemma directory_round_trip_witness :
  parse_central_directory sample_zip = Ok (descriptors 0 sample_entries)
  /\ map filename (descriptors 0 sample_entries)
     = [js_of_ascii "assets/"; js_of_ascii "manifest.json";
        js_of_ascii "assets/js/app.js"].
Proof.
  destruct (directory_round_trip sample_entries []) as (Hcd & _ & _ & _).
  - unfold archive_fits, entry_fits. apply (bool_decide_unpack _).
    vm_compute. exact I.
  - apply (bool_decide_unpack _). vm_compute. exact I.
  - split; [exact Hcd | vm_compute; reflexivity].
Defined.

(** X6. The data round trip: for every entry of a laid-out archive, the
    data read through its directory record is the data stored, whatever
    the local header holds in its own fields (sizes left at zero, another
    name, an extra field of any length). *)
Theorem payload_round_trip (es : list zip_entry) (comment : buffer)
    (i : nat) (e : zip_entry) :
  es !! i = Some e -> entry_fits e ->
  descriptors 0 es !! i = Some (descriptor (entry_offset es i) e)
  /\ local_file_data (build_zip es comment) (descriptor (entry_offset es i) e)
     = Ok (ze_payload e).
Proof.
  intros Hi Hfits. split.
  - rewrite (descriptors_lookup es 0 i e Hi). unfold entry_offset.
    do 2 f_equal.
  - unfold entry_offset.
    apply (local_file_data_at _
             (local_records (drop (S i) es) ++ central_records 0 es
                ++ eocd_record (Z.of_nat (length es))
                     (blen (central_records 0 es))
                     (blen (local_records es)) comment));
      [apply blen_nonneg | done |].
    assert (Hes : local_records es
                  = local_records (take i es)
                      ++ local_record e ++ local_records (drop (S i) es)).
    { rewrite <- (take_drop_middle es i e Hi) at 1.
      by rewrite local_records_app. }
    unfold build_zip. rewrite Hes at 1.
    rewrite <- !app_assoc. apply drop_app_length'. unfold blen. lia.
Qed.

Lemma payload_round_trip_witness :
  entry_offset odd_local_entries 1 = 36
  /\ local_file_data (build_zip odd_local_entries [])
       (descriptor 36 odd_local_entry)
     = Ok (buf_of_ascii "payload").
Proof.
  split; [vm_compute; reflexivity|].
  destruct (payload_round_trip odd_local_entries [] 1 odd_local_entry)
    as (_ & Hdata).
  - reflexivity.
  - unfold entry_fits. apply (bool_decide_unpack _). vm_compute. exact I.
  - exact Hdata.
Defined.

Lemma stripCrxHeader_build_crx3_witness :
  stripCrxHeader crx3_sample = Ok sample_zip.
Proof.
  apply (stripCrxHeader_build_crx3 (bytes_of [1; 2; 3; 4; 5]) sample_zip).
  - vm_compute. reflexivity.
  - vm_compute. discriminate.
Defined.

Lemma stripCrxHeader_build_crx2_witness :
  stripCrxHeader crx2_sample = Ok sample_zip.
Proof.
  apply (stripCrxHeader_build_crx2 (bytes_of [1; 2; 3]) (bytes_of [4; 5])
           sample_zip).
  - vm_compute. reflexivity.
  - vm_compute. reflexivity.
  - vm_compute. discriminate.
Defined.
(* ===================================================================== *)
(** * What one entry does to the file system *)
(* ===================================================================== *)

(** How the body of the loop ends for [file]: before anything is made; at
    or after the call that makes its directory, with what that call has
    made; or with the file written. *)
Lemma extract_file_inv (inflate : buffer -> option buffer) (buf : buffer)
    (out : jsstring) (file : zip_file) (fs fs' : fs_state) (r : result unit) :
  extract_file inflate buf out file fs = (fs', r) ->
  (fs' = fs /\ r <> Ok tt)
  \/ (exists rm,
        mkdir_recursive fs
          (if endsWith_slash (filename file) then file_dest out file
           else path_dirname (file_dest out file)) = (fs', rm)
        /\ (r = Ok tt -> endsWith_slash (filename file) = true /\ rm = Ok tt))
  \/ (endsWith_slash (filename file) = false /\ r = Ok tt
      /\ exists fs1 payload data,
           local_file_data buf file = Ok payload
           /\ decode_payload inflate (method file) payload = Some data
           /\ mkdirSync fs (path_dirname (file_dest out file)) = Ok fs1
           /\ writeFileSync fs1 (file_dest out file) data = Ok fs').
Proof.
  unfold extract_file, file_dest, decode_payload, fs_step. intros H.
  destruct (endsWith_slash (filename file)) eqn:Hname.
  - right. left. exists r. split; [done|]. by intros ->.
  - destruct (local_file_data buf file) as [payload|e] eqn:Edata;
      [|injection H as <- <-; by left].
    cbv zeta in H.
    destruct (mkdir_recursive fs _) as [fs1 [[]|e]] eqn:Emk.
    2:{ injection H as <- <-. right. left. exists (Err e). done. }
    assert (Hdir : forall e, (fs1, @Err unit e) = (fs', r) ->
              exists rm, (fs1, Ok tt) = (fs', rm)
                         /\ (r = Ok tt -> false = true /\ rm = Ok tt)).
    { intros e [= <- <-]. by exists (Ok tt). }
    apply mkdirSync_Ok_run in Emk.
    destruct (method file =? 0) eqn:E0.
    + destruct (writeFileSync fs1 _ payload) as [fs2|e] eqn:Ew.
      * injection H as <- <-. right. right. split; [done|]. split; [done|].
        exists fs1, payload, payload. done.
      * right. left. by apply (Hdir e).
    + destruct (method file =? 8) eqn:E8.
      * destruct (inflate payload) as [data|] eqn:Einf.
        -- destruct (writeFileSync fs1 _ data) as [fs2|e] eqn:Ew.
           ++ injection H as <- <-. right. right. split; [done|]. split; [done|].
              exists fs1, payload, data. done.
           ++ right. left. by apply (Hdir e).
        -- right. left. by apply (Hdir DecompressionFailed).
      * right. left. by eapply Hdir.
Qed.

Lemma mkdir_recursive_keeps_kinds (fs fs' : fs_state) (p : jsstring)
    (r : result unit) (k : fs_key) :
  mkdir_recursive fs p = (fs', r) ->
  (fs_lookup fs k = Some Dir -> fs_lookup fs' k = Some Dir)
  /\ (forall data, fs_lookup fs k = Some (File data) ->
                   fs_lookup fs' k = Some (File data)).
Proof.
  intros H.
  destruct (mkdir_recursive_lookup _ _ _ _ k H) as [-> | (_ & Hfree & ->)];
    [done|].
  split; [done|]. intros data Hfile. by rewrite Hfile in Hfree.
Qed.

Lemma mkdirSync_keeps_kinds (fs fs' : fs_state) (p : jsstring) (k : fs_key) :
  mkdirSync fs p = Ok fs' ->
  (fs_lookup fs k = Some Dir -> fs_lookup fs' k = Some Dir)
  /\ (forall data, fs_lookup fs k = Some (File data) ->
                   fs_lookup fs' k = Some (File data)).
Proof.
  intros Hmk%mkdirSync_Ok_run. by eapply mkdir_recursive_keeps_kinds.
Qed.

Lemma writeFileSync_keeps_kinds (fs fs' : fs_state) (p : jsstring)
    (data : buffer) (k : fs_key) :
  writeFileSync fs p data = Ok fs' ->
  (fs_lookup fs k = Some Dir -> fs_lookup fs' k = Some Dir)
  /\ (is_file (fs_lookup fs k) = true -> is_file (fs_lookup fs' k) = true).
Proof.
  intros Hw. rewrite (writeFileSync_Ok _ _ _ _ Hw).
  destruct (writeFileSync_Ok_inv _ _ _ _ Hw) as (_ & Hnotdir & _).
  case_bool_decide as Hk; [|done]. subst k. split; [|done].
  intros Hdir. by rewrite Hdir in Hnotdir.
Qed.

Lemma is_file_File (o : option fs_node) (data : buffer) :
  o = Some (File data) -> is_file o = true.
Proof. by intros ->. Qed.

Lemma is_file_true (o : option fs_node) :
  is_file o = true -> exists data, o = Some (File data).
Proof. destruct o as [[|data]|]; try done. by exists data. Qed.

Lemma extract_file_keeps_kinds (inflate : buffer -> option buffer)
    (buf : buffer) (out : jsstring) (file : zip_file) (fs fs' : fs_state)
    (r : result unit) (k : fs_key) :
  extract_file inflate buf out file fs = (fs', r) ->
  (fs_lookup fs k = Some Dir -> fs_lookup fs' k = Some Dir)
  /\ (is_file (fs_lookup fs k) = true -> is_file (fs_lookup fs' k) = true).
Proof.
  intros H. apply extract_file_inv in H.
  destruct H as [[-> _] | [(rm & Hmk & _) | (_ & _ & fs1 & payload & data & _ & _ & Hmk & Hw)]].
  - done.
  - destruct (mkdir_recursive_keeps_kinds _ _ _ _ k Hmk) as [Hd Hf].
    split; [done|]. intros [data Hfile]%is_file_true.
    by rewrite (Hf data Hfile).
  - destruct (mkdirSync_keeps_kinds _ _ _ k Hmk) as [Hd Hf].
    destruct (writeFileSync_keeps_kinds _ _ _ _ k Hw) as [Hd' Hf'].
    split; [auto|]. intros [d Hfile]%is_file_true.
    apply Hf'. by rewrite (Hf d Hfile).
Qed.

Lemma extract_files_keeps_kinds (inflate : buffer -> option buffer)
    (buf : buffer) (out : jsstring) (files : list zip_file)
    (fs fs' : fs_state) (r : result unit) (k : fs_key) :
  extract_files inflate buf out files fs = (fs', r) ->
  (fs_lookup fs k = Some Dir -> fs_lookup fs' k = Some Dir)
  /\ (is_file (fs_lookup fs k) = true -> is_file (fs_lookup fs' k) = true).
Proof.
  revert fs. induction files as [|file files IH]; intros fs H.
  - by injection H as <- <-.
  - cbn [extract_files] in H.
    destruct (extract_file inflate buf out file fs) as [fs1 [[]|e]] eqn:E.
    + destruct (extract_file_keeps_kinds _ _ _ _ _ _ _ k E) as [Hd Hf].
      destruct (IH _ H) as [Hd' Hf']. split; auto.
    + injection H as <- <-. by apply (extract_file_keeps_kinds _ _ _ _ _ _ _ k E).
Qed.

Lemma extract_file_frame (inflate : buffer -> option buffer) (buf : buffer)
    (out : jsstring) (file : zip_file) (fs fs' : fs_state) (r : result unit)
    (k : fs_key) :
  extract_file inflate buf out file fs = (fs', r) ->
  k ∉ file_touches out file -> fs' !! k = fs !! k.
Proof.
  intros H Hk. apply extract_file_inv in H. unfold file_touches in Hk.
  destruct H as [[-> _] | [(rm & Hmk & _) | (Hname & _ & fs1 & payload & data & _ & _ & Hmk & Hw)]].
  - done.
  - apply (mkdir_recursive_frame _ _ _ _ _ Hmk).
    intros Hin. apply Hk.
    destruct (endsWith_slash (filename file)); [done|].
    apply elem_of_app. by left.
  - rewrite Hname in Hk.
    apply mkdirSync_Ok_inv in Hmk. destruct Hmk as [-> _].
    apply writeFileSync_Ok_inv in Hw. destruct Hw as [-> _].
    rewrite lookup_insert_ne.
    + rewrite insert_dirs_lookup. rewrite bool_decide_eq_false_2; [done|].
      intros Hin. apply Hk. apply elem_of_app. by left.
    + intros <-. apply Hk. apply elem_of_app. right. by left.
Qed.

Lemma extract_files_frame (inflate : buffer -> option buffer) (buf : buffer)
    (out : jsstring) (files : list zip_file) (fs fs' : fs_state)
    (r : result unit) (k : fs_key) :
  extract_files inflate buf out files fs = (fs', r) ->
  k ∉ files_touch out files -> fs' !! k = fs !! k.
Proof.
  revert fs. induction files as [|file files IH]; intros fs H Hk.
  - by injection H as <- <-.
  - cbn [extract_files files_touch] in *.
    assert ((k ∉ file_touches out file) /\ (k ∉ files_touch out files))
      as [Hk1 Hk2].
    { split; intros Hin; apply Hk; apply elem_of_app; auto. }
    destruct (extract_file inflate buf out file fs) as [fs1 [[]|e]] eqn:E.
    + rewrite (IH _ H Hk2). by eapply extract_file_frame.
    + injection H as <- <-. by eapply extract_file_frame.
Qed.

Lemma extract_files_app_Ok (inflate : buffer -> option buffer) (buf : buffer)
    (out : jsstring) (before rest : list zip_file) (fs fs' : fs_state) :
  extract_files inflate buf out (before ++ rest) fs = (fs', Ok tt) ->
  exists fs1, extract_files inflate buf out before fs = (fs1, Ok tt)
              /\ extract_files inflate buf out rest fs1 = (fs', Ok tt).
Proof.
  rewrite extract_files_app. intros H.
  destruct (extract_files inflate buf out before fs) as [fs1 [[]|e]];
    [by exists fs1 | discriminate].
Qed.

Lemma parseZipCentralDirectory_Ok_inv (inflate : buffer -> option buffer)
    (buf : buffer) (out : jsstring) (fs fs' : fs_state) (files : list zip_file)
    (r : result unit) :
  parse_central_directory buf = Ok files ->
  parseZipCentralDirectory inflate buf out fs = (fs', r) ->
  (exists e, mkdir_recursive fs out = (fs', Err e) /\ r = Err e)
  \/ exists fs0, mkdirSync fs out = Ok fs0
                 /\ extract_files inflate buf out files fs0 = (fs', r).
Proof.
  rewrite parseZipCentralDirectory_unfold. intros -> H.
  destruct (mkdirSync fs out) as [fs0|e] eqn:Hmk.
  - right. by exists fs0.
  - injection H as <- <-. left. exists e. split; [|done].
    by apply mkdirSync_Err_run.
Qed.

(* ===================================================================== *)
(** * What a run leaves behind *)
(* ===================================================================== *)

Lemma extract_file_Err_files (inflate : buffer -> option buffer)
    (buf : buffer) (out : jsstring) (file : zip_file) (fs fs' : fs_state)
    (e : error) (k : fs_key) (data : buffer) :
  extract_file inflate buf out file fs = (fs', Err e) ->
  fs_lookup fs' k = Some (File data) <-> fs_lookup fs k = Some (File data).
Proof.
  intros H. apply extract_file_inv in H.
  destruct H as [[-> _] | [(rm & Hmk & _) | (_ & [=] & _)]]; [done|].
  by eapply mkdir_recursive_files.
Qed.

(** X9. The first entry that fails ends the run with its own failure,
    whatever that failure is (a damaged local header, a read off the
    buffer, a refused directory or file, a stream that does not inflate, an
    unknown method).  The entries after it are not looked at, the failing
    entry has left no file of its own (at most its directories), and what
    the entries before it wrote stays. *)
Theorem first_failure_ends_run (inflate : buffer -> option buffer)
    (zipBuffer : buffer) (outFolder : jsstring)
    (before after : list zip_file) (file : zip_file)
    (fs fs0 fs1 fs2 : fs_state) (e : error) :
  parse_central_directory zipBuffer = Ok (before ++ file :: after) ->
  mkdirSync fs outFolder = Ok fs0 ->
  extract_files inflate zipBuffer outFolder before fs0 = (fs1, Ok tt) ->
  extract_file inflate zipBuffer outFolder file fs1 = (fs2, Err e) ->
  parseZipCentralDirectory inflate zipBuffer outFolder fs = (fs2, Err e)
  /\ (forall k data,
        fs_lookup fs2 k = Some (File data) <-> fs_lookup fs1 k = Some (File data)).
Proof.
  intros Hcd Hmk Hbefore Hfile. split.
  - rewrite parseZipCentralDirectory_unfold, Hcd, Hmk.
    rewrite extract_files_app, Hbefore. cbn [extract_files]. by rewrite Hfile.
  - intros k data. by eapply extract_file_Err_files.
Qed.

Lemma first_failure_ends_run_witness :
  parseZipCentralDirectory inflate_stored damaged_zip ext ∅
  = (<[fs_resolve (js_of_ascii "ext/a.txt") := File (buf_of_ascii "A")]>
       (insert_dirs (key_prefixes (fs_resolve ext)) ∅),
     Err (LocalHeaderSignatureMismatch 36 (js_of_ascii "b.txt"))).
Proof.
  destruct (first_failure_ends_run inflate_stored damaged_zip ext
              [two_files_first] [] two_files_second ∅
              (insert_dirs (key_prefixes (fs_resolve ext)) ∅)
              (<[fs_resolve (js_of_ascii "ext/a.txt") := File (buf_of_ascii "A")]>
                 (insert_dirs (key_prefixes (fs_resolve ext)) ∅))
              (<[fs_resolve (js_of_ascii "ext/a.txt") := File (buf_of_ascii "A")]>
                 (insert_dirs (key_prefixes (fs_resolve ext)) ∅))
              (LocalHeaderSignatureMismatch 36 (js_of_ascii "b.txt")))
    as [Hrun _].
  - by_evaluation.
  - by_evaluation.
  - by_evaluation.
  - by_evaluation.
  - exact Hrun.
Defined.

Lemma extractCrxToFolder_keeps_kinds (inflate : buffer -> option buffer)
    (crxBuffer : buffer) (outFolder : jsstring) (fs fs' : fs_state)
    (r : result unit) (k : fs_key) :
  extractCrxToFolder inflate crxBuffer outFolder fs = (fs', r) ->
  (fs_lookup fs k = Some Dir -> fs_lookup fs' k = Some Dir)
  /\ (is_file (fs_lookup fs k) = true -> is_file (fs_lookup fs' k) = true).
Proof.
  unfold extractCrxToFolder, parseZipCentralDirectory. intros H.
  destruct (stripCrxHeader crxBuffer) as [zip|e0]; [|by injection H as <- <-].
  destruct (parse_central_directory zip) as [files|e1];
    [|by injection H as <- <-].
  destruct (mkdir_recursive fs outFolder) as [fs0 rm] eqn:Emk.
  destruct (mkdir_recursive_keeps_kinds _ _ _ _ k Emk) as [Hd Hf].
  assert ((fs_lookup fs0 k = Some Dir -> fs_lookup fs' k = Some Dir)
          /\ (is_file (fs_lookup fs0 k) = true ->
              is_file (fs_lookup fs' k) = true)) as [Hd' Hf'].
  { destruct rm as [[]|e2]; [|by injection H as <- <-].
    apply (extract_files_keeps_kinds _ _ _ _ _ _ _ k H). }
  split; [auto|]. intros [data Hfile]%is_file_true.
  apply Hf'. by rewrite (Hf data Hfile).
Qed.

(** X10. Whatever the outcome of a run, it removes nothing and changes the
    kind of nothing: what was a directory before is a directory after,
    and what was a file is a file (whose content may have been
    replaced). *)
Theorem run_keeps_kinds (inflate : buffer -> option buffer)
    (crxBuffer : buffer) (outFolder : jsstring) (fs fs' : fs_state)
    (r : result unit) (k : fs_key) :
  extractCrxToFolder inflate crxBuffer outFolder fs = (fs', r) ->
  (fs_lookup fs k = Some Dir -> fs_lookup fs' k = Some Dir)
  /\ (is_file (fs_lookup fs k) = true -> is_file (fs_lookup fs' k) = true).
Proof. apply extractCrxToFolder_keeps_kinds. Qed.

Lemma run_keeps_kinds_witness :
  fs_lookup
    (extractCrxToFolder inflate_stored crx3_sample ext busy_fs).1
    (fs_resolve (js_of_ascii "ext/assets")) = Some Dir
  /\ is_file
       (fs_lookup
          (extractCrxToFolder inflate_stored crx3_sample ext busy_fs).1
          (fs_resolve (js_of_ascii "notes.txt"))) = true.
Proof.
  split.
  - apply (run_keeps_kinds inflate_stored crx3_sample ext busy_fs _
             (extractCrxToFolder inflate_stored crx3_sample ext busy_fs).2).
    + by destruct (extractCrxToFolder inflate_stored crx3_sample ext busy_fs).
    + vm_compute. reflexivity.
  - apply (run_keeps_kinds inflate_stored crx3_sample ext busy_fs _
             (extractCrxToFolder inflate_stored crx3_sample ext busy_fs).2).
    + by destruct (extractCrxToFolder inflate_stored crx3_sample ext busy_fs).
    + vm_compute. reflexivity.
Defined.

(** X11. A run writes only where its entries lead.  Take the locations
    gone through on the way along the destination folder, as the system
    walks it, the joined paths of the entries and the locations gone
    through on the way to them.  When these and [k] are grounded (they
    hang from where the destination hangs from and are reached without
    [..], so that different keys are different locations) and [k] is none
    of them, [k] holds after the run, successful or not, what it held
    before. *)
Theorem run_writes_only_its_paths (inflate : buffer -> option buffer)
    (zipBuffer : buffer) (outFolder : jsstring) (files : list zip_file)
    (fs : fs_state) (k : fs_key) :
  parse_central_directory zipBuffer = Ok files ->
  Forall (grounded outFolder) (k :: run_touches outFolder files) ->
  k ∉ run_touches outFolder files ->
  (parseZipCentralDirectory inflate zipBuffer outFolder fs).1 !! k = fs !! k.
Proof.
  intros Hcd _ Hk.
  destruct (parseZipCentralDirectory inflate zipBuffer outFolder fs)
    as [fs' r] eqn:Hrun. cbn [fst].
  unfold run_touches in Hk.
  assert (Hout : k ∉ path_steps outFolder).
  { intros Hin. apply Hk. apply elem_of_app. by left. }
  destruct (parseZipCentralDirectory_Ok_inv _ _ _ _ _ _ _ Hcd Hrun)
    as [(e & Hmk & _) | (fs0 & Hmk & Hloop)].
  - by apply (mkdir_recursive_frame _ _ _ _ _ Hmk).
  - rewrite (extract_files_frame _ _ _ _ _ _ _ k Hloop).
    + apply mkdirSync_Ok_run in Hmk.
      by apply (mkdir_recursive_frame _ _ _ _ _ Hmk).
    + intros Hin. apply Hk. apply elem_of_app. by right.
Qed.

Lemma run_writes_only_its_paths_witness :
  (parseZipCentralDirectory inflate_stored sample_zip ext busy_fs).1
    !! fs_resolve (js_of_ascii "notes.txt")
  = Some (File (buf_of_ascii "mine")).
Proof.
  rewrite (run_writes_only_its_paths inflate_stored sample_zip ext
             (descriptors 0 sample_entries) busy_fs).
  - vm_compute. reflexivity.
  - vm_compute. reflexivity.
  - unfold grounded. by_evaluation.
  - by_evaluation.
Defined.

Lemma extract_file_keeps_content (inflate : buffer -> option buffer)
    (buf : buffer) (out : jsstring) (file file' : zip_file)
    (fs fs' : fs_state) (r : result unit) (data : buffer) :
  extract_file inflate buf out file' fs = (fs', r) ->
  writes_elsewhere out file file' ->
  fs_lookup fs (fs_resolve (file_dest out file)) = Some (File data) ->
  fs_lookup fs' (fs_resolve (file_dest out file)) = Some (File data).
Proof.
  intros H Helse Hfile. apply extract_file_inv in H.
  destruct H as [[-> _] | [(rm & Hmk & _) | (Hname & _ & fs1 & payload & d & _ & _ & Hmk & Hw)]].
  - done.
  - by apply (mkdir_recursive_keeps_kinds _ _ _ _ _ Hmk).
  - rewrite (writeFileSync_Ok _ _ _ _ Hw).
    destruct Helse as [Hmarker | (Hne & _ & _)]; [congruence|].
    rewrite bool_decide_eq_false_2 by congruence.
    by apply (mkdirSync_keeps_kinds _ _ _ _ Hmk).
Qed.

Lemma extract_files_keeps_content (inflate : buffer -> option buffer)
    (buf : buffer) (out : jsstring) (file : zip_file) (files : list zip_file)
    (fs fs' : fs_state) (r : result unit) (data : buffer) :
  extract_files inflate buf out files fs = (fs', r) ->
  Forall (writes_elsewhere out file) files ->
  fs_lookup fs (fs_resolve (file_dest out file)) = Some (File data) ->
  fs_lookup fs' (fs_resolve (file_dest out file)) = Some (File data).
Proof.
  revert fs. induction files as [|file' files IH]; intros fs H Helse Hfile.
  - by injection H as <- <-.
  - apply Forall_cons in Helse. destruct Helse as [Helse1 Helse].
    cbn [extract_files] in H.
    destruct (extract_file inflate buf out file' fs) as [fs1 [[]|e]] eqn:E.
    + apply (IH _ H Helse). by eapply extract_file_keeps_content.
    + injection H as <- <-. by eapply extract_file_keeps_content.
Qed.

(** X12. After a successful run, the file of a regular entry holds the
    decoded data of that entry, provided every later entry is a directory
    marker or has its file at another location (both locations grounded,
    so that different keys are different locations).  So, of two entries
    with one destination, it is the later one whose data stays. *)
Theorem later_entry_wins (inflate : buffer -> option buffer)
    (zipBuffer : buffer) (outFolder : jsstring)
    (before after : list zip_file) (file : zip_file) (fs fs' : fs_state)
    (payload data : buffer) :
  parse_central_directory zipBuffer = Ok (before ++ file :: after) ->
  parseZipCentralDirectory inflate zipBuffer outFolder fs = (fs', Ok tt) ->
  endsWith_slash (filename file) = false ->
  local_file_data zipBuffer file = Ok payload ->
  decode_payload inflate (method file) payload = Some data ->
  Forall (writes_elsewhere outFolder file) after ->
  fs_lookup fs' (fs_resolve (file_dest outFolder file)) = Some (File data).
Proof.
  intros Hcd Hrun Hname Hpayload Hdata Helse.
  destruct (parseZipCentralDirectory_Ok_inv _ _ _ _ _ _ _ Hcd Hrun)
    as [(e & _ & [=]) | (fs0 & Hmk & Hloop)].
  apply extract_files_app_Ok in Hloop. destruct Hloop as (fs1 & _ & Hloop).
  cbn [extract_files] in Hloop.
  destruct (extract_file inflate zipBuffer outFolder file fs1)
    as [fs2 [[]|e]] eqn:Hfile; [|discriminate].
  apply (extract_files_keeps_content _ _ _ _ _ _ _ _ _ Hloop Helse).
  apply extract_file_inv in Hfile.
  destruct Hfile as [[_ Hne] | [(rm & _ & Hok) | (_ & _ & s1 & payload' & data' & Hp & Hd & _ & Hw)]].
  - done.
  - destruct (Hok eq_refl) as [? _]. congruence.
  - rewrite Hpayload in Hp. injection Hp as <-.
    rewrite Hdata in Hd. injection Hd as <-.
    rewrite (writeFileSync_Ok _ _ _ _ Hw). by rewrite bool_decide_eq_true_2.
Qed.

Lemma later_entry_wins_witness :
  fs_lookup (parseZipCentralDirectory inflate_stored twice_zip ext ∅).1
    (fs_resolve (js_of_ascii "ext/a.txt"))
  = Some (File (buf_of_ascii "second"))
  /\ fs_lookup (parseZipCentralDirectory inflate_stored two_files_zip ext ∅).1
       (fs_resolve (js_of_ascii "ext/a.txt"))
     = Some (File (buf_of_ascii "A")).
Proof.
  split.
  - apply (later_entry_wins inflate_stored twice_zip ext [twice_first] []
             twice_second ∅ _ (buf_of_ascii "second") (buf_of_ascii "second")).
    + vm_compute. reflexivity.
    + run_succeeds.
    + vm_compute. reflexivity.
    + vm_compute. reflexivity.
    + vm_compute. reflexivity.
    + constructor.
  - apply (later_entry_wins inflate_stored two_files_zip ext []
             [two_files_second] two_files_first ∅ _
             (buf_of_ascii "A") (buf_of_ascii "A")).
    + vm_compute. reflexivity.
    + run_succeeds.
    + vm_compute. reflexivity.
    + vm_compute. reflexivity.
    + vm_compute. reflexivity.
    + unfold writes_elsewhere, grounded. by_evaluation.
Defined.

Lemma extract_files_makes_destinations (inflate : buffer -> option buffer)
    (buf : buffer) (out : jsstring) (files : list zip_file)
    (fs fs' : fs_state) :
  extract_files inflate buf out files fs = (fs', Ok tt) ->
  Forall (destination_made out fs') files.
Proof.
  revert fs. induction files as [|file files IH]; intros fs H; [done|].
  cbn [extract_files] in H.
  destruct (extract_file inflate buf out file fs) as [fs1 [[]|e]] eqn:E;
    [|discriminate].
  constructor; [|by eapply IH].
  assert (destination_made out fs1 file) as Hmade.
  { unfold destination_made. apply extract_file_inv in E.
    destruct E as [[_ Hne] | [(rm & Hmk & Hok) | (Hname & _ & s1 & payload & data & _ & _ & _ & Hw)]].
    - done.
    - destruct (Hok eq_refl) as [Hmarker ->]. rewrite Hmarker in *.
      apply mkdirSync_Ok_run in Hmk. rewrite (mkdirSync_Ok _ _ _ Hmk).
      rewrite bool_decide_eq_true_2; [done | apply path_steps_self].
    - rewrite Hname, (writeFileSync_Ok _ _ _ _ Hw).
      by rewrite bool_decide_eq_true_2. }
  unfold destination_made in *.
  destruct (extract_files_keeps_kinds _ _ _ _ _ _ _
              (fs_resolve (file_dest out file)) H) as [Hd Hf].
  destruct (endsWith_slash (filename file)); auto.
Qed.

(** X14. After a successful run, the destination folder is a directory,
    the path of every directory marker is a directory and the path of
    every regular entry is a file, however the names of the entries relate
    to one another. *)
Theorem success_makes_every_destination (inflate : buffer -> option buffer)
    (zipBuffer : buffer) (outFolder : jsstring) (files : list zip_file)
    (fs fs' : fs_state) :
  parse_central_directory zipBuffer = Ok files ->
  parseZipCentralDirectory inflate zipBuffer outFolder fs = (fs', Ok tt) ->
  fs_lookup fs' (fs_resolve outFolder) = Some Dir
  /\ Forall (destination_made outFolder fs') files.
Proof.
  intros Hcd Hrun.
  destruct (parseZipCentralDirectory_Ok_inv _ _ _ _ _ _ _ Hcd Hrun)
    as [(e & _ & [=]) | (fs0 & Hmk & Hloop)].
  split; [|by eapply extract_files_makes_destinations].
  apply (extract_files_keeps_kinds _ _ _ _ _ _ _ _ Hloop).
  rewrite (mkdirSync_Ok _ _ _ Hmk).
  rewrite bool_decide_eq_true_2; [done | apply path_steps_self].
Qed.

Lemma success_makes_every_destination_witness :
  fs_lookup (parseZipCentralDirectory inflate_stored twice_zip ext ∅).1
    (fs_resolve ext) = Some Dir
  /\ Forall (destination_made ext
               (parseZipCentralDirectory inflate_stored twice_zip ext ∅).1)
       [twice_first; twice_second].
Proof.
  apply (success_makes_every_destination inflate_stored twice_zip ext
           [twice_first; twice_second] ∅).
  - vm_compute. reflexivity.
  - run_succeeds.
Defined.

(** X15. A stored entry whose directory record announces no data yields
    an empty file, wherever its local header says the data starts. *)
Theorem empty_stored_entry (inflate : buffer -> option buffer)
    (zipBuffer : buffer) (outFolder : jsstring) (file : zip_file)
    (fs fs' : fs_state) :
  endsWith_slash (filename file) = false ->
  method file = 0 -> compSize file = 0 ->
  extract_file inflate zipBuffer outFolder file fs = (fs', Ok tt) ->
  fs_lookup fs' (fs_resolve (file_dest outFolder file)) = Some (File []).
Proof.
  intros Hname Hm Hsize Hrun. apply extract_file_inv in Hrun.
  destruct Hrun as [[_ Hne] | [(rm & _ & Hok) | (_ & _ & s1 & payload & data & Hp & Hd & _ & Hw)]].
  - done.
  - destruct (Hok eq_refl) as [? _]. congruence.
  - unfold decode_payload in Hd. rewrite Hm in Hd. injection Hd as <-.
    unfold local_file_data in Hp. apply bind_Ok_inv in Hp.
    destruct Hp as (start & _ & Hp). injection Hp as <-.
    rewrite (writeFileSync_Ok _ _ _ _ Hw), bool_decide_eq_true_2 by done.
    rewrite Hsize. unfold slice.
    replace (Z.to_nat (start + 0 - start)) with 0%nat by lia. done.
Qed.

Lemma empty_stored_entry_witness :
  fs_lookup
    (extract_file inflate_stored empty_file_zip ext empty_file
       (insert_dirs (key_prefixes (fs_resolve ext)) ∅)).1
    (fs_resolve (js_of_ascii "ext/empty.txt")) = Some (File []).
Proof.
  apply (empty_stored_entry inflate_stored empty_file_zip ext empty_file
           (insert_dirs (key_prefixes (fs_resolve ext)) ∅)).
  - vm_compute. reflexivity.
  - reflexivity.
  - reflexivity.
  - run_succeeds.
Defined.

(* ===================================================================== *)
(** * Running the extraction again *)
(* ===================================================================== *)

Lemma between_lookup (s fin t : fs_state) (k : fs_key) :
  between s fin t ->
  fs_lookup t k = fs_lookup s k \/ fs_lookup t k = fs_lookup fin k.
Proof.
  intros H. unfold fs_lookup. destruct (always_dir k); [by left | apply H].
Qed.

Lemma between_insert_dirs (s fin t : fs_state) (ks : list fs_key) :
  between s fin t -> between (insert_dirs ks s) fin (insert_dirs ks t).
Proof.
  intros H k. rewrite !insert_dirs_lookup.
  case_bool_decide; [by left | apply H].
Qed.

Lemma between_insert (s fin t : fs_state) (k0 : fs_key) (v : fs_node) :
  between s fin t -> between (<[k0 := v]> s) fin (<[k0 := v]> t).
Proof.
  intros H k. destruct (decide (k0 = k)) as [->|Hne].
  - rewrite !lookup_insert_eq. by left.
  - rewrite !lookup_insert_ne by done. apply H.
Qed.

(** A directory made in the first run is no obstacle in the second. *)
Lemma mkdirSync_again (s s1 fin t : fs_state) (p : jsstring) :
  mkdirSync s p = Ok s1 ->
  (forall k, fs_lookup s1 k = Some Dir -> fs_lookup fin k = Some Dir) ->
  between s fin t ->
  mkdirSync t p = Ok (insert_dirs (path_steps p) t)
  /\ between s1 fin (insert_dirs (path_steps p) t).
Proof.
  intros Hmk Hfin Hbetween.
  pose proof (mkdirSync_Ok_nonempty _ _ _ Hmk) as Hp.
  pose proof (mkdirSync_Ok_accepted _ _ _ Hmk) as Hacc.
  pose proof (mkdirSync_Ok _ _ _ Hmk) as Hs1.
  destruct (mkdirSync_Ok_inv _ _ _ Hmk) as [-> Hway].
  unfold way_clear in Hway. rewrite Forall_forall in Hway.
  destruct (mkdirSync_succeeds t p Hp Hacc) as [t1 Ht1].
  { intros k Hk.
    destruct (between_lookup s fin t k Hbetween) as [-> | ->]; [auto|].
    apply is_file_Dir. apply Hfin. rewrite Hs1.
    by rewrite bool_decide_eq_true_2. }
  destruct (mkdirSync_Ok_inv _ _ _ Ht1) as [-> _].
  split; [done|]. by apply between_insert_dirs.
Qed.

(** The second run does what the first did, from any state between the
    state of the first run at that point and its final state. *)
Lemma extract_files_again (inflate : buffer -> option buffer) (buf : buffer)
    (out : jsstring) (files : list zip_file) (s fin t : fs_state) :
  extract_files inflate buf out files s = (fin, Ok tt) ->
  between s fin t ->
  exists fin', extract_files inflate buf out files t = (fin', Ok tt)
               /\ forall k : fs_key, fin' !! k = fin !! k.
Proof.
  revert s t. induction files as [|file files IH]; intros s t Hrun Hbetween.
  - injection Hrun as <-. exists t. split; [done|].
    intros k. by destruct (Hbetween k).
  - cbn [extract_files] in *.
    destruct (extract_file inflate buf out file s) as [s1 [[]|e]] eqn:Hfile;
      [|discriminate].
    assert (Hdirs : forall k, fs_lookup s1 k = Some Dir ->
                              fs_lookup fin k = Some Dir).
    { intros k. apply (extract_files_keeps_kinds _ _ _ _ _ _ _ k Hrun). }
    assert (Hfiles : forall k, is_file (fs_lookup s1 k) = true ->
                               is_file (fs_lookup fin k) = true).
    { intros k. apply (extract_files_keeps_kinds _ _ _ _ _ _ _ k Hrun). }
    enough (exists t1, extract_file inflate buf out file t = (t1, Ok tt)
                       /\ between s1 fin t1) as (t1 & -> & Hb1).
    { by apply (IH s1 t1). }
    apply extract_file_inv in Hfile.
    destruct Hfile as [[_ Hne] | [(rm & Hmk & Hok) | (Hname & _ & s0 & payload & data & Hp & Hd & Hmk & Hw)]].
    + done.
    + destruct (Hok eq_refl) as [Hmarker ->]. rewrite Hmarker in Hmk.
      apply mkdirSync_Ok_run in Hmk.
      destruct (mkdirSync_again s s1 fin t _ Hmk Hdirs Hbetween) as [Ht Hb].
      eexists. split; [|exact Hb].
      by apply extract_file_marker_Ok.
    + pose proof (writeFileSync_Ok _ _ _ _ Hw) as Hs1.
      destruct (writeFileSync_Ok_inv _ _ _ _ Hw) as (Heq & Hnotdir & Hparent).
      destruct (mkdirSync_again s s0 fin t _ Hmk) as [Ht Hb]; [|done|].
      { intros k Hk. apply Hdirs.
        by apply (writeFileSync_keeps_kinds _ _ _ _ k Hw). }
      set (t0 := insert_dirs (path_steps (path_dirname (file_dest out file)))
                   t) in *.
      destruct (writeFileSync_Ok_path _ _ _ _ Hw) as (_ & Hslash & Hacc).
      destruct (writeFileSync_succeeds t0 (file_dest out file) data)
        as [t1 Ht1].
      * apply path_join_nonempty.
      * done.
      * done.
      * rewrite (mkdirSync_Ok _ _ _ Ht).
        rewrite bool_decide_eq_true_2; [done | apply path_steps_self].
      * destruct (between_lookup s0 fin t0 (fs_resolve (file_dest out file)) Hb)
          as [-> | ->].
        -- intros Hdir. by rewrite Hdir in Hnotdir.
        -- intros Hdir.
           assert (is_file (fs_lookup fin (fs_resolve (file_dest out file)))
                   = true) as Hf.
           { apply Hfiles. rewrite Hs1. by rewrite bool_decide_eq_true_2. }
           by rewrite Hdir in Hf.
      * exists t1. split.
        -- rewrite (extract_file_regular inflate _ _ _ _ _ _ Hname Hp Ht).
           fold (file_dest out file). rewrite Hd.
           unfold decode_payload in Hd.
           destruct (method file =? 0);
             [|destruct (method file =? 8); [|discriminate]];
             cbn [orb]; by rewrite Ht1.
        -- destruct (writeFileSync_Ok_inv _ _ _ _ Ht1) as (-> & _).
           rewrite Heq. by apply between_insert.
Qed.

(** X13. Running the extraction again on what a successful run has left
    succeeds and changes nothing. *)
Theorem extraction_idempotent (inflate : buffer -> option buffer)
    (crxBuffer : buffer) (outFolder : jsstring) (fs fs1 : fs_state) :
  extractCrxToFolder inflate crxBuffer outFolder fs = (fs1, Ok tt) ->
  extractCrxToFolder inflate crxBuffer outFolder fs1 = (fs1, Ok tt).
Proof.
  unfold extractCrxToFolder. intros Hrun.
  destruct (stripCrxHeader crxBuffer) as [zip|e0]; [|discriminate].
  rewrite parseZipCentralDirectory_unfold in *.
  destruct (parse_central_directory zip) as [files|e1]; [|discriminate].
  destruct (mkdirSync fs outFolder) as [s0|e2] eqn:Hmk; [|discriminate].
  assert (Hbetween : between fs fs1 fs1) by (intros k; by right).
  destruct (mkdirSync_again fs s0 fs1 fs1 outFolder Hmk) as [Ht Hb];
    [|done|].
  { intros k. apply (extract_files_keeps_kinds _ _ _ _ _ _ _ k Hrun). }
  rewrite Ht.
  destruct (extract_files_again _ _ _ _ _ _ _ Hrun Hb) as (fin' & Hagain & Hsame).
  rewrite Hagain. f_equal. by apply map_eq.
Qed.

Lemma extraction_idempotent_witness :
  extractCrxToFolder inflate_stored crx3_sample ext
    (extractCrxToFolder inflate_stored crx3_sample ext ∅).1
  = ((extractCrxToFolder inflate_stored crx3_sample ext ∅).1, Ok tt).
Proof.
  apply (extraction_idempotent inflate_stored crx3_sample ext ∅).
  run_succeeds.
Defined.

Lemma parse_cd_records_length (buf : buffer) (n : nat) (ptr : Z)
    (files : list zip_file) :
  parse_cd_records buf n ptr = Ok files -> length files = n.
Proof.
  revert ptr files. induction n as [|n IH]; intros ptr files H.
  - by injection H as <-.
  - cbn [parse_cd_records] in H. apply bind_Ok_inv in H.
    destruct H as ([file ptr'] & _ & H). apply bind_Ok_inv in H.
    destruct H as (rest & Hrest & H). injection H as <-.
    cbn. f_equal. by eapply IH.
Qed.

(** X24. The directory yields as many entries as the 16-bit count of its
    end record announces, neither fewer nor more, whatever the size the
    record gives for the directory. *)
Theorem entries_as_announced (zipBuffer : buffer) (eocdPos : Z)
    (files : list zip_file) :
  find_eocd zipBuffer = Ok eocdPos ->
  parse_central_directory zipBuffer = Ok files ->
  Z.of_nat (length files) = u16_at zipBuffer (eocdPos + 10).
Proof.
  intros Hfind Hparse. unfold parse_central_directory in Hparse.
  rewrite Hfind in Hparse. cbn [bind] in Hparse.
  destruct (eocdPos <? 0); [discriminate|].
  apply bind_Ok_inv in Hparse.
  destruct Hparse as ([[total size] off] & Hread & Hparse).
  unfold read_eocd in Hread. apply bind_Ok_inv in Hread.
  destruct Hread as (total' & Htotal & Hread).
  apply bind_Ok_inv in Hread. destruct Hread as (size' & _ & Hread).
  apply bind_Ok_inv in Hread. destruct Hread as (off' & _ & Hread).
  injection Hread as -> -> ->.
  unfold readUInt16LE in Htotal.
  destruct (in_bounds zipBuffer (eocdPos + 10) 2); [|discriminate].
  injection Htotal as <-. fold (u16_at zipBuffer (eocdPos + 10)) in *.
  destruct (off + size >? blen zipBuffer); [discriminate|].
  apply parse_cd_records_length in Hparse. rewrite Hparse.
  pose proof (le_value_range (slice zipBuffer (eocdPos + 10) (eocdPos + 10 + 2))).
  unfold u16_at. lia.
Qed.

Lemma entries_as_announced_witness :
  Z.of_nat (length (descriptors 0 sample_entries))
  = u16_at sample_zip (eocd_offset sample_entries + 10).
Proof.
  apply (entries_as_announced sample_zip (eocd_offset sample_entries)
           (descriptors 0 sample_entries)).
  - vm_compute. reflexivity.
  - vm_compute. reflexivity.
Defined.
(* ===================================================================== *)
(** * The download *)
(* ===================================================================== *)

Section Download.

Variable https_get : Z -> jsstring -> exchange.
Variable url_resolve : jsstring -> jsstring -> jsstring.

(** [fetchUrl] as lines 76-110 read. *)
Lemma fetchUrl_unfold (targetUrl : jsstring) (redirectCount maxRedirects : Z) :
  fetchUrl https_get url_resolve targetUrl redirectCount maxRedirects
  = if redirectCount >? maxRedirects then ([], Rejected TooManyRedirects)
    else
      match https_get redirectCount targetUrl with
      | RequestError message => ([targetUrl], Rejected (RequestFailure message))
      | Response statusCode location dataChunks =>
          if followed statusCode && truthy location then
            let next :=
              fetchUrl https_get url_resolve
                (url_resolve targetUrl (default [] location))
                (redirectCount + 1) maxRedirects in
            (targetUrl :: next.1, next.2)
          else if negb (statusCode =? 200) then
            ([targetUrl], Rejected (StatusFailure statusCode))
          else ([targetUrl], Resolved (concat dataChunks))
      end.
Proof.
  unfold fetchUrl. destruct (Z.gtb_spec redirectCount maxRedirects) as [H|H].
  - by replace (Z.to_nat (maxRedirects + 1 - redirectCount)) with 0%nat by lia.
  - replace (Z.to_nat (maxRedirects + 1 - redirectCount))
      with (S (Z.to_nat (maxRedirects + 1 - (redirectCount + 1)))) by lia.
    done.
Qed.

Lemma fetch_from_requests (budget : nat) (targetUrl : jsstring)
    (redirectCount : Z) :
  (length (fetch_from https_get url_resolve budget targetUrl redirectCount).1
   <= budget)%nat.
Proof.
  revert targetUrl redirectCount.
  induction budget as [|budget IH]; intros u c; cbn [fetch_from]; [done|].
  destruct (https_get c u) as [m|s loc chunks]; [cbn; lia|].
  destruct (followed s && truthy loc).
  - cbn. specialize (IH (url_resolve u (default [] loc)) (c + 1)). lia.
  - destruct (negb (s =? 200)); cbn; lia.
Qed.

(** X16. A call makes at most [maxRedirects + 1 - redirectCount]
    requests, and none when the count is already above the limit: with
    the defaults, at most eleven. *)
Theorem fetchUrl_request_bound (targetUrl : jsstring)
    (redirectCount maxRedirects : Z) :
  Z.of_nat
    (length (fetchUrl https_get url_resolve targetUrl redirectCount
               maxRedirects).1)
  <= Z.max 0 (maxRedirects + 1 - redirectCount).
Proof.
  unfold fetchUrl.
  pose proof (fetch_from_requests
                (Z.to_nat (maxRedirects + 1 - redirectCount)) targetUrl
                redirectCount).
  lia.
Qed.

Lemma redirect_target_Some (c : Z) (u newUrl : jsstring) :
  redirect_target https_get url_resolve c u = Some newUrl <->
  exists s loc chunks,
    https_get c u = Response s loc chunks
    /\ followed s && truthy loc = true
    /\ newUrl = url_resolve u (default [] loc).
Proof.
  unfold redirect_target. split.
  - destruct (https_get c u) as [m|s loc chunks]; [done|].
    destruct (followed s && truthy loc) eqn:E; [|done].
    intros [= <-]. by exists s, loc, chunks.
  - intros (s & loc & chunks & -> & -> & ->). done.
Qed.

Lemma fetch_from_resolved (budget : nat) (targetUrl : jsstring)
    (redirectCount : Z) (body : buffer) :
  (fetch_from https_get url_resolve budget targetUrl redirectCount).2
  = Resolved body <->
  exists (n : nat) (lastUrl : jsstring) (location : option jsstring)
         (dataChunks : list buffer),
    (n < budget)%nat
    /\ hops https_get url_resolve n targetUrl redirectCount = Some lastUrl
    /\ https_get (redirectCount + Z.of_nat n) lastUrl
       = Response 200 location dataChunks
    /\ body = concat dataChunks.
Proof.
  revert targetUrl redirectCount.
  induction budget as [|budget IH]; intros u c; cbn [fetch_from].
  { split; [done|]. intros (n & _ & _ & _ & Hn & _). lia. }
  split.
  - destruct (https_get c u) as [m|s loc chunks] eqn:Hget; [done|].
    destruct (followed s && truthy loc) eqn:Hfollow.
    + cbn [snd]. intros (n & u' & loc' & chunks' & Hn & Hhops & Hlast & ->)%IH.
      exists (S n), u', loc', chunks'. split; [lia|]. split.
      * cbn [hops]. unfold redirect_target. by rewrite Hget, Hfollow.
      * split; [|done]. rewrite <- Hlast. f_equal. lia.
    + destruct (Z.eqb_spec s 200) as [->|Hs]; [|done].
      cbn. intros [= <-]. exists 0%nat, u, loc, chunks.
      split; [lia|]. split; [done|]. split; [|done].
      rewrite <- Hget. f_equal. lia.
  - intros (n & u' & loc' & chunks' & Hn & Hhops & Hlast & ->).
    destruct n as [|n].
    + cbn in Hhops. injection Hhops as <-.
      replace (c + Z.of_nat 0) with c in Hlast by lia. by rewrite Hlast.
    + cbn [hops] in Hhops.
      destruct (redirect_target https_get url_resolve c u) as [newUrl|] eqn:Ht;
        [|done].
      apply redirect_target_Some in Ht.
      destruct Ht as (s & loc & chunks & -> & -> & ->). cbn [snd].
      apply IH. exists n, u', loc', chunks'. split; [lia|].
      split; [done|]. split; [|done]. rewrite <- Hlast. f_equal. lia.
Qed.

(** X17. The promise is resolved exactly when a chain of followed
    redirects, no longer than the limit leaves room for, ends at a
    response with status 200; it is resolved with the chunks of that
    response, put together. *)
Theorem fetchUrl_resolved_iff (targetUrl : jsstring)
    (redirectCount maxRedirects : Z) (body : buffer) :
  (fetchUrl https_get url_resolve targetUrl redirectCount maxRedirects).2
  = Resolved body <->
  exists (n : nat) (lastUrl : jsstring) (location : option jsstring)
         (dataChunks : list buffer),
    redirectCount + Z.of_nat n <= maxRedirects
    /\ hops https_get url_resolve n targetUrl redirectCount = Some lastUrl
    /\ https_get (redirectCount + Z.of_nat n) lastUrl
       = Response 200 location dataChunks
    /\ body = concat dataChunks.
Proof.
  unfold fetchUrl. rewrite fetch_from_resolved.
  split; intros (n & u' & loc & chunks & Hn & H); exists n, u', loc, chunks;
    (split; [lia | exact H]).
Qed.

Lemma fetch_from_too_many (budget : nat) (targetUrl : jsstring)
    (redirectCount : Z) :
  (fetch_from https_get url_resolve budget targetUrl redirectCount).2
  = Rejected TooManyRedirects <->
  is_Some (hops https_get url_resolve budget targetUrl redirectCount).
Proof.
  revert targetUrl redirectCount.
  induction budget as [|budget IH]; intros u c; cbn [fetch_from hops].
  { split; [by eexists | done]. }
  unfold redirect_target.
  destruct (https_get c u) as [m|s loc chunks] eqn:Hget.
  { split; [done | by intros [? ?]]. }
  destruct (followed s && truthy loc) eqn:Hfollow.
  - cbn [snd]. apply IH.
  - destruct (negb (s =? 200)); (split; [done | by intros [? ?]]).
Qed.

(** X18. The promise is rejected for too many redirects exactly when
    every request the limit allows is answered by a followed redirect:
    [maxRedirects + 1 - redirectCount] of them in a row. *)
Theorem fetchUrl_too_many_iff (targetUrl : jsstring)
    (redirectCount maxRedirects : Z) :
  (fetchUrl https_get url_resolve targetUrl redirectCount maxRedirects).2
  = Rejected TooManyRedirects <->
  is_Some (hops https_get url_resolve
             (Z.to_nat (maxRedirects + 1 - redirectCount)) targetUrl
             redirectCount).
Proof. apply fetch_from_too_many. Qed.

Lemma fetch_from_status (budget : nat) (targetUrl : jsstring)
    (redirectCount statusCode : Z) :
  (fetch_from https_get url_resolve budget targetUrl redirectCount).2
  = Rejected (StatusFailure statusCode) ->
  exists (n : nat) (lastUrl : jsstring) (location : option jsstring)
         (dataChunks : list buffer),
    hops https_get url_resolve n targetUrl redirectCount = Some lastUrl
    /\ https_get (redirectCount + Z.of_nat n) lastUrl
       = Response statusCode location dataChunks
    /\ statusCode <> 200
    /\ (followed statusCode = true -> truthy location = false).
Proof.
  revert targetUrl redirectCount.
  induction budget as [|budget IH]; intros u c; cbn [fetch_from]; [done|].
  destruct (https_get c u) as [m|s loc chunks] eqn:Hget; [done|].
  destruct (followed s && truthy loc) eqn:Hfollow.
  - cbn [snd]. intros (n & u' & loc' & chunks' & Hhops & Hlast & H)%IH.
    exists (S n), u', loc', chunks'. split.
    + cbn [hops]. unfold redirect_target. by rewrite Hget, Hfollow.
    + split; [|done]. rewrite <- Hlast. f_equal. lia.
  - destruct (Z.eqb_spec s 200) as [->|Hs]; [done|].
    cbn. intros [= <-]. exists 0%nat, u, loc, chunks.
    split; [done|]. split; [rewrite <- Hget; f_equal; lia|].
    split; [done|]. intros Hf. by rewrite Hf in Hfollow.
Qed.

(** X19. A rejection for a status code comes from the response that
    ended a chain of followed redirects; the code is never 200, and it is
    one of the followed codes only when that response had no [Location]
    header, or an empty one. *)
Theorem fetchUrl_status_failure (targetUrl : jsstring)
    (redirectCount maxRedirects statusCode : Z) :
  (fetchUrl https_get url_resolve targetUrl redirectCount maxRedirects).2
  = Rejected (StatusFailure statusCode) ->
  exists (n : nat) (lastUrl : jsstring) (location : option jsstring)
         (dataChunks : list buffer),
    hops https_get url_resolve n targetUrl redirectCount = Some lastUrl
    /\ https_get (redirectCount + Z.of_nat n) lastUrl
       = Response statusCode location dataChunks
    /\ statusCode <> 200
    /\ (followed statusCode = true -> truthy location = false).
Proof. apply fetch_from_status. Qed.

End Download.

Lemma fetchUrl_status_failure_witness :
  exists (n : nat) (lastUrl : jsstring) (location : option jsstring)
         (dataChunks : list buffer),
    hops lost_server resolve_absolute n (downloadUrl sample_id) 0
    = Some lastUrl
    /\ lost_server (0 + Z.of_nat n) lastUrl
       = Response 302 location dataChunks
    /\ 302 <> 200
    /\ (followed 302 = true -> truthy location = false).
Proof.
  apply (fetchUrl_status_failure lost_server resolve_absolute
           (downloadUrl sample_id) 0 10 302).
  vm_compute. reflexivity.
Defined.

(* ===================================================================== *)
(** * The command *)
(* ===================================================================== *)

(** Saving the download fails only on a directory of that name. *)
Lemma writeFileSync_debug_crx (fs : fs_state) (data : buffer) :
  writeFileSync fs debug_crx data
  = match fs_lookup fs (fs_resolve debug_crx) with
    | Some Dir => Err (FsError EISDIR)
    | _ => Ok (<[fs_resolve debug_crx := File data]> fs)
    end.
Proof.
  unfold writeFileSync.
  replace (fs_lookup fs (fs_resolve (path_dirname debug_crx)))
    with (Some Dir) by (unfold fs_lookup; by vm_compute).
  done.
Qed.

Lemma js_length_nonneg (s : jsstring) : 0 <= js_length s.
Proof.
  induction s as [|c s IH]; cbn; [done|]. fold (js_length s).
  destruct (65536 <=? c); lia.
Qed.

Section Command.

Variable https_get : Z -> jsstring -> exchange.
Variable url_resolve : jsstring -> jsstring -> jsstring.
Variable inflate : buffer -> option buffer.

(** The identifier passes the test of line 22. *)
Lemma id_accepted (extensionId : jsstring) :
  js_length extensionId = 32 ->
  bool_decide (extensionId = []) || negb (js_length extensionId =? 32) = false.
Proof.
  intros H. rewrite H. destruct extensionId; [discriminate H | done].
Qed.

Lemma id_refused (extensionId : jsstring) :
  js_length extensionId <> 32 ->
  bool_decide (extensionId = []) || negb (js_length extensionId =? 32) = true.
Proof.
  intros H. apply orb_true_iff. right. apply negb_true_iff. lia.
Qed.

(** X20. The command exits with code 0 exactly when it was given an
    identifier of 32 code units, the download was resolved and
    [debug.crx] could be written, that is, was not a directory: whether
    the extraction then succeeds does not show in the exit code. *)
Theorem exit_code_zero_iff (argv2 : option jsstring) (fs : fs_state) :
  exitCode (main https_get url_resolve inflate argv2 fs) = 0 <->
  exists (extensionId : jsstring) (body : buffer),
    argv2 = Some extensionId
    /\ js_length extensionId = 32
    /\ (fetchUrl https_get url_resolve (downloadUrl extensionId) 0 10).2 = Resolved body
    /\ fs_lookup fs (fs_resolve debug_crx) <> Some Dir.
Proof.
  unfold main. destruct argv2 as [id|].
  2:{ split; [done|]. by intros (? & ? & ? & _). }
  destruct (decide (js_length id = 32)) as [Hlen|Hlen].
  2:{ rewrite id_refused by done. split; [done|].
      intros (? & ? & [= <-] & ? & _). done. }
  rewrite id_accepted by done. cbv zeta.
  destruct (fetchUrl https_get url_resolve (downloadUrl id) 0 10).2 as [body|e] eqn:Hfetch.
  2:{ split; [done|]. intros (? & ? & [= <-] & _ & ? & _). congruence. }
  rewrite writeFileSync_debug_crx.
  destruct (fs_lookup fs (fs_resolve debug_crx)) as [[|data]|] eqn:Hnode.
  - split; [done|]. by intros (? & ? & _ & _ & _ & ?).
  - destruct (extractCrxToFolder inflate body id _) as [fs2 [[]|e]];
      (split; [intros _; by exists id, body | done]).
  - destruct (extractCrxToFolder inflate body id _) as [fs2 [[]|e]];
      (split; [intros _; by exists id, body | done]).
Qed.

(** X21. Unless the download is resolved for an identifier of 32 code
    units, the command writes nothing and exits with code 1. *)
Theorem nothing_written_without_download (argv2 : option jsstring)
    (fs : fs_state) :
  (forall (extensionId : jsstring) (body : buffer),
      argv2 = Some extensionId -> js_length extensionId = 32 ->
      (fetchUrl https_get url_resolve (downloadUrl extensionId) 0 10).2 <> Resolved body) ->
  disk (main https_get url_resolve inflate argv2 fs) = fs /\ exitCode (main https_get url_resolve inflate argv2 fs) = 1.
Proof.
  intros Hno. unfold main. destruct argv2 as [id|]; [|done].
  destruct (decide (js_length id = 32)) as [Hlen|Hlen].
  2:{ by rewrite id_refused. }
  rewrite id_accepted by done. cbv zeta.
  destruct (fetchUrl https_get url_resolve (downloadUrl id) 0 10).2 as [body|e] eqn:Hfetch; [|done].
  by destruct (Hno id body).
Qed.

(** X22. Once written, [debug.crx] stays a file, whatever the extraction
    does and however it ends. *)
Theorem saved_download_stays (extensionId : jsstring) (body : buffer)
    (fs : fs_state) :
  js_length extensionId = 32 ->
  (fetchUrl https_get url_resolve (downloadUrl extensionId) 0 10).2 = Resolved body ->
  fs_lookup fs (fs_resolve debug_crx) <> Some Dir ->
  is_file (fs_lookup (disk (main https_get url_resolve inflate (Some extensionId) fs))
             (fs_resolve debug_crx)) = true.
Proof.
  intros Hlen Hfetch Hnode. unfold main.
  rewrite id_accepted by done. cbv zeta. rewrite Hfetch.
  rewrite writeFileSync_debug_crx.
  set (fs1 := <[fs_resolve debug_crx := File body]> fs).
  assert (is_file (fs_lookup fs1 (fs_resolve debug_crx)) = true) as Hsaved.
  { unfold fs_lookup, fs1. rewrite lookup_insert_eq. by vm_compute. }
  assert (is_file (fs_lookup
                     (extractCrxToFolder inflate body extensionId fs1).1
                     (fs_resolve debug_crx)) = true) as Hkept.
  { destruct (extractCrxToFolder inflate body extensionId fs1)
      as [fs2 r] eqn:Hrun.
    by apply (extractCrxToFolder_keeps_kinds _ _ _ _ _ _ _ Hrun). }
  destruct (fs_lookup fs (fs_resolve debug_crx)) as [[|data]|]; [done| |];
    fold fs1;
    by destruct (extractCrxToFolder inflate body extensionId fs1)
      as [fs2 [[]|e]].
Qed.

(** X23. When the extraction fails on the header or on the directory of
    what was downloaded, the command has written [debug.crx], with the
    octets received, and nothing else; its last line reports the
    failure. *)
Theorem failed_extraction_keeps_download (extensionId : jsstring)
    (body : buffer) (fs : fs_state) (e : error) :
  js_length extensionId = 32 ->
  (fetchUrl https_get url_resolve (downloadUrl extensionId) 0 10).2 = Resolved body ->
  fs_lookup fs (fs_resolve debug_crx) <> Some Dir ->
  (extractCrxToFolder inflate body extensionId
     (<[fs_resolve debug_crx := File body]> fs)).2 = Err e ->
  early_failure e ->
  disk (main https_get url_resolve inflate (Some extensionId) fs)
  = <[fs_resolve debug_crx := File body]> fs
  /\ last (console (main https_get url_resolve inflate (Some extensionId) fs))
     = Some (ExtractionFailed e).
Proof.
  intros Hlen Hfetch Hnode Hrun Hearly. unfold main.
  rewrite id_accepted by done. cbv zeta. rewrite Hfetch.
  rewrite writeFileSync_debug_crx.
  set (fs1 := <[fs_resolve debug_crx := File body]> fs) in *.
  assert (exists fs2, extractCrxToFolder inflate body extensionId fs1
                      = (fs2, Err e)) as [fs2 Hrun2].
  { destruct (extractCrxToFolder inflate body extensionId fs1) as [fs2 r].
    cbn in Hrun. subst r. by exists fs2. }
  pose proof (extractCrxToFolder_early _ _ _ _ _ _ Hrun2 Hearly) as ->.
  destruct (fs_lookup fs (fs_resolve debug_crx)) as [[|data]|]; [done| |];
    fold fs1; by rewrite Hrun2.
Qed.

End Command.

Lemma nothing_written_without_download_witness :
  disk (main looping_server resolve_absolute inflate_stored
          (Some sample_id) ∅) = ∅
  /\ exitCode (main looping_server resolve_absolute inflate_stored
                 (Some sample_id) ∅) = 1.
Proof.
  apply (nothing_written_without_download looping_server resolve_absolute
           inflate_stored (Some sample_id) ∅).
  intros id body [= <-] _. vm_compute. discriminate.
Defined.

Lemma saved_download_stays_witness :
  is_file
    (fs_lookup
       (disk (main (redirecting_server crx3_sample) resolve_absolute
                inflate_stored (Some sample_id) ∅))
       (fs_resolve debug_crx)) = true.
Proof.
  apply (saved_download_stays (redirecting_server crx3_sample)
           resolve_absolute inflate_stored sample_id crx3_sample ∅).
  - reflexivity.
  - vm_compute. reflexivity.
  - vm_compute. discriminate.
Defined.

Lemma failed_extraction_keeps_download_witness :
  disk (main (redirecting_server crx9_sample) resolve_absolute
          inflate_stored (Some sample_id) ∅)
  = <[fs_resolve debug_crx := File crx9_sample]> ∅
  /\ last (console (main (redirecting_server crx9_sample) resolve_absolute
                      inflate_stored (Some sample_id) ∅))
     = Some (ExtractionFailed (UnsupportedVersion 9)).
Proof.
  apply (failed_extraction_keeps_download (redirecting_server crx9_sample)
           resolve_absolute inflate_stored sample_id crx9_sample ∅
           (UnsupportedVersion 9)).
  - reflexivity.
  - vm_compute. reflexivity.
  - vm_compute. discriminate.
  - vm_compute. reflexivity.
  - exact I.
Defined.
